(** * rfvis: the statistics parser, the forest assembler, the layout engines
      and the path highlighter

    A shallow embedding of
    - [src/src/components/TreeView.js]: [TreeView.generateTreeElements],
      [walkAndApply], [markPathElements], [addBranchInformation], and the parser
      module that follows it in the same file ([createForest],
      [parseCorrelationMatrix], [parseStatisticsContent]);
    - [src/app/draw.mjs]: [generateTreeElements] and [branchStrategy].

    JavaScript numbers are IEEE 754 doubles and are modelled by Rocq's
    primitive binary64 floats; node depths, which the code only compares,
    increments and uses as a slice bound, are integers ([Z]).  Thrown
    exceptions are modelled by the error side of [Result]. *)

From Stdlib Require Import ZArith Floats Ascii String Bool Lia Sorted.
From stdpp Require Import base list.

Local Open Scope Z_scope.
Set Warnings "-register-all".

(** ** Exceptions *)

(** What the code can throw: the two strings thrown by
    [parseStatisticsContent], the string thrown by [branchStrategy], and the
    [TypeError] the runtime raises when a
    property of [undefined] is read or written. [AddRefused] stands for
    whatever the node model's [add] raises when it does not take a child
    (see [TreeNodes] below). *)
Inductive Error : Type :=
  | FormatError      (* throw "Unknown tree file format" *)
  | StructuralError  (* throw "Malformed statistics content" *)
  | TypeError
  | UnsupportedSetting (* throw "Unsupported setting" *)
  | AddRefused.

Inductive Result (A : Type) : Type :=
  | Ok (a : A)
  | Throw (e : Error).
Arguments Ok {A} a.
Arguments Throw {A} e.

Definition bind {A B} (r : Result A) (k : A -> Result B) : Result B :=
  match r with
  | Ok a => k a
  | Throw e => Throw e
  end.

Notation "'let!' x ':=' r 'in' k" := (bind r (fun x => k))
  (at level 10, x pattern, r at level 100, k at level 200).

(** Reading a property of a value that may be [undefined]. *)
Definition defined {A} (o : option A) : Result A :=
  match o with
  | Some a => Ok a
  | None => Throw TypeError
  end.

(** [Array.prototype.map] with a callback that may throw: the first throw
    aborts the map. *)
Fixpoint mapR {A B} (f : A -> Result B) (l : list A) : Result (list B) :=
  match l with
  | [] => Ok []
  | a :: l' => let! b := f a in let! bs := mapR f l' in Ok (b :: bs)
  end.

(** ** Built-ins of the JavaScript runtime *)

Module JS.

Local Open Scope string_scope.

  (** [String.prototype.split] with a non-empty separator. [skip] counts the
      characters of a separator just matched that are still to be dropped.
      The result is the piece being read and the pieces after it. *)
Fixpoint split_aux (sep : string) (skip : nat) (s : string)
    : string * list string :=
    match s with
    | EmptyString => (EmptyString, [])
    | String c s' =>
        match skip with
        | S k => split_aux sep k s'
        | O =>
            if String.prefix sep s
            then (EmptyString,
                  let '(p, r) := split_aux sep (String.length sep - 1) s' in
                  p :: r)
            else let '(p, r) := split_aux sep 0 s' in (String c p, r)
        end
    end.

Definition split (sep : string) (s : string) : list string :=
    let '(p, r) := split_aux sep 0 s in p :: r.

  (** White space and line terminators that [trim] strips, among the code
      units below 256. *)
Definition is_white_space (c : ascii) : bool :=
    let n := nat_of_ascii c in
    ((9 <=? n) && (n <=? 13) || (n =? 32) || (n =? 160))%nat.

Fixpoint trimStart (s : string) : string :=
    match s with
    | String c s' => if is_white_space c then trimStart s' else s
    | EmptyString => EmptyString
    end.

Fixpoint trimEnd (s : string) : string :=
    match s with
    | EmptyString => EmptyString
    | String c s' =>
        match trimEnd s' with
        | EmptyString => if is_white_space c then EmptyString else String c EmptyString
        | t => String c t
        end
    end.

Definition trim (s : string) : string := trimEnd (trimStart s).

  (** [text.replace(/\[|\]/g, '')] *)
Fixpoint remove_brackets (s : string) : string :=
    match s with
    | EmptyString => EmptyString
    | String c s' =>
        if (Ascii.eqb c "[" || Ascii.eqb c "]")%char
        then remove_brackets s'
        else String c (remove_brackets s')
    end.

  (** [Array.prototype.slice(0, finish)]: a negative [finish] counts from
      the end, one past the end stops at the end. *)
Definition slice0 {A} (l : list A) (finish : Z) : list A :=
    let len := Z.of_nat (length l) in
    let k := (if finish <? 0 then Z.max (len + finish) 0 else Z.min finish len)%Z in
    take (Z.to_nat k) l.

  (** [l[l.length - 1]], [undefined] on an empty array. *)
Definition last_item {A} (l : list A) : option A := l !! (length l - 1)%nat.

  (** [Array.prototype.pop], for its effect on the array. *)
Definition pop {A} (l : list A) : list A := take (length l - 1)%nat l.

Local Open Scope float_scope.

  (** [Math.max] and [Math.min] of two numbers: [NaN] if either is [NaN],
      and [+0] is larger than [-0]. *)
Definition Math_max (a b : float) : float :=
    if is_nan a || is_nan b then nan
    else if a <? b then b
    else if b <? a then a
    else if get_sign a then b else a.

Definition Math_min (a b : float) : float :=
    if is_nan a || is_nan b then nan
    else if a <? b then a
    else if b <? a then b
    else if get_sign a then a else b.

Definition Math_abs (a : float) : float := abs a.

End JS.


(** ** The node model *)

(** The two classes of [src/logic/TreeNodes.js], as [instanceof] tells them
    apart. *)
Inductive Kind : Type := InternalNode | LeafNode.

(** The data fields of a node that the code under study reads or writes.
    [impurityDrop] is meaningful on an internal node; [leafId], [noClasses],
    [classes] and [bestClass] on a leaf. *)
Record Fields : Type := mkFields {
  depth : Z;
  samples : float;
  impurity : float;
  impurityDrop : float;
  leafId : Z;
  noClasses : Z;
  classes : list float;
  bestClass : Z;
  selectedPathElement : bool
}.

Definition set_depth (d : Z) (f : Fields) : Fields :=
  mkFields d (samples f) (impurity f) (impurityDrop f) (leafId f)
           (noClasses f) (classes f) (bestClass f) (selectedPathElement f).

Definition set_selectedPathElement (b : bool) (f : Fields) : Fields :=
  mkFields (depth f) (samples f) (impurity f) (impurityDrop f) (leafId f)
           (noClasses f) (classes f) (bestClass f) b.

(** *** Nodes as objects: the parser and the highlighter

    The parser links the objects it creates in place, parent to child and
    child to parent, and the highlighter follows both directions. The
    objects live in a store; a reference is the position of the object in
    it, which for a parsed tree is the position of its record in the file. *)
Record NodeObj : Type := mkObj {
  cls : Kind;
  fields : Fields;
  child_refs : list nat;       (* children *)
  parent_ref : option nat      (* parent, undefined on the base node *)
}.

Abbreviation Store := (list NodeObj).

Definition push_child (c : nat) (o : NodeObj) : NodeObj :=
  mkObj (cls o) (fields o) (child_refs o ++ [c]) (parent_ref o).

Definition set_parent (p : nat) (o : NodeObj) : NodeObj :=
  mkObj (cls o) (fields o) (child_refs o) (Some p).

Definition set_flag (b : bool) (o : NodeObj) : NodeObj :=
  mkObj (cls o) (set_selectedPathElement b (fields o)) (child_refs o) (parent_ref o).

(** Modelled from the spec: [src/logic/TreeNodes.js] (the constructors of
    [InternalNode] and [LeafNode], and the method [add]) is not among the
    sources. The spec gives a record a [depth] field first and the other
    data fields after it, and says that [add] attaches the node "as the next
    child (in encountered order, max 2)" and sets its [parent]. What the
    constructors read from the fields of a line, and whether a node takes one
    more child, are left to the interface; when a child is taken, [add]
    below does what the spec says. *)
Record TreeNodes : Type := {
  new_InternalNode : list string -> Fields;
  new_LeafNode : list string -> Fields;
  takes_child : NodeObj -> bool
}.

(** Modelled from the spec: [latest.add(node)]; a [TypeError] when [latest]
    is [undefined]. *)
Definition add (T : TreeNodes) (st : Store) (latest : option nat) (node : nat)
  : Result Store :=
  let! l := defined latest in
  let! lo := defined (st !! l) in
  if takes_child T lo
  then Ok (alter (set_parent l) node (<[l := push_child node lo]> st))
  else Throw AddRefused.

(** ** The statistics parser ([parseStatisticsContent]) *)

Definition LF : string := String (ascii_of_nat 10) EmptyString.

Section Parser.

  Variable T : TreeNodes.

  (** The callback of [lines.map]. *)
Definition parseLine (line : string) : Result NodeObj :=
    let fields := JS.split ";" line in
    if (length fields =? 11)%nat
    then Ok (mkObj InternalNode (new_InternalNode T fields) [] None)
    else if (length fields =? 6)%nat
    then Ok (mkObj LeafNode (new_LeafNode T fields) [] None)
    else Throw FormatError.

Definition lines_of (text : string) : list string :=
    drop 2 (JS.split LF (JS.trim text)).

  (** The depth of the object behind a reference; reading it on [undefined]
      is a [TypeError]. *)
Definition depth_at (st : Store) (r : option nat) : Result Z :=
    let! i := defined r in
    let! o := defined (st !! i) in
    Ok (depth (fields o)).

  (** One round of the loop [for (const node of nodes)]. The state is the
      store and the stack of references, top last. *)
Definition place (s : Store * list nat) (node : nat) : Result (Store * list nat) :=
    let '(st, stack) := s in
    let latest := JS.last_item stack in
    let! d := depth_at st (Some node) in
    let! dl := depth_at st latest in
    let! stack :=
      if d =? dl + 1 then Ok stack                       (* Child Node *)
      else if d =? dl then Ok (JS.pop stack)             (* Sibling Node *)
      else if d <? dl then Ok (JS.slice0 stack d)
      else Throw StructuralError in
    let latest := JS.last_item stack in
    let! st := add T st latest node in
    Ok (st, stack ++ [node]).

Fixpoint place_all (s : Store * list nat) (nodes : list nat)
    : Result (Store * list nat) :=
    match nodes with
    | [] => Ok s
    | node :: rest => let! s' := place s node in place_all s' rest
    end.

  (** The value returned: the store of linked objects and the reference to
      the base node, [undefined] when the text holds no record
      ([nodes.shift()] of an empty array). *)
Record Parsed : Type := mkParsed {
    store : Store;
    baseNode : option nat
  }.

Definition parseStatisticsContent (text : string) : Result Parsed :=
    let! nodes := mapR parseLine (lines_of text) in
    match nodes with
    | [] => Ok (mkParsed [] None)
    | _ :: rest =>
        let! (st, _) := place_all (nodes, [0%nat]) (seq 1 (length rest)) in
        Ok (mkParsed st (Some 0%nat))
    end.

End Parser.

(** ** The forest assembler ([createForest]) *)

Record RawData : Type := mkRawData {
  forestFileContent : string;
  treeFileContents : list string
}.

Record Tree : Type := mkTree {
  oobError : option float;     (* undefined when the list of errors is short *)
  tree : Parsed
}.

Record Forest : Type := mkForest {
  error : float;
  totalSamples : float;
  correlationMatrix : list (list float);
  trees : list Tree
}.

Section Assembler.

  Variable T : TreeNodes.
  (** [Number.parseFloat], a built-in: any function from strings to numbers. *)
  Variable Number_parseFloat : string -> float.

Definition parseCorrelationMatrix (text : string) : list (list float) :=
    map (fun line => map Number_parseFloat (JS.split "," line))
        (JS.split (";" ++ LF) (JS.remove_brackets text)).

  (** The callback of [rawData.treeFileContents.map], from position [index] on. *)
Fixpoint parse_trees (treeOobErrors : list float) (index : nat)
           (contents : list string) : Result (list Tree) :=
    match contents with
    | [] => Ok []
    | treeFileContent :: rest =>
        let! b := parseStatisticsContent T treeFileContent in
        let! ts := parse_trees treeOobErrors (S index) rest in
        Ok (mkTree (treeOobErrors !! index) b :: ts)
    end.

  (** [Number.parseFloat] of a value that may be [undefined], which it
      first turns into the string "undefined". *)
Definition parseFloat_opt (o : option string) : float :=
    Number_parseFloat (default "undefined"%string o).

Definition createForest (rawData : RawData) : Result Forest :=
    let forestDataParts := JS.split (LF ++ LF) (forestFileContent rawData) in
    let! part0 := defined (forestDataParts !! 0%nat) in
    let correlationMatrix := parseCorrelationMatrix part0 in
    let! part1 := defined (forestDataParts !! 1%nat) in
    let treeOobErrors := map Number_parseFloat (JS.split LF part1) in
    let error := parseFloat_opt (forestDataParts !! 2%nat) in
    let! trees := parse_trees treeOobErrors 0 (treeFileContents rawData) in
    let! t0 := defined (trees !! 0%nat) in
    let! b := defined (baseNode (tree t0)) in
    let! bo := defined (store (tree t0) !! b) in
    Ok (mkForest error (samples (fields bo)) correlationMatrix trees).

End Assembler.

(** ** Trees as the layout engines walk them *)

(** What [Object.assign] writes on a node besides [depth]. *)
Record Geometry : Type := mkGeometry {
  g_x : float;
  g_y : float;
  g_x2 : float;
  g_y2 : float;
  g_angle : float;
  g_length : float
}.

(** A node with the nodes below it. The layout only follows [children]
    downwards, so the objects are values here; [geometry] is [None] on a node
    no layout has written to yet. *)
Inductive Node : Type := mkNode {
  node_cls : Kind;
  node_fields : Fields;
  geometry : option Geometry;
  children : list Node
}.

Definition node_depth (n : Node) : Z := depth (node_fields n).
Definition node_samples (n : Node) : float := samples (node_fields n).

(** The tree behind a reference of a store, [None] when [fuel] is too
    small for its height or a reference leaves the store. *)
Fixpoint tree_of (fuel : nat) (st : Store) (r : nat) : option Node :=
  match fuel with
  | O => None
  | S fuel' =>
      match st !! r with
      | None => None
      | Some o =>
          match mapM (tree_of fuel' st) (child_refs o) with
          | Some cs => Some (mkNode (cls o) (fields o) None cs)
          | None => None
          end
      end
  end.

(** [Array.prototype.sort] with a comparator, as a stable insertion sort:
    [cmp a b] stands for "the comparator returns a positive number". *)
Section Sort.
  Context {A : Type} (after : A -> A -> bool).

Fixpoint insert_sorted (a : A) (l : list A) : list A :=
    match l with
    | [] => [a]
    | b :: l' => if after a b then b :: insert_sorted a l' else a :: b :: l'
    end.

Definition sort (l : list A) : list A := foldr insert_sorted [] l.
End Sort.

(** ** The layout engine of [TreeView.js] *)

Module TreeView.

Local Open Scope float_scope.

Record LeafRecord : Type := mkLeaf {
    leaf_x : float;
    leaf_y : float;
    leaf_impurity : float;
    leaf_samples : float;
    leaf_leafId : Z;
    leaf_depth : Z;
    leaf_noClasses : Z;
    leaf_classes : list float;
    leaf_bestClass : Z;
    leaf_selectedPathElement : bool
  }.

Record BunchRecord : Type := mkBunch {
    bunch_x : float;
    bunch_y : float;
    bunch_baseNode : Node;
    bunch_samples : float
  }.

  (** [{branches, leafs, bunches}]. [branches] holds the node objects
      themselves, so an entry shows the node as the whole layout leaves it. *)
Record Elements : Type := mkElements {
    branches : list Node;
    leafs : list LeafRecord;
    bunches : list BunchRecord
  }.

Definition no_elements : Elements := mkElements [] [] [].

Definition join (a b : Elements) : Elements :=
    mkElements (branches a ++ branches b) (leafs a ++ leafs b)
               (bunches a ++ bunches b).

  (** [sortBySamples (a, b)] returns 1 exactly when [a.samples < b.samples]. *)
Definition samples_after (a b : float) : bool := a <? b.

  Section Engine.

    (** [Math.sin] and [Math.cos]: built-ins the language leaves to the
        implementation; any pair of functions on numbers. *)
    Variables Math_sin Math_cos : float -> float.

Definition new_geometry (x y angle length : float) : Geometry :=
      mkGeometry x y (x + length * Math_sin angle) (y - length * Math_cos angle)
                 angle length.

Definition addBranchInformation (treeNode : Node) (x y angle length : float)
               (depth : Z) : Node :=
      mkNode (node_cls treeNode) (set_depth depth (node_fields treeNode))
             (Some (new_geometry x y angle length)) (children treeNode).

    Variables (maxDepth : Z) (maxShorteningFactor minBranchLength : float).

    (** [branch (addBranchInformation (treeNode, x, y, angle, length, depth))]:
        the recursive closure [branch] together with the call that prepares
        its argument. The result is the node as the calls below leave it
        and what they pushed, in the order of the pushes. *)
Fixpoint branch_at (treeNode : Node) (x y angle length : float) (depth : Z)
      : Result (Node * Elements) :=
      let node := addBranchInformation treeNode x y angle length depth in
      let g := new_geometry x y angle length in
      let f := node_fields node in
      if (depth =? maxDepth - 1)%Z then
        Ok (node, mkElements [node] []
                    [mkBunch (g_x2 g) (g_y2 g) node (samples f)])
      else
        match node_cls node with
        | LeafNode =>
            Ok (node, mkElements [node]
                        [mkLeaf (g_x2 g) (g_y2 g) (impurity f) (samples f) (leafId f)
                                (node_depth node) (noClasses f) (classes f)
                                (bestClass f) (selectedPathElement f)]
                        [])
        | InternalNode =>
            match children treeNode with
            | leftChild :: rightChild :: others =>
                let length1 :=
                  JS.Math_max (JS.Math_min (node_samples leftChild / samples f)
                                           maxShorteningFactor * length)
                              minBranchLength in
                let length2 :=
                  JS.Math_max (JS.Math_min (node_samples rightChild / samples f)
                                           maxShorteningFactor * length)
                              minBranchLength in
                let angle1 :=
                  angle - JS.Math_abs (node_samples leftChild / samples f - 1) in
                let angle2 :=
                  angle + JS.Math_abs (node_samples rightChild / samples f - 1) in
                let! (l, el) := branch_at leftChild (g_x2 g) (g_y2 g) angle1 length1
                                          (depth + 1) in
                let! (r, er) := branch_at rightChild (g_x2 g) (g_y2 g) angle2 length2
                                          (depth + 1) in
                let node' := mkNode (node_cls node) f (Some g) (l :: r :: others) in
                Ok (node', join (mkElements [node'] [] []) (join el er))
            | _ =>
                (* leftChild.samples or rightChild.samples of undefined *)
                Throw TypeError
            end
        end.

    (** The parameter [pathLeafID] only guards a statement that is commented
        out, and is left out. *)
Definition generateTreeElements (tree : Node) (totalSamples : float)
               (width height trunkLength : float) : Result Elements :=
      let! (_, e) := branch_at tree (width / 2) height 0 trunkLength 0 in
      Ok (mkElements (branches e)
                     (sort (fun a b => samples_after (leaf_samples a) (leaf_samples b))
                           (leafs e))
                     (sort (fun a b => samples_after (bunch_samples a) (bunch_samples b))
                           (bunches e))).

  End Engine.

  (** The default values of the last two parameters. *)
Definition default_maxShorteningFactor : float := 0x1.ccccccccccccdp-1.  (* 0.9 *)
Definition default_minBranchLength : float := 4.

End TreeView.

(** ** The layout engine of [draw.mjs] *)

Module Draw.

Local Open Scope float_scope.

  (** A node after [addBranchInformation]: the tree node and what
      [Object.assign] wrote on it. [p_parent] is the index of the branch the
      node hangs on, [None] for [null]. *)
Record Placed : Type := mkPlaced {
    p_node : Node;
    p_index : nat;
    p_geometry : Geometry;
    p_depth : Z;
    p_parent : option nat
  }.

  (** [removeChildReferences (node)]: the copy without [children]. *)
Record BranchRecord : Type := mkBranch {
    b_cls : Kind;
    b_fields : Fields;
    b_index : nat;
    b_geometry : Geometry;
    b_parent : option nat
  }.

Record LeafRecord : Type := mkLeaf {
    leaf_x : float;
    leaf_y : float;
    leaf_impurity : float;
    leaf_samples : float
  }.

Record Elements : Type := mkElements {
    branches : list BranchRecord;
    leafs : list LeafRecord
  }.

Definition removeChildReferences (node : Placed) : BranchRecord :=
    mkBranch (node_cls (p_node node)) (set_depth (p_depth node) (node_fields (p_node node)))
             (p_index node) (p_geometry node) (p_parent node).

  (** What a strategy returns: [{leftChild, rightChild}], either of which
      may be [undefined]. *)
Definition Strategy : Type := Placed -> Result (option Node * option Node).

Definition strategy_SIMPLE : Strategy := fun node =>
    let leftChild := children (p_node node) !! 0%nat in
    let rightChild := children (p_node node) !! 1%nat in
    Ok (leftChild, rightChild).

Definition firstBiggerThanSecond (first : Node) (node : Placed) : bool :=
    0.5 <=? node_samples first / node_samples (p_node node).

Definition leftBound (node : Placed) : bool :=
    g_angle (p_geometry node) <? 0.

Definition strategy_UP : Strategy := fun node =>
    let! first := defined (children (p_node node) !! 0%nat) in
    let firstBiggerThanSecond := firstBiggerThanSecond first node in
    let leftBound := leftBound node in
    let children0 := children (p_node node) !! 0%nat in
    let children1 := children (p_node node) !! 1%nat in
    if firstBiggerThanSecond && leftBound then
      Ok (children1, children0)
    else if negb firstBiggerThanSecond && leftBound then
      Ok (children0, children1)
    else if firstBiggerThanSecond && negb leftBound then
      Ok (children0, children1)
    else
      Ok (children1, children0).

Definition branchStrategy (type : string) : Result Strategy :=
    if String.eqb type "SIMPLE" then Ok strategy_SIMPLE
    else if String.eqb type "UP" then Ok strategy_UP
    else Throw UnsupportedSetting.

  Section Engine.

    Variables Math_sin Math_cos : float -> float.
    Variable totalSamples : float.
    (** [maxDepth], [None] for its default [Number.POSITIVE_INFINITY]. *)
    Variable maxDepth : option Z.
    Variable strategy : Strategy.

Definition addBranchInformation (treeNode : Node) (index : nat)
               (x y angle length : float) (depth : Z) (parent : option nat) : Placed :=
      mkPlaced treeNode index
               (mkGeometry x y (x + length * Math_sin angle) (y - length * Math_cos angle)
                           angle length)
               depth parent.

Definition at_maxDepth (depth : Z) : bool :=
      match maxDepth with
      | Some m => (depth =? m - 1)%Z
      | None => false
      end.

    (** The closure [branch], on the arrays [branches] and [leafs] it pushes
        to. A strategy is any function, so the recursion is bounded by
        [fuel]: [None] when it runs out. *)
Fixpoint branch (fuel : nat) (node : Placed) (e : Elements)
      : option (Result Elements) :=
      match fuel with
      | O => None
      | S fuel' =>
          let e := mkElements (branches e ++ [removeChildReferences node]) (leafs e) in
          let g := p_geometry node in
          if (length (children (p_node node)) =? 0)%nat || at_maxDepth (p_depth node) then
            Some (Ok (mkElements (branches e)
                        (leafs e ++ [mkLeaf (g_x2 g) (g_y2 g)
                                            (impurity (node_fields (p_node node)))
                                            (node_samples (p_node node))])))
          else
            match strategy node with
            | Throw err => Some (Throw err)
            | Ok (leftChild, rightChild) =>
                match leftChild, rightChild with
                | Some l, Some r =>
                    let length1 := 4 + node_samples l / totalSamples * 100 in
                    let length2 := 4 + node_samples r / totalSamples * 100 in
                    let angle1 :=
                      g_angle g - JS.Math_abs (node_samples l / node_samples (p_node node) - 1) in
                    let angle2 :=
                      g_angle g + JS.Math_abs (node_samples r / node_samples (p_node node) - 1) in
                    match branch fuel' (addBranchInformation l (length (branches e))
                                          (g_x2 g) (g_y2 g) angle1 length1
                                          (p_depth node + 1) (Some (p_index node))) e with
                    | Some (Ok e1) =>
                        branch fuel' (addBranchInformation r (length (branches e1))
                                        (g_x2 g) (g_y2 g) angle2 length2
                                        (p_depth node + 1) (Some (p_index node))) e1
                    | other => other
                    end
                | _, _ =>
                    (* leftChild.samples or rightChild.samples of undefined *)
                    Some (Throw TypeError)
                end
            end
      end.

Definition generateTreeElements (fuel : nat) (tree : Node) : option (Result Elements) :=
      branch fuel (addBranchInformation tree 0 400 800 0 100 0 None) (mkElements [] []).

  End Engine.

End Draw.

(** ** The path highlighter ([walkAndApply], [markPathElements]) *)

Section Highlighter.

  (** [fn (node)] for the two callbacks of [markPathElements], each an
      assignment to a property of [node]: a [TypeError] on [undefined]. *)
Definition apply_to (fn : NodeObj -> NodeObj) (st : Store) (node : option nat)
    : Result Store :=
    let! i := defined node in
    let! o := defined (st !! i) in
    Ok (<[i := fn o]> st).

  (** [walkAndApply (node, fn)]. The objects of a store may refer to each
      other in a cycle, so the recursion is bounded by [fuel]: [None] when
      it runs out. *)
Fixpoint walkAndApply (fuel : nat) (fn : NodeObj -> NodeObj) (st : Store)
           (node : option nat) : option (Result Store) :=
    match fuel with
    | O => None
    | S fuel' =>
        match apply_to fn st node with
        | Throw e => Some (Throw e)
        | Ok st1 =>
            match node ≫= (st1 !!.) with
            | None => Some (Throw TypeError)
            | Some o =>
                match cls o with
                | InternalNode =>
                    match walkAndApply fuel' fn st1 (child_refs o !! 0%nat) with
                    | Some (Ok st2) => walkAndApply fuel' fn st2 (child_refs o !! 1%nat)
                    | other => other
                    end
                | LeafNode => Some (Ok st1)
                end
            end
        end
    end.

  (** The local function [walkUpAndApply (node, fn)]. *)
Fixpoint walkUpAndApply (fuel : nat) (fn : NodeObj -> NodeObj) (st : Store)
           (node : nat) : option (Result Store) :=
    match fuel with
    | O => None
    | S fuel' =>
        match apply_to fn st (Some node) with
        | Throw e => Some (Throw e)
        | Ok st1 =>
            match st1 !! node ≫= parent_ref with
            | Some p => walkUpAndApply fuel' fn st1 p
            | None => Some (Ok st1)
            end
        end
    end.

  (** [this.getLeafNodes]: the class [TreeView] (lines 10 to 296) defines no
      method of this name and [React.Component] has none, so the property is
      [undefined] on an instance: [None]. A method would take the tree and
      return its leaf nodes. *)
Definition this_getLeafNodes : option (Store -> nat -> list nat) := None.

  (** [leafIds.includes (leaf.leafId)] *)
Definition includes (leafIds : list Z) (id : Z) : bool :=
    existsb (Z.eqb id) leafIds.

  (** The loop [for (const leaf of leafs)]. *)
Fixpoint mark_leafs (fuel : nat) (st : Store) (leafs : list nat)
    : option (Result Store) :=
    match leafs with
    | [] => Some (Ok st)
    | leaf :: rest =>
        match walkUpAndApply fuel (set_flag true) st leaf with
        | Some (Ok st1) => mark_leafs fuel st1 rest
        | other => other
        end
    end.

  (** [getLeafNodes (tree).filter (leaf => leafIds.includes (leaf.leafId))],
      for a method [getLeafNodes]. *)
Definition selected_leafs (getLeafNodes : Store -> nat -> list nat) (leafIds : list Z)
             (st : Store) (tree : nat) : list nat :=
    List.filter (fun leaf => match st !! leaf with
                             | Some o => includes leafIds (leafId (fields o))
                             | None => false
                             end)
                (getLeafNodes st tree).

  (** The body of [markPathElements]: the call [this.getLeafNodes (tree)] is
      a [TypeError] when the property is [undefined]. *)
Definition markPathElements_fuel (fuel : nat) (leafIds : list Z) (st : Store)
             (tree : nat) : option (Result Store) :=
    match walkAndApply fuel (set_flag false) st (Some tree) with
    | Some (Ok st1) =>
        match this_getLeafNodes with
        | Some getLeafNodes =>
            mark_leafs fuel st1 (selected_leafs getLeafNodes leafIds st1 tree)
        | None => Some (Throw TypeError)
        end
    | other => other
    end.

  (** [markPathElements (leafIds, tree)], with fuel for the longest walk a
      store of this size allows without a cycle. *)
Definition markPathElements (leafIds : list Z) (st : Store) (tree : nat)
    : option (Result Store) :=
    markPathElements_fuel (S (length st)) leafIds st tree.

End Highlighter.

(** ** An instance of the node model, for running the code on texts *)

Module Model.

Definition digit (c : ascii) : option Z :=
    let n := Z.of_nat (nat_of_ascii c) in
    if (48 <=? n) && (n <=? 57) then Some (n - 48) else None.

  (** The decimal digits at the front of a string: their value, how many
      they are, and the rest of the string. *)
Fixpoint digits (acc : Z) (count : nat) (s : string) : Z * nat * string :=
    match s with
    | String c s' =>
        match digit c with
        | Some d => digits (10 * acc + d) (S count) s'
        | None => (acc, count, s)
        end
    | EmptyString => (acc, count, s)
    end.

  (** [Number.parseInt] on a decimal integer with an optional minus sign.
      A string that does not start with one has no value in [Z]; it is read
      as 0, and no text used below has such a field. *)
Definition parseInt (s : string) : Z :=
    match JS.trimStart s with
    | String "-" s' => let '(v, _, _) := digits 0 0 s' in - v
    | s' => let '(v, _, _) := digits 0 0 s' in v
    end.

Definition float_of_Z (z : Z) : float := PrimFloat.of_uint63 (Uint63.of_Z z).

  (** [Number.parseFloat] on a decimal literal [digits] or [digits.digits]
      with an optional minus sign: the quotient of two integers, which is the
      nearest double when both are below 2^53; [NaN] when no digit comes
      first. *)
Definition parseFloat (s : string) : float :=
    let unsigned (s : string) : float :=
      let '(whole, n, rest) := digits 0 0 s in
      match n, rest with
      | O, _ => nan
      | _, String "." frac =>
          let '(v, k, _) := digits whole 0 frac in
          (float_of_Z v / float_of_Z (10 ^ Z.of_nat k))%float
      | _, _ => float_of_Z whole
      end in
    match JS.trimStart s with
    | String "-" s' => (- unsigned s')%float
    | s' => unsigned s'
    end.

  (** Modelled from the spec: a record starts with its depth; the scenario
      of the spec's section 8 has the sample count second and the impurity
      third. The fields the spec gives no position for are not read from
      the line. *)
Definition new_node (fields : list string) : Fields :=
    mkFields (parseInt (nth 0 fields EmptyString))
             (parseFloat (nth 1 fields EmptyString))
             (parseFloat (nth 2 fields EmptyString))
             0 0 0 [] 0 false.

  (** [add] as plain accumulation: every node takes every child. *)
Definition accumulating : TreeNodes :=
    Build_TreeNodes new_node new_node (fun _ => true).

  (** [add] that keeps the arity the spec's data model states: an internal
      node takes a child while it has fewer than two, a leaf never does. *)
Definition takes_two (o : NodeObj) : bool :=
    match cls o with
    | InternalNode => (length (child_refs o) <? 2)%nat
    | LeafNode => false
    end.

Definition binary : TreeNodes :=
    Build_TreeNodes new_node new_node takes_two.

  (** Texts: two header lines, then one record per depth; [internal d] and
      [leaf d] are records of 11 and of 6 fields. *)
Definition show_nat (n : nat) : string :=
    String (ascii_of_nat (48 + n)) EmptyString.

Definition internal (d : nat) : string :=
    (show_nat d ++ ";100;0.5;0;0;0;0;0;0;0;0")%string.

Definition leaf (d : nat) : string :=
    (show_nat d ++ ";40;0.25;0;0;0")%string.

Definition text_of (records : list string) : string :=
    ("H1" ++ LF ++ "H2" ++ fold_right (fun r s => LF ++ r ++ s) EmptyString records)%string.

(** Stand-ins for [Math.sin] and [Math.cos], exact at 0: the polynomials
    of degree two. The layout is run with them in the examples; what is
    proved of the layout holds for every pair of functions. *)
Definition sin (a : float) : float := a.
Definition cos (a : float) : float := (1 - a * a / 2)%float.

End Model.

(** * Properties *)

(** ** Exceptions and the helpers *)

Lemma bind_Ok {A B} (r : Result A) (k : A -> Result B) (b : B) :
  bind r k = Ok b <-> exists a, r = Ok a /\ k a = Ok b.
Proof.
  destruct r as [a|e]; simpl; split.
  - intros H. exists a. auto.
  - intros [a' [Ha Hk]]. inversion Ha. subst. exact Hk.
  - discriminate.
  - intros [a' [Ha _]]. discriminate.
Qed.

Lemma bind_Throw {A B} (r : Result A) (k : A -> Result B) (e : Error) :
  bind r k = Throw e <-> r = Throw e \/ exists a, r = Ok a /\ k a = Throw e.
Proof.
  destruct r as [a|e']; simpl; split.
  - intros H. right. exists a. auto.
  - intros [H|[a' [Ha Hk]]]; [discriminate|]. inversion Ha. subst. exact Hk.
  - intros H. left. congruence.
  - intros [H|[a' [Ha _]]]; [congruence|discriminate].
Qed.

Lemma defined_Ok {A} (o : option A) (a : A) : defined o = Ok a <-> o = Some a.
Proof. destruct o; simpl; split; congruence. Qed.

Lemma defined_Throw {A} (o : option A) (e : Error) :
  defined o = Throw e <-> o = None /\ e = TypeError.
Proof.
  destruct o; simpl; split; try congruence.
  - intros [H _]. discriminate.
  - intros H. inversion H. auto.
  - intros [_ ->]. reflexivity.
Qed.

Lemma mapR_Ok_length {A B} (f : A -> Result B) (l : list A) (bs : list B) :
  mapR f l = Ok bs -> length bs = length l.
Proof.
  revert bs. induction l as [|a l IH]; simpl; intros bs H.
  - inversion H. reflexivity.
  - apply bind_Ok in H. destruct H as [b [_ H]].
    apply bind_Ok in H. destruct H as [bs' [Hbs H]].
    inversion H. simpl. f_equal. apply IH. exact Hbs.
Qed.

(** [map] stops at the first element its callback throws on. *)
Lemma mapR_Throw {A B} (f : A -> Result B) (l : list A) (e : Error) :
  mapR f l = Throw e <->
  exists pre a post, l = pre ++ a :: post /\ f a = Throw e /\
                     Forall (fun x => exists b, f x = Ok b) pre.
Proof.
  induction l as [|a l IH]; simpl.
  - split; [discriminate|]. intros [pre [a [post [H _]]]].
    destruct pre; discriminate.
  - rewrite bind_Throw. split.
    + intros [H|[b [Hb H]]].
      * exists [], a, l. repeat split; auto.
      * apply bind_Throw in H. destruct H as [H|[bs [_ H]]]; [|discriminate].
        apply IH in H. destruct H as [pre [a' [post [-> [Ha' Hpre]]]]].
        exists (a :: pre), a', post. repeat split; auto.
        constructor; eauto.
    + intros [pre [a' [post [Hl [Ha' Hpre]]]]].
      destruct pre as [|p pre]; simpl in Hl; inversion Hl; subst.
      * left. exact Ha'.
      * right. inversion Hpre as [|? ? [b Hb] Hpre']. subst.
        exists b. split; [exact Hb|].
        apply bind_Throw. left. apply IH. exists pre, a', post. auto.
Qed.

(** ** The statistics parser *)

Section ParserFacts.

  Variable T : TreeNodes.

Definition field_count (line : string) : nat := length (JS.split ";" line).

Lemma parseLine_Throw (line : string) (e : Error) :
    parseLine T line = Throw e <->
    e = FormatError /\ field_count line <> 11%nat /\ field_count line <> 6%nat.
  Proof.
    unfold parseLine, field_count.
    destruct (Nat.eqb_spec (length (JS.split ";" line)) 11) as [H11|H11].
    - split; [discriminate|]. intros [_ [H _]]. contradiction.
    - destruct (Nat.eqb_spec (length (JS.split ";" line)) 6) as [H6|H6].
      + split; [discriminate|]. intros [_ [_ H]]. contradiction.
      + split.
        * intros H. inversion H. auto.
        * intros [-> _]. reflexivity.
  Qed.

Lemma parseLine_Ok_or_FormatError (line : string) :
    (exists o, parseLine T line = Ok o) \/ parseLine T line = Throw FormatError.
  Proof.
    unfold parseLine.
    destruct (length (JS.split ";" line) =? 11)%nat; [left; eauto|].
    destruct (length (JS.split ";" line) =? 6)%nat; [left; eauto|].
    right. reflexivity.
  Qed.

Lemma add_not_parse_error st latest node e :
    add T st latest node = Throw e -> e = TypeError \/ e = AddRefused.
  Proof.
    unfold add. intros H.
    apply bind_Throw in H. destruct H as [H|[l [_ H]]].
    { apply defined_Throw in H. tauto. }
    apply bind_Throw in H. destruct H as [H|[lo [_ H]]].
    { apply defined_Throw in H. tauto. }
    destruct (takes_child T lo); [discriminate|]. inversion H. auto.
  Qed.

Lemma depth_at_Throw st r e : depth_at st r = Throw e -> e = TypeError.
  Proof.
    unfold depth_at. intros H.
    apply bind_Throw in H. destruct H as [H|[i [_ H]]].
    { apply defined_Throw in H. tauto. }
    apply bind_Throw in H. destruct H as [H|[o [_ H]]]; [|discriminate].
    apply defined_Throw in H. tauto.
  Qed.

  (** A round of the loop throws "Malformed statistics content" exactly
      when the depth of the record is more than one above the depth of the
      top of the stack. *)
Lemma place_StructuralError st stack node :
    place T (st, stack) node = Throw StructuralError <->
    exists d dl, depth_at st (Some node) = Ok d /\
                 depth_at st (JS.last_item stack) = Ok dl /\ d > dl + 1.
  Proof.
    unfold place. split.
    - intros H.
      apply bind_Throw in H. destruct H as [H|[d [Hd H]]].
      { apply depth_at_Throw in H. discriminate. }
      apply bind_Throw in H. destruct H as [H|[dl [Hdl H]]].
      { apply depth_at_Throw in H. discriminate. }
      exists d, dl. repeat split; auto.
      destruct (Z.eqb_spec d (dl + 1)) as [E1|E1].
      { simpl in H. apply bind_Throw in H. destruct H as [H|[st' [_ H]]]; [|discriminate].
        apply add_not_parse_error in H. destruct H; discriminate. }
      destruct (Z.eqb_spec d dl) as [E2|E2].
      { simpl in H. apply bind_Throw in H. destruct H as [H|[st' [_ H]]]; [|discriminate].
        apply add_not_parse_error in H. destruct H; discriminate. }
      destruct (Z.ltb_spec d dl) as [E3|E3].
      { simpl in H. apply bind_Throw in H. destruct H as [H|[st' [_ H]]]; [|discriminate].
        apply add_not_parse_error in H. destruct H; discriminate. }
      lia.
    - intros [d [dl [Hd [Hdl Hgt]]]]. rewrite Hd, Hdl. simpl.
      destruct (Z.eqb_spec d (dl + 1)); [lia|].
      destruct (Z.eqb_spec d dl); [lia|].
      destruct (Z.ltb_spec d dl); [lia|].
      reflexivity.
  Qed.

Lemma place_not_FormatError s node : place T s node <> Throw FormatError.
  Proof.
    destruct s as [st stack]. unfold place. intros H.
    apply bind_Throw in H. destruct H as [H|[d [Hd H]]].
    { apply depth_at_Throw in H. discriminate. }
    apply bind_Throw in H. destruct H as [H|[dl [Hdl H]]].
    { apply depth_at_Throw in H. discriminate. }
    apply bind_Throw in H. destruct H as [H|[stk [_ H]]].
    { destruct (d =? dl + 1); [discriminate|].
      destruct (d =? dl); [discriminate|].
      destruct (d <? dl); discriminate. }
    apply bind_Throw in H. destruct H as [H|[st' [_ H]]]; [|discriminate].
    apply add_not_parse_error in H. destruct H; discriminate.
  Qed.

Lemma place_all_app s l1 l2 :
    place_all T s (l1 ++ l2) = let! s' := place_all T s l1 in place_all T s' l2.
  Proof.
    revert s. induction l1 as [|n l1 IH]; intros s; simpl; [reflexivity|].
    destruct (place T s n) as [s'|e]; simpl; [apply IH|reflexivity].
  Qed.

  (** The loop throws what one of its rounds throws, after the rounds
      before it went through. *)
Lemma place_all_Throw s l e :
    place_all T s l = Throw e <->
    exists pre node post s', l = pre ++ node :: post /\
      place_all T s pre = Ok s' /\ place T s' node = Throw e.
  Proof.
    revert s. induction l as [|n l IH]; intros s; simpl.
    - split; [discriminate|]. intros [pre [? [? [? [H _]]]]]. destruct pre; discriminate.
    - rewrite bind_Throw. split.
      + intros [H|[s1 [Hs1 H]]].
        * exists [], n, l, s. auto.
        * apply IH in H. destruct H as [pre [node [post [s' [-> [Hpre Hn]]]]]].
          exists (n :: pre), node, post, s'. simpl. rewrite Hs1. auto.
      + intros [pre [node [post [s' [Hl [Hpre Hn]]]]]].
        destruct pre as [|p pre]; simpl in Hl; inversion Hl; subst.
        * simpl in Hpre. inversion Hpre. subst. left. exact Hn.
        * simpl in Hpre. apply bind_Ok in Hpre. destruct Hpre as [s1 [Hs1 Hpre]].
          right. exists s1. split; [exact Hs1|]. apply IH. eauto 10.
  Qed.

End ParserFacts.

Section ParserErrors.

Variable T : TreeNodes.

Definition bad_field_count (line : string) : Prop :=
  field_count line <> 11%nat /\ field_count line <> 6%nat.

Lemma mapR_parseLine_Throw (l : list string) (e : Error) :
  mapR (parseLine T) l = Throw e <-> e = FormatError /\ Exists bad_field_count l.
Proof.
  induction l as [|a l IH]; simpl.
  - split; [discriminate|]. intros [_ H]. inversion H.
  - rewrite bind_Throw. split.
    + intros [H|[o [Ho H]]].
      * apply parseLine_Throw in H. destruct H as [-> H]. split; [reflexivity|].
        apply Exists_cons_hd. exact H.
      * apply bind_Throw in H. destruct H as [H|[bs [_ H]]]; [|discriminate].
        apply IH in H. destruct H as [-> H]. split; [reflexivity|].
        apply Exists_cons_tl. exact H.
    + intros [-> H].
      destruct (parseLine_Ok_or_FormatError T a) as [[o Ho]|Ho]; [|left; exact Ho].
      right. exists o. split; [exact Ho|].
      apply bind_Throw. left. apply IH. split; [reflexivity|].
      inversion H as [? ? Hbad|]; subst; [|assumption].
      exfalso. destruct Hbad as [H11 H6].
      assert (parseLine T a = Throw FormatError) by (apply parseLine_Throw; auto).
      congruence.
Qed.

(** C4. The parser throws "Unknown tree file format" (the spec's
    FormatError) exactly when some record has neither 11 nor 6 fields.
    It throws "Malformed statistics content" (the spec's StructuralError)
    exactly when every record has 11 or 6 fields and the loop, after the
    rounds for the records before it went through, comes to a record whose
    depth is more than one above the depth of the top of the stack. *)
Theorem parser_errors (text : string) :
  (parseStatisticsContent T text = Throw FormatError <->
   Exists bad_field_count (lines_of text))
  /\
  (parseStatisticsContent T text = Throw StructuralError <->
   exists nodes pre node post st stack d dl,
     mapR (parseLine T) (lines_of text) = Ok nodes /\
     seq 1 (length nodes - 1) = pre ++ node :: post /\
     place_all T (nodes, [0%nat]) pre = Ok (st, stack) /\
     depth_at st (Some node) = Ok d /\
     depth_at st (JS.last_item stack) = Ok dl /\
     d > dl + 1).
Proof.
  unfold parseStatisticsContent. split.
  - rewrite bind_Throw. split.
    + intros [H|[nodes [Hnodes H]]].
      * apply mapR_parseLine_Throw in H. tauto.
      * destruct nodes as [|n rest]; [discriminate|].
        apply bind_Throw in H. destruct H as [H|[[st stk] [_ H]]]; [|discriminate].
        apply place_all_Throw in H. destruct H as [pre [node [post [s' [_ [_ H]]]]]].
        exfalso. exact (place_not_FormatError T s' node H).
    + intros H. left. apply mapR_parseLine_Throw. auto.
  - rewrite bind_Throw. split.
    + intros [H|[nodes [Hnodes H]]].
      { apply mapR_parseLine_Throw in H. destruct H; discriminate. }
      destruct nodes as [|n rest]; [discriminate|].
      apply bind_Throw in H. destruct H as [H|[[st stk] [_ H]]]; [|discriminate].
      apply place_all_Throw in H.
      destruct H as [pre [node [post [[st stack] [Hseq [Hpre H]]]]]].
      apply place_StructuralError in H. destruct H as [d [dl [Hd [Hdl Hgt]]]].
      exists (n :: rest), pre, node, post, st, stack, d, dl.
      simpl. rewrite Nat.sub_0_r. auto 10.
    + intros [nodes [pre [node [post [st [stack [d [dl H]]]]]]]].
      destruct H as [Hnodes [Hseq [Hpre [Hd [Hdl Hgt]]]]].
      right. exists nodes. split; [exact Hnodes|].
      destruct nodes as [|n rest]; [destruct pre; discriminate|].
      simpl in Hseq. rewrite Nat.sub_0_r in Hseq.
      apply bind_Throw. left. apply place_all_Throw.
      exists pre, node, post, (st, stack). repeat split; auto.
      apply place_StructuralError. eauto.
Qed.

(** The depth sequence 0, 1, 3 of the spec's section 8, and a record of
    seven fields. *)
Example depths_0_1_3_rejected :
  parseStatisticsContent Model.accumulating
    (Model.text_of (map Model.internal [0; 1; 3]%nat)) = Throw StructuralError.
Proof. vm_compute. reflexivity. Qed.

Example seven_fields_rejected :
  parseStatisticsContent Model.accumulating
    (Model.text_of [Model.internal 0; "1;2;3;4;5;6;7"%string]) = Throw FormatError.
Proof. vm_compute. reflexivity. Qed.

End ParserErrors.

(** ** The reference reconstruction *)

Definition depths (st : Store) : list Z := map (fun o => depth (fields o)) st.

(** The last position below [i] at which [P] holds. *)
Fixpoint last_before (P : nat -> bool) (i : nat) : option nat :=
  match i with
  | O => None
  | S j => if P j then Some j else last_before P j
  end.

(** The tree a pre-order list of depths stands for: the parent of a record
    is the last record before it that is one level higher, and the children
    of a record are the records it is the parent of, in their order. *)
Definition ref_parent (ds : list Z) (i : nat) : option nat :=
  match ds !! i with
  | Some d => last_before (fun j => bool_decide (ds !! j = Some (d - 1))) i
  | None => None
  end.

Definition ref_children (ds : list Z) (j : nat) : list nat :=
  List.filter (fun i => bool_decide (ref_parent ds i = Some j)) (seq 0 (length ds)).

Lemma last_before_Some (P : nat -> bool) (i j : nat) :
  last_before P i = Some j <->
  (j < i)%nat /\ P j = true /\ forall k, (j < k < i)%nat -> P k = false.
Proof.
  induction i as [|i IH]; simpl.
  - split; [discriminate|]. intros [H _]. lia.
  - destruct (P i) eqn:HP.
    + split.
      * intros H. inversion H. subst. repeat split; auto. intros k Hk. lia.
      * intros [Hlt [HPj Hk]]. destruct (decide (j = i)) as [->|Hne]; [reflexivity|].
        assert (P i = false) by (apply Hk; lia). congruence.
    + rewrite IH. split.
      * intros [Hlt [HPj Hk]]. repeat split; auto.
        intros k Hk'. destruct (decide (k = i)) as [->|Hne]; [exact HP|apply Hk; lia].
      * intros [Hlt [HPj Hk]].
        assert (j <> i) by (intros ->; congruence).
        repeat split; auto; [lia|]. intros k Hk'. apply Hk. lia.
Qed.

Lemma filter_seq_S (f : nat -> bool) (k : nat) :
  List.filter f (seq 0 (S k)) = List.filter f (seq 0 k) ++ (if f k then [k] else []).
Proof.
  rewrite seq_S. rewrite List.filter_app. simpl. destruct (f k); reflexivity.
Qed.

Lemma last_item_Some {A} (l : list A) (a : A) :
  JS.last_item l = Some a -> l <> [] /\ l !! (length l - 1)%nat = Some a.
Proof.
  unfold JS.last_item. intros H. split; [|exact H].
  intros ->. discriminate.
Qed.

Lemma last_item_snoc {A} (l : list A) (a : A) : JS.last_item (l ++ [a]) = Some a.
Proof.
  unfold JS.last_item. rewrite length_app. simpl.
  replace (length l + 1 - 1)%nat with (length l) by lia.
  rewrite lookup_app_r by lia. rewrite Nat.sub_diag. reflexivity.
Qed.

Section Reconstruction.

Variable T : TreeNodes.

(** [s] is the last of the records up to [k] that has depth [j]. *)
Definition latest_at (ds : list Z) (k j s : nat) : Prop :=
  (s <= k)%nat /\ ds !! s = Some (Z.of_nat j) /\
  forall i, (s < i <= k)%nat -> ds !! i <> Some (Z.of_nat j).

(** What holds after the round for record [k]: the stack holds, level by
    level, the last record of each depth on the path to record [k]; the
    records up to [k] are linked as the reference has them, and the records
    after [k] are not linked yet. *)
Record linked_to (ds : list Z) (k : nat) (st : Store) (stack : list nat) : Prop := {
  linked_depths : depths st = ds;
  linked_stack : forall j s, stack !! j = Some s -> latest_at ds k j s;
  linked_nonempty : stack <> [];
  linked_parent : forall i o, st !! i = Some o ->
    parent_ref o = if decide (i <= k)%nat then ref_parent ds i else None;
  linked_children : forall j o, st !! j = Some o ->
    child_refs o =
    List.filter (fun i => bool_decide (ref_parent ds i = Some j)) (seq 0 (S k))
}.

Lemma depths_lookup (st : Store) (i : nat) (o : NodeObj) :
  st !! i = Some o -> depths st !! i = Some (depth (fields o)).
Proof. intros H. unfold depths. rewrite list_lookup_fmap, H. reflexivity. Qed.

Lemma depth_at_Ok (st : Store) (r : option nat) (d : Z) :
  depth_at st r = Ok d <-> exists i, r = Some i /\ depths st !! i = Some d.
Proof.
  unfold depth_at. split.
  - intros H. apply bind_Ok in H. destruct H as [i [Hi H]].
    apply bind_Ok in H. destruct H as [o [Ho H]].
    apply defined_Ok in Hi, Ho. inversion H. subst.
    exists i. split; [reflexivity|]. apply depths_lookup. exact Ho.
  - intros [i [-> H]]. unfold depths in H. rewrite list_lookup_fmap in H.
    simpl. destruct (st !! i) as [o|] eqn:E; simpl in *; [|discriminate].
    congruence.
Qed.

Lemma depths_add (st st' : Store) (latest : option nat) (node : nat) :
  add T st latest node = Ok st' -> depths st' = depths st.
Proof.
  unfold add. intros H.
  apply bind_Ok in H. destruct H as [l [Hl H]].
  apply bind_Ok in H. destruct H as [lo [Hlo H]].
  apply defined_Ok in Hlo.
  destruct (takes_child T lo); [|discriminate]. inversion H. subst. clear H.
  unfold depths. apply list_eq. intros i.
  rewrite !list_lookup_fmap.
  destruct (decide (i = node)) as [->|Hn].
  - rewrite list_lookup_alter_eq.
    destruct (decide (node = l)) as [->|Hl'].
    + rewrite list_lookup_insert_eq by (eapply lookup_lt_Some; eauto).
      rewrite Hlo. reflexivity.
    + rewrite list_lookup_insert_ne by congruence.
      destruct (st !! node); reflexivity.
  - rewrite list_lookup_alter_ne by congruence.
    destruct (decide (i = l)) as [->|Hl'].
    + rewrite list_lookup_insert_eq by (eapply lookup_lt_Some; eauto).
      rewrite Hlo. reflexivity.
    + rewrite list_lookup_insert_ne by congruence. reflexivity.
Qed.


(** The stack after the depth test of a round that does not throw: in each
    of the three branches it is the first [d] entries of the stack. *)
Lemma adjusted_stack (stack stack1 : list nat) (d dl : Z) :
  stack <> [] -> dl = Z.of_nat (length stack - 1) -> 0 <= d ->
  (if d =? dl + 1 then Ok stack
   else if d =? dl then Ok (JS.pop stack)
   else if d <? dl then Ok (JS.slice0 stack d)
   else Throw StructuralError) = Ok stack1 ->
  stack1 = take (Z.to_nat d) stack /\ (Z.to_nat d <= length stack)%nat.
Proof.
  intros Hne Hdl Hd H.
  assert (Hlen : (0 < length stack)%nat) by (destruct stack; simpl; [congruence|lia]).
  destruct (Z.eqb_spec d (dl + 1)) as [E1|E1].
  { inversion H. subst stack1. split; [|lia]. symmetry. apply take_ge. lia. }
  destruct (Z.eqb_spec d dl) as [E2|E2].
  { inversion H. subst stack1. unfold JS.pop. split; [|lia]. f_equal. lia. }
  destruct (Z.ltb_spec d dl) as [E3|E3]; [|discriminate].
  inversion H. subst stack1. unfold JS.slice0.
  destruct (Z.ltb_spec d 0) as [E4|E4]; [lia|].
  rewrite Z.min_l by lia. split; [reflexivity|lia].
Qed.

Lemma place_linked (ds : list Z) (k : nat) (st st' : Store) (stack stack' : list nat) :
  linked_to ds k st stack ->
  Forall (fun d => 0 <= d) ds ->
  place T (st, stack) (S k) = Ok (st', stack') ->
  linked_to ds (S k) st' stack'.
Proof.
  intros [Hds Hstack Hne Hpar Hch] Hnn H. unfold place in H.
  apply bind_Ok in H. destruct H as [d [Hd H]].
  apply bind_Ok in H. destruct H as [dl [Hdl H]].
  apply bind_Ok in H. destruct H as [stack1 [Hstack1 H]].
  apply bind_Ok in H. destruct H as [st1 [Hadd H]].
  inversion H; subst st1 stack'. clear H.
  apply depth_at_Ok in Hd. destruct Hd as [c [Hc Hd]].
  inversion Hc; subst c. clear Hc. rewrite Hds in Hd.
  apply depth_at_Ok in Hdl. destruct Hdl as [top [Htop Hdl]]. rewrite Hds in Hdl.
  apply last_item_Some in Htop. destruct Htop as [_ Htop].
  destruct (Hstack _ _ Htop) as [_ [Htd _]].
  assert (Hdl' : dl = Z.of_nat (length stack - 1)) by congruence.
  assert (Hd0 : 0 <= d).
  { rewrite Forall_forall in Hnn. apply Hnn.
    eapply list_elem_of_lookup_2. exact Hd. }
  destruct (adjusted_stack _ _ _ _ Hne Hdl' Hd0 Hstack1) as [-> HD].
  set (D := Z.to_nat d) in *.
  assert (HlenD : length (take D stack) = D) by (apply length_take_le; exact HD).
  pose proof (depths_add _ _ _ _ Hadd) as Hds'.
  unfold add in Hadd.
  apply bind_Ok in Hadd. destruct Hadd as [p [Hp Hadd]].
  apply bind_Ok in Hadd. destruct Hadd as [lo [Hlo Hadd]].
  apply defined_Ok in Hp, Hlo.
  destruct (takes_child T lo); [|discriminate].
  inversion Hadd. subst st'. clear Hadd.
  apply last_item_Some in Hp. destruct Hp as [HneD Hp]. rewrite HlenD in Hp.
  assert (HD1 : (1 <= D)%nat).
  { destruct D; [|lia]. rewrite take_0 in HneD. congruence. }
  rewrite lookup_take_lt in Hp by lia.
  destruct (Hstack _ _ Hp) as [Hpk [Hpd Hpl]].
  assert (HdD : d = Z.of_nat D) by (unfold D; lia).
  assert (Hpd' : ds !! p = Some (d - 1)).
  { rewrite Hpd. f_equal. lia. }
  assert (Hpne : p <> S k) by lia.
  assert (Hplt : (p < length st)%nat) by (eapply lookup_lt_Some; eauto).
  assert (Href : ref_parent ds (S k) = Some p).
  { unfold ref_parent. rewrite Hd. apply last_before_Some.
    split; [lia|]. split.
    - apply bool_decide_eq_true. exact Hpd'.
    - intros i Hi. apply bool_decide_eq_false. intros Hdi.
      apply (Hpl i); [lia|]. rewrite Hdi. f_equal. lia. }
  constructor.
  - congruence.
  - intros j s Hj. apply lookup_app_Some in Hj. destruct Hj as [Hj|[Hj1 Hj2]].
    + assert (j < D)%nat.
      { apply lookup_lt_Some in Hj. lia. }
      rewrite lookup_take_lt in Hj by lia.
      destruct (Hstack _ _ Hj) as [Hsk [Hsd Hsl]].
      split; [lia|]. split; [exact Hsd|].
      intros i Hi. destruct (decide (i = S k)) as [->|Hik].
      * rewrite Hd. intros E. inversion E. lia.
      * apply Hsl. lia.
    + rewrite HlenD in Hj1, Hj2.
      assert (j = D) as -> .
      { apply lookup_lt_Some in Hj2. simpl in Hj2. lia. }
      rewrite Nat.sub_diag in Hj2. inversion Hj2. subst s.
      split; [lia|]. split; [congruence|]. intros i Hi. lia.
  - destruct (take D stack); discriminate.
  - intros i o Hi. destruct (decide (i = S k)) as [->|Hik].
    + rewrite list_lookup_alter_eq in Hi.
      rewrite list_lookup_insert_ne in Hi by exact Hpne.
      destruct (st !! S k) as [o0|]; simpl in Hi; [|discriminate].
      inversion Hi. subst o. simpl.
      destruct (decide (S k <= S k)%nat); [congruence|lia].
    + rewrite list_lookup_alter_ne in Hi by congruence.
      destruct (decide (i = p)) as [->|Hip].
      * rewrite list_lookup_insert_eq in Hi by exact Hplt.
        inversion Hi. subst o. simpl. rewrite (Hpar _ _ Hlo).
        destruct (decide (p <= k)%nat), (decide (p <= S k)%nat); try lia; reflexivity.
      * rewrite list_lookup_insert_ne in Hi by congruence.
        rewrite (Hpar _ _ Hi).
        destruct (decide (i <= k)%nat), (decide (i <= S k)%nat); try lia; reflexivity.
  - intros j o Hj. rewrite filter_seq_S. rewrite Href.
    destruct (decide (j = S k)) as [->|Hjk].
    + rewrite list_lookup_alter_eq in Hj.
      rewrite list_lookup_insert_ne in Hj by exact Hpne.
      destruct (st !! S k) as [o0|] eqn:Ho0; simpl in Hj; [|discriminate].
      inversion Hj. subst o. simpl. rewrite (Hch _ _ Ho0).
      rewrite (bool_decide_eq_false_2 (Some p = Some (S k)))
        by (intros E; inversion E; lia).
      rewrite app_nil_r. reflexivity.
    + rewrite list_lookup_alter_ne in Hj by congruence.
      destruct (decide (j = p)) as [->|Hjp].
      * rewrite list_lookup_insert_eq in Hj by exact Hplt.
        inversion Hj. subst o. simpl. rewrite (Hch _ _ Hlo).
        rewrite (bool_decide_eq_true_2 (Some p = Some p)) by reflexivity.
        reflexivity.
      * rewrite list_lookup_insert_ne in Hj by congruence.
        rewrite (Hch _ _ Hj).
        rewrite (bool_decide_eq_false_2 (Some p = Some j))
          by (intros E; inversion E; lia).
        rewrite app_nil_r. reflexivity.
Qed.

Lemma place_all_linked (ds : list Z) (r k : nat) (st st' : Store) (stack stack' : list nat) :
  linked_to ds k st stack ->
  Forall (fun d => 0 <= d) ds ->
  place_all T (st, stack) (seq (S k) r) = Ok (st', stack') ->
  linked_to ds (k + r) st' stack'.
Proof.
  revert k st stack. induction r as [|r IH]; intros k st stack Hinv Hnn H; simpl in H.
  - inversion H. subst. rewrite Nat.add_0_r. exact Hinv.
  - apply bind_Ok in H. destruct H as [[st1 stack1] [H1 H]].
    replace (k + S r)%nat with (S k + r)%nat by lia.
    eapply IH; [|exact Hnn|exact H].
    eapply place_linked; eauto.
Qed.


(** [add] links objects and leaves their class and their data alone. *)
Lemma add_same_records (st st' : Store) (latest : option nat) (node : nat) :
  add T st latest node = Ok st' ->
  map cls st' = map cls st /\ map fields st' = map fields st.
Proof.
  unfold add. intros H.
  apply bind_Ok in H. destruct H as [l [Hl H]].
  apply bind_Ok in H. destruct H as [lo [Hlo H]].
  apply defined_Ok in Hlo.
  destruct (takes_child T lo); [|discriminate]. inversion H. subst. clear H.
  assert (Hlt : (l < length st)%nat) by (eapply lookup_lt_Some; eauto).
  split; apply list_eq; intros i; rewrite !list_lookup_fmap;
    (destruct (decide (i = node)) as [->|Hn];
     [ rewrite list_lookup_alter_eq;
       destruct (decide (node = l)) as [->|Hl'];
       [ rewrite list_lookup_insert_eq by exact Hlt; rewrite Hlo; reflexivity
       | rewrite list_lookup_insert_ne by congruence;
         destruct (st !! node); reflexivity ]
     | rewrite list_lookup_alter_ne by congruence;
       destruct (decide (i = l)) as [->|Hl'];
       [ rewrite list_lookup_insert_eq by exact Hlt; rewrite Hlo; reflexivity
       | rewrite list_lookup_insert_ne by congruence; reflexivity ] ]).
Qed.

(** A round that goes through, spelled out: the stack is kept, popped or
    cut to the depth of the record; the record becomes the last child of the
    top of that stack, which becomes its parent; the record is pushed. *)
Lemma place_rule (st st' : Store) (stack stack' : list nat) (node : nat) :
  place T (st, stack) node = Ok (st', stack') ->
  exists d dl stack1 latest lo,
    depth_at st (Some node) = Ok d /\
    depth_at st (JS.last_item stack) = Ok dl /\
    (d = dl + 1 /\ stack1 = stack \/
     d = dl /\ stack1 = JS.pop stack \/
     d < dl /\ stack1 = JS.slice0 stack d) /\
    JS.last_item stack1 = Some latest /\
    st !! latest = Some lo /\
    takes_child T lo = true /\
    st' = alter (set_parent latest) node (<[latest := push_child node lo]> st) /\
    stack' = stack1 ++ [node].
Proof.
  unfold place. intros H.
  apply bind_Ok in H. destruct H as [d [Hd H]].
  apply bind_Ok in H. destruct H as [dl [Hdl H]].
  apply bind_Ok in H. destruct H as [stack1 [Hstack1 H]].
  apply bind_Ok in H. destruct H as [st1 [Hadd H]].
  inversion H; subst st1 stack'. clear H.
  unfold add in Hadd.
  apply bind_Ok in Hadd. destruct Hadd as [p [Hp Hadd]].
  apply bind_Ok in Hadd. destruct Hadd as [lo [Hlo Hadd]].
  apply defined_Ok in Hp, Hlo.
  destruct (takes_child T lo) eqn:Htakes; [|discriminate]. inversion Hadd. subst st'.
  exists d, dl, stack1, p, lo. repeat split; auto.
  destruct (Z.eqb_spec d (dl + 1)); [inversion Hstack1; auto|].
  destruct (Z.eqb_spec d dl); [inversion Hstack1; auto|].
  destruct (Z.ltb_spec d dl); [inversion Hstack1; auto|discriminate].
Qed.

Lemma place_all_same_records (l : list nat) (st st' : Store) (stack stack' : list nat) :
  place_all T (st, stack) l = Ok (st', stack') ->
  map cls st' = map cls st /\ map fields st' = map fields st.
Proof.
  revert st stack. induction l as [|n l IH]; intros st stack H; simpl in H.
  - inversion H. auto.
  - apply bind_Ok in H. destruct H as [[st1 stack1] [H1 H]].
    destruct (IH _ _ H) as [Hc Hf]. rewrite Hc, Hf.
    unfold place in H1.
    apply bind_Ok in H1. destruct H1 as [d [_ H1]].
    apply bind_Ok in H1. destruct H1 as [dl [_ H1]].
    apply bind_Ok in H1. destruct H1 as [stk [_ H1]].
    apply bind_Ok in H1. destruct H1 as [st2 [Hadd H1]].
    inversion H1. subst. eapply add_same_records. exact Hadd.
Qed.

Lemma linked_to_start (nodes : Store) :
  depths nodes !! 0%nat = Some 0 ->
  Forall (fun o => child_refs o = [] /\ parent_ref o = None) nodes ->
  linked_to (depths nodes) 0 nodes [0%nat].
Proof.
  intros H0 Hfresh. rewrite Forall_forall in Hfresh.
  assert (Href0 : ref_parent (depths nodes) 0 = None).
  { unfold ref_parent. rewrite H0. reflexivity. }
  constructor.
  - reflexivity.
  - intros j s Hj. destruct j as [|j]; simpl in Hj; [|discriminate].
    inversion Hj. subst s. split; [lia|]. split; [exact H0|]. intros i Hi. lia.
  - discriminate.
  - intros i o Hi. destruct (Hfresh o) as [_ ->].
    { eapply list_elem_of_lookup_2. exact Hi. }
    destruct (decide (i <= 0)%nat) as [Hle|]; [|reflexivity].
    assert (i = 0%nat) as -> by lia. symmetry. exact Href0.
  - intros j o Hj. destruct (Hfresh o) as [-> _].
    { eapply list_elem_of_lookup_2. exact Hj. }
    simpl. rewrite Href0. reflexivity.
Qed.

Lemma mapR_parseLine_fresh (l : list string) (nodes : Store) :
  mapR (parseLine T) l = Ok nodes ->
  Forall (fun o => child_refs o = [] /\ parent_ref o = None) nodes.
Proof.
  revert nodes. induction l as [|a l IH]; intros nodes H; simpl in H.
  - inversion H. constructor.
  - apply bind_Ok in H. destruct H as [o [Ho H]].
    apply bind_Ok in H. destruct H as [os [Hos H]].
    inversion H. subst. constructor; [|apply IH; exact Hos].
    unfold parseLine in Ho.
    destruct (length (JS.split ";" a) =? 11)%nat; [inversion Ho; auto|].
    destruct (length (JS.split ";" a) =? 6)%nat; [inversion Ho; auto|discriminate].
Qed.

(** The links at the end of the loop are the links of the reference. *)
Lemma linked_reference (ds : list Z) (k : nat) (st : Store) (stack : list nat) :
  linked_to ds k st stack -> length st = S k ->
  forall i o, st !! i = Some o ->
    parent_ref o = ref_parent ds i /\ child_refs o = ref_children ds i.
Proof.
  intros [Hds _ _ Hpar Hch] Hlen i o Hi. split.
  - rewrite (Hpar _ _ Hi).
    destruct (decide (i <= k)%nat) as [|Hgt]; [reflexivity|].
    apply lookup_lt_Some in Hi. lia.
  - rewrite (Hch _ _ Hi). unfold ref_children. rewrite <- Hds.
    unfold depths. rewrite length_map, Hlen. reflexivity.
Qed.

(** The state of the parser when it returns. *)
Lemma parse_linked (text : string) (p : Parsed) :
  parseStatisticsContent T text = Ok p ->
  depths (store p) !! 0%nat = Some 0 ->
  Forall (fun d => 0 <= d) (depths (store p)) ->
  exists nodes stack k,
    mapR (parseLine T) (lines_of text) = Ok nodes /\
    map cls (store p) = map cls nodes /\
    map fields (store p) = map fields nodes /\
    baseNode p = Some 0%nat /\
    length (store p) = S k /\
    linked_to (depths (store p)) k (store p) stack.
Proof.
  unfold parseStatisticsContent. intros H H0 Hnn.
  apply bind_Ok in H. destruct H as [nodes [Hnodes H]].
  exists nodes.
  destruct nodes as [|n rest]; [inversion H; subst; simpl in H0; discriminate|].
  apply bind_Ok in H. destruct H as [[st stack] [Hloop H]].
  inversion H. subst p. clear H. simpl in *.
  destruct (place_all_same_records _ _ _ _ _ Hloop) as [Hc Hf].
  assert (Hds : depths st = depths (n :: rest)).
  { unfold depths. rewrite <- !(map_map fields depth). rewrite Hf. reflexivity. }
  rewrite Hds in H0, Hnn.
  assert (Hlinked : linked_to (depths (n :: rest)) (0 + length rest) st stack).
  { eapply place_all_linked; [|exact Hnn|exact Hloop].
    apply linked_to_start; [exact H0|].
    eapply mapR_parseLine_fresh. exact Hnodes. }
  exists stack, (length rest).
  split; [exact Hnodes|]. split; [exact Hc|]. split; [exact Hf|].
  split; [reflexivity|]. split.
  - rewrite <- (length_map cls st), Hc, length_map. reflexivity.
  - rewrite Hds. exact Hlinked.
Qed.

(** C1, as amended. For a text the parser accepts, whose first record has
    depth 0 and none of whose records has a negative depth, the objects
    returned are the records of the text in order, and they are linked as
    the pre-order reference reconstruction links them: the parent of a
    record is the last record before it that is one level higher, and its
    children are the records it is the parent of, in the order of the
    text. *)
Theorem parser_reconstructs (text : string) (p : Parsed) :
  parseStatisticsContent T text = Ok p ->
  depths (store p) !! 0%nat = Some 0 ->
  Forall (fun d => 0 <= d) (depths (store p)) ->
  exists nodes,
    mapR (parseLine T) (lines_of text) = Ok nodes /\
    map cls (store p) = map cls nodes /\
    map fields (store p) = map fields nodes /\
    baseNode p = Some 0%nat /\
    forall i o, store p !! i = Some o ->
      parent_ref o = ref_parent (depths (store p)) i /\
      child_refs o = ref_children (depths (store p)) i.
Proof.
  intros H H0 Hnn.
  destruct (parse_linked text p H H0 Hnn)
    as [nodes [stack [k [Hnodes [Hc [Hf [Hb [Hlen Hlinked]]]]]]]].
  exists nodes. split; [exact Hnodes|]. split; [exact Hc|]. split; [exact Hf|].
  split; [exact Hb|].
  apply (linked_reference _ _ _ _ Hlinked Hlen).
Qed.

End Reconstruction.

(** The record of depth 4 after the records of depths 3, 4 and 5: the stack
    holds three entries, cutting it to four entries removes none, and the
    record is attached below the record of depth 5, where the reference
    reconstruction has it below the record of depth 3. *)
Lemma parser_first_depth_3 :
  exists p,
    parseStatisticsContent Model.accumulating
      (Model.text_of (map Model.internal [3; 4; 5; 4]%nat)) = Ok p /\
    depths (store p) = [3; 4; 5; 4] /\
    JS.slice0 [0; 1; 2]%nat 4 = [0; 1; 2]%nat /\
    parent_ref <$> store p !! 3%nat = Some (Some 2%nat) /\
    ref_parent (depths (store p)) 3 = Some 0%nat.
Proof. eexists. vm_compute. repeat split; reflexivity. Qed.

(** The same holds of a record of negative depth after a first record of
    depth 0: [slice (0, -1)] drops the top of the stack only. *)
Example parser_negative_depth :
  exists p,
    parseStatisticsContent Model.accumulating
      (Model.text_of [Model.internal 0; Model.internal 1; Model.internal 2;
                      "-1;100;0.5;0;0;0;0;0;0;0;0"%string]) = Ok p /\
    depths (store p) = [0; 1; 2; -1] /\
    parent_ref <$> store p !! 3%nat = Some (Some 1%nat) /\
    ref_parent (depths (store p)) 3 = None.
Proof. eexists. vm_compute. repeat split; reflexivity. Qed.

(** The depth sequence of the spec's section 8. *)
Example parser_reference_tree :
  exists p,
    parseStatisticsContent Model.accumulating
      (Model.text_of (map Model.internal [0; 1; 2; 2; 1; 2; 3; 3]%nat)) = Ok p /\
    map parent_ref (store p) =
      [None; Some 0; Some 1; Some 1; Some 0; Some 4; Some 5; Some 5]%nat /\
    map child_refs (store p) =
      [[1; 4]; [2; 3]; []; []; [5]; [6; 7]; []; []]%nat.
Proof. eexists. vm_compute. repeat split; reflexivity. Qed.

Lemma parser_reconstructs_witness :
  exists p,
    parseStatisticsContent Model.binary
      (Model.text_of [Model.internal 0; Model.leaf 1; Model.leaf 1]) = Ok p /\
    forall i o, store p !! i = Some o ->
      parent_ref o = ref_parent (depths (store p)) i /\
      child_refs o = ref_children (depths (store p)) i.
Proof.
  eexists. split; [vm_compute; reflexivity|].
  match goal with
  | |- forall i o, store ?p !! i = Some o -> _ =>
      destruct (parser_reconstructs Model.binary
                  (Model.text_of [Model.internal 0; Model.leaf 1; Model.leaf 1]) p)
        as [nodes [_ [_ [_ [_ H]]]]]
  end.
  - vm_compute. reflexivity.
  - vm_compute. reflexivity.
  - vm_compute. repeat constructor; discriminate.
  - exact H.
Defined.

(** ** Arity *)

(** The arity of the spec's data model: at most two children on an internal
    node, none on a leaf. *)
Definition arity_ok (o : NodeObj) : Prop :=
  match cls o with
  | InternalNode => (length (child_refs o) <= 2)%nat
  | LeafNode => child_refs o = []
  end.

(** [add] keeps the arity: it takes a child only on an internal node with
    fewer than two children. *)
Definition add_keeps_arity (T : TreeNodes) : Prop :=
  forall o, takes_child T o = true ->
            cls o = InternalNode /\ (length (child_refs o) < 2)%nat.

Section Arity.

Variable T : TreeNodes.
Hypothesis Hadd : add_keeps_arity T.

Lemma place_arity (st st' : Store) (stack stack' : list nat) (node : nat) :
  Forall arity_ok st ->
  place T (st, stack) node = Ok (st', stack') ->
  Forall arity_ok st'.
Proof.
  intros Hst H. apply place_rule in H.
  destruct H as [d [dl [stack1 [latest [lo H]]]]].
  destruct H as [_ [_ [_ [_ [Hlo [Htakes [-> _]]]]]]].
  destruct (Hadd lo Htakes) as [Hcls Hlen].
  rewrite Forall_lookup in Hst. apply Forall_lookup. intros i o Hi.
  assert (Hlt : (latest < length st)%nat) by (eapply lookup_lt_Some; eauto).
  assert (Hpush : arity_ok (push_child node lo)).
  { unfold arity_ok. simpl. rewrite Hcls. rewrite length_app. simpl. lia. }
  destruct (decide (i = node)) as [->|Hn].
  - rewrite list_lookup_alter_eq in Hi.
    destruct (decide (node = latest)) as [->|Hl].
    + rewrite list_lookup_insert_eq in Hi by exact Hlt.
      inversion Hi. subst o. exact Hpush.
    + rewrite list_lookup_insert_ne in Hi by congruence.
      destruct (st !! node) as [o0|] eqn:Ho0; simpl in Hi; [|discriminate].
      inversion Hi. subst o. apply (Hst _ _ Ho0).
  - rewrite list_lookup_alter_ne in Hi by congruence.
    destruct (decide (i = latest)) as [->|Hl].
    + rewrite list_lookup_insert_eq in Hi by exact Hlt.
      inversion Hi. subst o. exact Hpush.
    + rewrite list_lookup_insert_ne in Hi by congruence.
      apply (Hst _ _ Hi).
Qed.

Lemma place_all_arity (l : list nat) (st st' : Store) (stack stack' : list nat) :
  Forall arity_ok st ->
  place_all T (st, stack) l = Ok (st', stack') ->
  Forall arity_ok st'.
Proof.
  revert st stack. induction l as [|n l IH]; intros st stack Hst H; simpl in H.
  - inversion H. subst. exact Hst.
  - apply bind_Ok in H. destruct H as [[st1 stack1] [H1 H]].
    eapply IH; [|exact H]. eapply place_arity; eauto.
Qed.

(** C8. When the node model's [add] keeps the arity, every object of the
    tree the parser returns for a text it accepts has it: an internal node
    has at most two children, a leaf has none. *)
Theorem parser_arity (text : string) (p : Parsed) :
  parseStatisticsContent T text = Ok p ->
  Forall arity_ok (store p).
Proof.
  unfold parseStatisticsContent. intros H.
  apply bind_Ok in H. destruct H as [nodes [Hnodes H]].
  assert (Hfresh : Forall arity_ok nodes).
  { eapply Forall_impl; [eapply mapR_parseLine_fresh; exact Hnodes|].
    intros o [Hc _]. unfold arity_ok. rewrite Hc. destruct (cls o); simpl; auto. }
  destruct nodes as [|n rest]; [inversion H; constructor|].
  apply bind_Ok in H. destruct H as [[st stack] [Hloop H]].
  inversion H. subst p. simpl.
  eapply place_all_arity; [exact Hfresh|exact Hloop].
Qed.

End Arity.

Lemma binary_keeps_arity : add_keeps_arity Model.binary.
Proof.
  intros o H. simpl in H. unfold Model.takes_two in H.
  destruct (cls o); [|discriminate]. split; [reflexivity|].
  apply Nat.ltb_lt. exact H.
Qed.

Lemma parser_arity_witness :
  add_keeps_arity Model.binary /\
  exists p,
    parseStatisticsContent Model.binary
      (Model.text_of [Model.internal 0; Model.leaf 1; Model.leaf 1]) = Ok p /\
    Forall arity_ok (store p).
Proof.
  split; [exact binary_keeps_arity|].
  eexists. split; [vm_compute; reflexivity|].
  apply (parser_arity Model.binary binary_keeps_arity
           (Model.text_of [Model.internal 0; Model.leaf 1; Model.leaf 1])).
  vm_compute. reflexivity.
Defined.

(** A third record at the same depth: an [add] that keeps the arity refuses
    it, and the text is not accepted; the loop of the parser itself checks
    nothing, and with an [add] that takes every child the node has three
    children. *)
Example three_siblings_refused :
  parseStatisticsContent Model.binary
    (Model.text_of (map Model.internal [0; 1; 1; 1]%nat)) = Throw AddRefused.
Proof. vm_compute. reflexivity. Qed.

Example three_siblings_accumulated :
  exists p,
    parseStatisticsContent Model.accumulating
      (Model.text_of (map Model.internal [0; 1; 1; 1]%nat)) = Ok p /\
    child_refs <$> store p !! 0%nat = Some [1; 2; 3]%nat.
Proof. eexists. vm_compute. split; reflexivity. Qed.

(** ** The forest assembler *)

(** The trees of a forest from the parsed texts: the tree at position [j]
    gets the out-of-bag error at position [index + j], if there is one. *)
Fixpoint number_trees (treeOobErrors : list float) (index : nat) (ps : list Parsed)
  : list Tree :=
  match ps with
  | [] => []
  | p :: ps' => mkTree (treeOobErrors !! index) p :: number_trees treeOobErrors (S index) ps'
  end.

Section AssemblerFacts.

Variable T : TreeNodes.
Variable Number_parseFloat : string -> float.

Lemma parse_trees_mapR (oob : list float) (index : nat) (contents : list string) :
  parse_trees T oob index contents =
  let! ps := mapR (parseStatisticsContent T) contents in Ok (number_trees oob index ps).
Proof.
  revert index. induction contents as [|c contents IH]; intros index; simpl.
  - reflexivity.
  - destruct (parseStatisticsContent T c) as [p|e]; simpl; [|reflexivity].
    rewrite IH. destruct (mapR (parseStatisticsContent T) contents); reflexivity.
Qed.

Lemma number_trees_lookup (oob : list float) (index j : nat) (ps : list Parsed) (t : Tree) :
  number_trees oob index ps !! j = Some t ->
  ps !! j = Some (tree t) /\ oobError t = oob !! (index + j)%nat.
Proof.
  revert index j. induction ps as [|p ps IH]; intros index j H; simpl in H.
  - discriminate.
  - destruct j as [|j]; simpl in H.
    + inversion H. subst t. simpl. rewrite Nat.add_0_r. auto.
    + apply IH in H. replace (index + S j)%nat with (S index + j)%nat by lia. exact H.
Qed.

Lemma number_trees_length (oob : list float) (index : nat) (ps : list Parsed) :
  length (number_trees oob index ps) = length ps.
Proof. revert index. induction ps; intros; simpl; auto. Qed.

(** The blocks of the forest text, and the out-of-bag errors read from the
    second block. *)
Definition forest_parts (rawData : RawData) : list string :=
  JS.split (LF ++ LF) (forestFileContent rawData).

Definition oob_errors (part1 : string) : list float :=
  map Number_parseFloat (JS.split LF part1).

(** C3, as amended. [createForest] checks neither the numeric tokens nor
    the number of out-of-bag errors. It returns a forest exactly when the
    forest text has a second block, every tree text is accepted by the
    parser, and there is a first tree with a base node; whatever
    [Number.parseFloat] makes of the tokens. It throws what the parser
    throws on a tree text, or a [TypeError]; with no tree text it throws a
    [TypeError]. When it returns a forest, [totalSamples] is the [samples]
    of the base node of the first tree, and the tree at position [j] has
    the out-of-bag error at position [j], [undefined] when the list is
    shorter. *)
Theorem createForest_checks (rawData : RawData) :
  ((exists f, createForest T Number_parseFloat rawData = Ok f) <->
   is_Some (forest_parts rawData !! 1%nat) /\
   exists p0 ps b bo,
     mapR (parseStatisticsContent T) (treeFileContents rawData) = Ok (p0 :: ps) /\
     baseNode p0 = Some b /\ store p0 !! b = Some bo)
  /\
  (forall e, createForest T Number_parseFloat rawData = Throw e ->
     e = TypeError \/
     exists text, In text (treeFileContents rawData) /\
                  parseStatisticsContent T text = Throw e)
  /\
  (treeFileContents rawData = [] ->
   createForest T Number_parseFloat rawData = Throw TypeError)
  /\
  (forall f, createForest T Number_parseFloat rawData = Ok f ->
     length (trees f) = length (treeFileContents rawData) /\
     (exists t0 b bo,
        trees f !! 0%nat = Some t0 /\ baseNode (tree t0) = Some b /\
        store (tree t0) !! b = Some bo /\ totalSamples f = samples (fields bo)) /\
     (exists part1,
        forest_parts rawData !! 1%nat = Some part1 /\
        forall j t, trees f !! j = Some t -> oobError t = oob_errors part1 !! j)).
Proof.
  unfold createForest, forest_parts, oob_errors.
  set (parts := JS.split (LF ++ LF) (forestFileContent rawData)).
  assert (Hp0 : exists part0, parts !! 0%nat = Some part0).
  { unfold parts, JS.split. destruct (JS.split_aux _ _ _). simpl. eauto. }
  destruct Hp0 as [part0 Hp0]. rewrite Hp0. simpl.
  destruct (parts !! 1%nat) as [part1|] eqn:Hp1; simpl.
  2:{ split; [|split; [|split]].
      - split; [intros [f H]; discriminate|]. intros [[x Hx] _]. discriminate.
      - intros e H. inversion H. auto.
      - reflexivity.
      - intros f H. discriminate. }
  rewrite parse_trees_mapR.
  destruct (mapR (parseStatisticsContent T) (treeFileContents rawData))
    as [ps|e0] eqn:Hps; simpl.
  2:{ split; [|split; [|split]].
      - split; [intros [f H]; discriminate|].
        intros [_ [p0 [ps [b [bo [H _]]]]]]. discriminate.
      - intros e H. inversion H. subst e0. right.
        apply mapR_Throw in Hps. destruct Hps as [pre [a [post [Hl [Ha _]]]]].
        exists a. split; [|exact Ha]. rewrite Hl. apply in_or_app. right. left. reflexivity.
      - intros Hnil. rewrite Hnil in Hps. discriminate.
      - intros f H. discriminate. }
  pose proof (mapR_Ok_length _ _ _ Hps) as Hlen.
  destruct ps as [|p0 ps]; simpl.
  { split; [|split; [|split]].
    - split; [intros [f H]; discriminate|].
      intros [_ [p0 [ps [b [bo [H _]]]]]]. discriminate.
    - intros e H. inversion H. auto.
    - reflexivity.
    - intros f H. discriminate. }
  destruct (baseNode p0) as [b|] eqn:Hb; simpl.
  2:{ split; [|split; [|split]].
      - split; [intros [f H]; discriminate|].
        intros [_ [p0' [ps' [b [bo [H [H1 _]]]]]]]. inversion H. subst. congruence.
      - intros e H. inversion H. auto.
      - intros Hnil. rewrite Hnil in Hlen. discriminate.
      - intros f H. discriminate. }
  destruct (store p0 !! b) as [bo|] eqn:Hbo; simpl.
  2:{ split; [|split; [|split]].
      - split; [intros [f H]; discriminate|].
        intros [_ [p0' [ps' [b' [bo [H [H1 H2]]]]]]]. inversion H. subst. congruence.
      - intros e H. inversion H. auto.
      - intros Hnil. rewrite Hnil in Hlen. discriminate.
      - intros f H. discriminate. }
  split; [|split; [|split]].
  - split; [|eauto].
    intros _. split; [eauto|]. exists p0, ps, b, bo. auto.
  - intros e H. discriminate.
  - intros Hnil. rewrite Hnil in Hlen. discriminate.
  - intros f H. inversion H. subst f. clear H. simpl. split; [|split].
    + rewrite number_trees_length. simpl in Hlen. lia.
    + eexists _, b, bo. simpl. repeat split; auto.
    + exists part1. split; [reflexivity|]. intros j t Hj.
      destruct j as [|j]; simpl in Hj.
      * inversion Hj. reflexivity.
      * apply number_trees_lookup in Hj. simpl in Hj. tauto.
Qed.

End AssemblerFacts.

(** A forest text whose second block holds a token that is no number and
    two out-of-bag errors, for one tree: whatever the constructors and
    [Number.parseFloat] do, [createForest] throws nothing. *)
Definition unchecked_forest : RawData :=
  mkRawData ("[1]" ++ LF ++ LF ++ "abc" ++ LF ++ "0.25" ++ LF ++ LF ++ "0.5")
            [Model.text_of [Model.internal 0]].

Lemma createForest_unchecked :
  ~ (exists T Number_parseFloat e,
       createForest T Number_parseFloat unchecked_forest = Throw e).
Proof.
  intros [T [pf [e H]]]. vm_compute in H. discriminate.
Qed.

Example createForest_unchecked_value :
  exists f,
    createForest Model.accumulating Model.parseFloat unchecked_forest = Ok f /\
    map oobError (trees f) = [Some nan] /\
    totalSamples f = 100%float.
Proof. eexists. vm_compute. repeat split; reflexivity. Qed.

Example createForest_no_trees :
  createForest Model.accumulating Model.parseFloat
    (mkRawData (forestFileContent unchecked_forest) []) = Throw TypeError.
Proof. vm_compute. reflexivity. Qed.

(** ** The branching strategies of [draw.mjs] *)

(** Nodes for running the layout: only the class, the sample count and the
    children matter to it. *)
Definition sample_node (k : Kind) (samples : float) (children : list Node) : Node :=
  mkNode k (mkFields 0 samples 0 0 0 0 [] 0 false) None children.

Definition sample_leaf (samples : float) : Node := sample_node LeafNode samples [].

(** "(firstBigger and leftBound) or (not firstBigger and not leftBound)" *)
Definition both_or_neither (firstBigger leftBound : bool) : bool :=
  firstBigger && leftBound || negb firstBigger && negb leftBound.

(** C2, as amended. Under the strategy "UP", a node with two children has
    them swapped, [rightChild = children[0]] and [leftChild = children[1]],
    exactly when firstBigger and leftBound both hold or both fail;
    otherwise they keep their order, [rightChild = children[1]]. *)
Theorem strategy_UP_order (node : Draw.Placed) (c0 c1 : Node) :
  children (Draw.p_node node) = [c0; c1] ->
  exists strategy leftChild rightChild,
    Draw.branchStrategy "UP" = Ok strategy /\
    strategy node = Ok (leftChild, rightChild) /\
    (both_or_neither (Draw.firstBiggerThanSecond c0 node) (Draw.leftBound node) = true ->
     rightChild = Some c0 /\ leftChild = Some c1) /\
    (both_or_neither (Draw.firstBiggerThanSecond c0 node) (Draw.leftBound node) = false ->
     rightChild = Some c1 /\ leftChild = Some c0).
Proof.
  intros Hch. exists Draw.strategy_UP.
  unfold Draw.strategy_UP, both_or_neither. rewrite Hch. simpl.
  destruct (Draw.firstBiggerThanSecond c0 node), (Draw.leftBound node); simpl;
    eexists _, _; (split; [reflexivity|]); (split; [reflexivity|]);
    split; intros H; try discriminate; auto.
Qed.

(** A branch that leans to the left (angle -0.5) with 100 samples, whose
    first child has 60 of them and whose second child has 40. *)
Definition leaning_left : Draw.Placed :=
  Draw.mkPlaced (sample_node InternalNode 100 [sample_leaf 60; sample_leaf 40]) 0
                (mkGeometry 0 0 0 0 (-0.5) 100) 1 None.

(** On it firstBigger and leftBound both hold, and the right child is the
    first child, not the second. *)
Lemma strategy_UP_swaps :
  both_or_neither (Draw.firstBiggerThanSecond (sample_leaf 60) leaning_left)
                  (Draw.leftBound leaning_left) = true /\
  Draw.branchStrategy "UP" = Ok Draw.strategy_UP /\
  Draw.strategy_UP leaning_left = Ok (Some (sample_leaf 40), Some (sample_leaf 60)) /\
  Some (sample_leaf 60) <> children (Draw.p_node leaning_left) !! 1%nat.
Proof.
  vm_compute. repeat split; try reflexivity. intros H. inversion H.
Qed.

Lemma strategy_UP_order_witness :
  exists strategy leftChild rightChild,
    Draw.branchStrategy "UP" = Ok strategy /\
    strategy leaning_left = Ok (leftChild, rightChild) /\
    rightChild = Some (sample_leaf 60) /\ leftChild = Some (sample_leaf 40).
Proof.
  destruct (strategy_UP_order leaning_left (sample_leaf 60) (sample_leaf 40) eq_refl)
    as [strategy [l [r [Hs [Hn [Hswap _]]]]]].
  exists strategy, l, r. split; [exact Hs|]. split; [exact Hn|].
  apply Hswap. vm_compute. reflexivity.
Defined.

(** ** Numbers *)

Lemma SFcompare_antisym (f1 f2 : spec_float) :
  SFcompare f2 f1 = option_map CompOpp (SFcompare f1 f2).
Proof.
  destruct f1 as [s1|s1| |s1 m1 e1], f2 as [s2|s2| |s2 m2 e2]; simpl;
    try reflexivity; try (destruct s1; reflexivity); try (destruct s2; reflexivity);
    try (destruct s1, s2; reflexivity).
  destruct s1, s2; simpl; try reflexivity;
    rewrite (Z.compare_antisym e1 e2); destruct (e1 ?= e2)%Z; simpl; try reflexivity;
    change (Pos.compare_cont Eq m2 m1) with (Pos.compare m2 m1);
    change (Pos.compare_cont Eq m1 m2) with (Pos.compare m1 m2);
    rewrite (Pos.compare_antisym m1 m2);
    destruct (Pos.compare m1 m2); reflexivity.
Qed.

Lemma not_nan_compare (a : float) :
  is_nan a = false -> SFcompare (Prim2SF a) (Prim2SF a) = Some Eq.
Proof.
  unfold is_nan. rewrite FloatAxioms.eqb_spec. unfold SFeqb. intros H.
  apply negb_false_iff in H.
  destruct (SFcompare (Prim2SF a) (Prim2SF a)) as [[]|]; try discriminate. reflexivity.
Qed.


(** ** The layout engine of [TreeView.js] *)

(** Induction on a node with the nodes below it. *)
Section NodeInduction.

Variable P : Node -> Prop.
Hypothesis step : forall k f g cs, Forall P cs -> P (mkNode k f g cs).

Fixpoint Node_induction (n : Node) : P n :=
  match n with
  | mkNode k f g cs =>
      step k f g cs
        ((fix all (l : list Node) : Forall P l :=
            match l with
            | [] => List.Forall_nil P
            | c :: l' => List.Forall_cons P c l' (Node_induction c) (all l')
            end) cs)
  end.

End NodeInduction.

(** Whether the recursion of the layout, entering a node at some depth,
    comes to an internal node that lacks one of its first two children
    before a leaf or the depth [maxDepth - 1] stops it. *)
Fixpoint lacks_child (maxDepth : Z) (n : Node) (depth : Z) : bool :=
  if depth =? maxDepth - 1 then false
  else
    match node_cls n with
    | LeafNode => false
    | InternalNode =>
        match children n with
        | l :: r :: _ => lacks_child maxDepth l (depth + 1) || lacks_child maxDepth r (depth + 1)
        | _ => true
        end
    end.

Section TreeViewFacts.

Variables Math_sin Math_cos : float -> float.
Variables (maxDepth : Z) (maxShorteningFactor minBranchLength : float).

Local Abbreviation branch_at :=
  (TreeView.branch_at Math_sin Math_cos maxDepth maxShorteningFactor minBranchLength).
Local Abbreviation addBranchInformation := (TreeView.addBranchInformation Math_sin Math_cos).
Local Abbreviation new_geometry := (TreeView.new_geometry Math_sin Math_cos).

(** The length given to a child. *)
Definition child_length (child parent : Node) (parentLength : float) : float :=
  JS.Math_max (JS.Math_min (node_samples child / node_samples parent)%float
                           maxShorteningFactor * parentLength)%float
              minBranchLength.

Definition child_angle_left (child parent : Node) (parentAngle : float) : float :=
  (parentAngle - JS.Math_abs (node_samples child / node_samples parent - 1))%float.

Definition child_angle_right (child parent : Node) (parentAngle : float) : float :=
  (parentAngle + JS.Math_abs (node_samples child / node_samples parent - 1))%float.

(** The three ways a call of [branch] returns. *)
Lemma branch_at_Ok (n : Node) (x y angle len : float) (depth : Z)
      (n' : Node) (e : TreeView.Elements) :
  branch_at n x y angle len depth = Ok (n', e) ->
  let node := addBranchInformation n x y angle len depth in
  let g := new_geometry x y angle len in
  (depth = maxDepth - 1 /\ n' = node /\
   e = TreeView.mkElements [node] []
         [TreeView.mkBunch (g_x2 g) (g_y2 g) node (node_samples node)])
  \/
  (depth <> maxDepth - 1 /\ node_cls n = LeafNode /\ n' = node /\
   e = TreeView.mkElements [node]
         [TreeView.mkLeaf (g_x2 g) (g_y2 g) (impurity (node_fields node))
            (node_samples node) (leafId (node_fields node)) (node_depth node)
            (noClasses (node_fields node)) (classes (node_fields node))
            (bestClass (node_fields node)) (selectedPathElement (node_fields node))]
         [])
  \/
  (depth <> maxDepth - 1 /\ node_cls n = InternalNode /\
   exists l r others l' r' el er,
     children n = l :: r :: others /\
     branch_at l (g_x2 g) (g_y2 g) (child_angle_left l n angle)
               (child_length l n len) (depth + 1) = Ok (l', el) /\
     branch_at r (g_x2 g) (g_y2 g) (child_angle_right r n angle)
               (child_length r n len) (depth + 1) = Ok (r', er) /\
     n' = mkNode (node_cls node) (node_fields node) (Some g) (l' :: r' :: others) /\
     e = TreeView.join (TreeView.mkElements [n'] [] []) (TreeView.join el er)).
Proof.
  destruct n as [k f g0 cs]. simpl.
  destruct (Z.eqb_spec depth (maxDepth - 1)) as [Hd|Hd].
  { intros H. inversion H. left. auto. }
  destruct k.
  - destruct cs as [|l [|r others]]; try discriminate.
    intros H. right. right. split; [exact Hd|]. split; [reflexivity|].
    apply bind_Ok in H. destruct H as [[l' el] [Hl H]].
    apply bind_Ok in H. destruct H as [[r' er] [Hr H]].
    inversion H. subst. clear H.
    exists l, r, others, l', r', el, er. repeat split; auto.
  - intros H. inversion H. right. left. auto.
Qed.

(** A call of [branch] throws nothing but a [TypeError], and it throws one
    exactly when the recursion comes to an internal node that lacks one of
    its first two children; the positions, angles and lengths play no part
    in that. *)
Lemma branch_at_lacks_child (n : Node) :
  forall (x y angle len : float) (depth : Z),
    if lacks_child maxDepth n depth
    then branch_at n x y angle len depth = Throw TypeError
    else exists r, branch_at n x y angle len depth = Ok r.
Proof.
  induction n as [k f g0 cs IH] using Node_induction. intros x y angle len depth.
  simpl. destruct (Z.eqb_spec depth (maxDepth - 1)) as [Hd|Hd]; [eauto|].
  destruct k; [|eauto].
  destruct cs as [|l [|r others]]; try reflexivity.
  inversion IH as [|? ? IHl IH']. inversion IH' as [|? ? IHr _]. subst.
  match goal with
  | |- context [TreeView.branch_at _ _ _ _ _ l ?a ?b ?c ?d ?e] =>
      specialize (IHl a b c d e)
  end.
  destruct (lacks_child maxDepth l (depth + 1)); simpl.
  { rewrite IHl. reflexivity. }
  destruct IHl as [[l' el] ->]. simpl.
  match goal with
  | |- context [TreeView.branch_at _ _ _ _ _ r ?a ?b ?c ?d ?e] =>
      specialize (IHr a b c d e)
  end.
  destruct (lacks_child maxDepth r (depth + 1)); simpl.
  { rewrite IHr. reflexivity. }
  destruct IHr as [[r' er] ->]. simpl. eauto.
Qed.


(** What a call of [branch] leaves on the node it was called on, and
    pushes first. *)
Lemma branch_at_head (n : Node) (x y angle len : float) (depth : Z)
      (n' : Node) (e : TreeView.Elements) :
  branch_at n x y angle len depth = Ok (n', e) ->
  node_cls n' = node_cls n /\
  node_fields n' = set_depth depth (node_fields n) /\
  geometry n' = Some (new_geometry x y angle len) /\
  exists rest, TreeView.branches e = n' :: rest.
Proof.
  intros H. apply branch_at_Ok in H.
  destruct H as [[_ [-> ->]]|[[_ [_ [-> ->]]]|[_ [_ H]]]]; simpl; eauto 10.
  destruct H as [l [r [others [l' [r' [el [er [_ [_ [_ [-> ->]]]]]]]]]]].
  simpl. eauto 10.
Qed.

(** On a node of the [branches] that the recursion went on from, the
    lengths of the first two children are the decayed length of the node. *)
Definition child_lengths_ok (b : Node) : Prop :=
  node_cls b = InternalNode -> node_depth b <> maxDepth - 1 ->
  exists l r others g gl gr,
    children b = l :: r :: others /\
    geometry b = Some g /\ geometry l = Some gl /\ geometry r = Some gr /\
    g_length gl = child_length l b (g_length g) /\
    g_length gr = child_length r b (g_length g).

Lemma branch_at_child_lengths (n : Node) :
  forall (x y angle len : float) (depth : Z) (n' : Node) (e : TreeView.Elements),
    branch_at n x y angle len depth = Ok (n', e) ->
    Forall child_lengths_ok (TreeView.branches e).
Proof.
  induction n as [k f g0 cs IH] using Node_induction.
  intros x y angle len depth n' e H.
  pose proof (branch_at_Ok _ _ _ _ _ _ _ _ H) as Hcases. simpl in Hcases.
  destruct Hcases as [[Hd [-> ->]]|[[Hd [Hk [-> ->]]]|[Hd [Hk Hint]]]]; simpl.
  - constructor; [|constructor]. intros _ Hnd. exfalso. apply Hnd. exact Hd.
  - constructor; [|constructor]. intros Hc. simpl in *. congruence.
  - destruct Hint as [l [r [others [l' [r' [el [er [Hcs [Hl [Hr [-> ->]]]]]]]]]]].
    simpl in Hcs. subst cs.
    inversion IH as [|? ? IHl IH']. inversion IH' as [|? ? IHr _]. subst.
    simpl. constructor.
    + intros _ _.
      destruct (branch_at_head _ _ _ _ _ _ _ _ Hl) as [_ [Hfl [Hgl _]]].
      destruct (branch_at_head _ _ _ _ _ _ _ _ Hr) as [_ [Hfr [Hgr _]]].
      eexists l', r', others, _, _, _. simpl.
      split; [reflexivity|]. split; [reflexivity|].
      split; [exact Hgl|]. split; [exact Hgr|].
      unfold child_length, node_samples. rewrite Hfl, Hfr. simpl. auto.
    + apply Forall_app. split; [eapply IHl|eapply IHr]; eauto.
Qed.


(** The nodes at which the recursion stops. *)
Definition at_cutoff (b : Node) : bool := node_depth b =? maxDepth - 1.

Definition is_leaf (b : Node) : bool :=
  match node_cls b with
  | LeafNode => true
  | InternalNode => false
  end.






(** On a node of the [branches] at which the recursion did not stop, it
    went on to the first two children, one level down. *)
Definition continues_in (bs : list Node) (b : Node) : Prop :=
  at_cutoff b = false -> is_leaf b = false ->
  exists l r others,
    children b = l :: r :: others /\ In l bs /\ In r bs /\
    node_depth l = node_depth b + 1 /\ node_depth r = node_depth b + 1.

Lemma continues_in_more (bs bs' : list Node) (b : Node) :
  (forall c, In c bs -> In c bs') -> continues_in bs b -> continues_in bs' b.
Proof.
  intros Hsub H Hc Hl. destruct (H Hc Hl) as [l [r [others [H1 [H2 [H3 H4]]]]]].
  exists l, r, others. auto.
Qed.

Lemma branch_at_continues (n : Node) :
  forall (x y angle len : float) (depth : Z) (n' : Node) (e : TreeView.Elements),
    branch_at n x y angle len depth = Ok (n', e) ->
    Forall (continues_in (TreeView.branches e)) (TreeView.branches e).
Proof.
  induction n as [k f g0 cs IH] using Node_induction.
  intros x y angle len depth n' e H.
  pose proof (branch_at_Ok _ _ _ _ _ _ _ _ H) as Hcases. simpl in Hcases.
  destruct Hcases as [[Hd [-> ->]]|[[Hd [Hk [-> ->]]]|[Hd [Hk Hint]]]].
  - simpl. constructor; [|constructor]. intros Hc.
    unfold at_cutoff, node_depth in Hc. simpl in Hc.
    apply Z.eqb_neq in Hc. contradiction.
  - simpl in Hk. subst k. simpl. constructor; [|constructor]. intros _ Hl.
    discriminate.
  - destruct Hint as [l [r [others [l' [r' [el [er [Hcs [Hl [Hr [-> ->]]]]]]]]]]].
    simpl in Hcs, Hk. subst cs k.
    inversion IH as [|? ? IHl IH']. inversion IH' as [|? ? IHr _]. subst.
    pose proof (IHl _ _ _ _ _ _ _ Hl) as Hcl.
    pose proof (IHr _ _ _ _ _ _ _ Hr) as Hcr.
    destruct (branch_at_head _ _ _ _ _ _ _ _ Hl) as [_ [Hfl [_ [restl Hbl]]]].
    destruct (branch_at_head _ _ _ _ _ _ _ _ Hr) as [_ [Hfr [_ [restr Hbr]]]].
    simpl. constructor.
    + intros _ _. exists l', r', others. simpl.
      split; [reflexivity|]. split.
      { right. apply in_or_app. left. rewrite Hbl. left. reflexivity. }
      split.
      { right. apply in_or_app. right. rewrite Hbr. left. reflexivity. }
      unfold node_depth. rewrite Hfl, Hfr. simpl. auto.
    + apply Forall_app. split.
      * eapply Forall_impl; [exact Hcl|]. intros b. apply continues_in_more.
        intros c Hc. right. apply in_or_app. left. exact Hc.
      * eapply Forall_impl; [exact Hcr|]. intros b. apply continues_in_more.
        intros c Hc. right. apply in_or_app. right. exact Hc.
Qed.



(** [b] is the branch of one of the first two children of [p], a node the
    recursion went on from, and has the decayed length of the branch of
    [p]. *)
Definition child_branch_of (p b : Node) : Prop :=
  node_cls p = InternalNode /\ node_depth p <> maxDepth - 1 /\
  exists l r others g gb,
    children p = l :: r :: others /\ (b = l \/ b = r) /\
    geometry p = Some g /\ geometry b = Some gb /\
    g_length gb = child_length b p (g_length g).

(** Every branch but the one the call was made on is the branch of a child
    of a branch pushed before it. *)
Lemma branch_at_child_branches (n : Node) :
  forall (x y angle len : float) (depth : Z) (n' : Node) (e : TreeView.Elements),
    branch_at n x y angle len depth = Ok (n', e) ->
    exists rest,
      TreeView.branches e = n' :: rest /\
      Forall (fun b => exists p, In p (TreeView.branches e) /\ child_branch_of p b) rest.
Proof.
  induction n as [k f g0 cs IH] using Node_induction.
  intros x y angle len depth n' e H.
  pose proof (branch_at_Ok _ _ _ _ _ _ _ _ H) as Hcases. simpl in Hcases.
  destruct Hcases as [[Hd [-> ->]]|[[Hd [Hk [-> ->]]]|[Hd [Hk Hint]]]].
  - simpl. exists []. split; [reflexivity|constructor].
  - simpl. exists []. split; [reflexivity|constructor].
  - destruct Hint as [l [r [others [l' [r' [el [er [Hcs [Hl [Hr [-> ->]]]]]]]]]]].
    simpl in Hcs, Hk. subst cs k.
    inversion IH as [|? ? IHl IH']. inversion IH' as [|? ? IHr _]. subst.
    destruct (IHl _ _ _ _ _ _ _ Hl) as [restl [Hbl Hcl]].
    destruct (IHr _ _ _ _ _ _ _ Hr) as [restr [Hbr Hcr]].
    destruct (branch_at_head _ _ _ _ _ _ _ _ Hl) as [_ [Hfl [Hgl _]]].
    destruct (branch_at_head _ _ _ _ _ _ _ _ Hr) as [_ [Hfr [Hgr _]]].
    cbn [TreeView.join TreeView.branches app node_cls node_fields].
    match goal with
    | |- context [mkNode InternalNode ?f' ?g' ?c' :: _] =>
        remember (mkNode InternalNode f' g' c') as node' eqn:Hnode'
    end.
    exists (TreeView.branches el ++ TreeView.branches er). split; [reflexivity|].
    assert (Hchild : forall b gb v,
              (b = l' \/ b = r') -> geometry b = Some gb ->
              g_length gb = v -> v = child_length b node' len ->
              exists p, In p (node' :: TreeView.branches el ++ TreeView.branches er) /\
                        child_branch_of p b).
    { intros b gb v Hb Hgb Hv Hlen. exists node'. split; [left; reflexivity|].
      unfold child_branch_of, node_depth. subst node'. simpl.
      split; [reflexivity|]. split; [exact Hd|].
      eexists l', r', others, _, gb. split; [reflexivity|]. split; [exact Hb|].
      split; [reflexivity|]. split; [exact Hgb|]. rewrite Hv, Hlen. reflexivity. }
    apply Forall_app. split.
    + rewrite Hbl in Hcl, Hchild |- *. constructor.
      * eapply (Hchild l'); [left; reflexivity|exact Hgl|reflexivity|].
        subst node'. unfold child_length, node_samples. rewrite Hfl. reflexivity.
      * eapply Forall_impl; [exact Hcl|]. intros b [p [Hp Hpb]].
        exists p. split; [|exact Hpb]. right. apply in_or_app. left. exact Hp.
    + rewrite Hbr in Hcr, Hchild |- *. constructor.
      * eapply (Hchild r'); [right; reflexivity|exact Hgr|reflexivity|].
        subst node'. unfold child_length, node_samples. rewrite Hfr. reflexivity.
      * eapply Forall_impl; [exact Hcr|]. intros b [p [Hp Hpb]].
        exists p. split; [|exact Hpb]. right. apply in_or_app. right. exact Hp.
Qed.

End TreeViewFacts.

(** C5, as amended. The layout of [TreeView.js], on a tree on which the
    recursion comes to no internal node that lacks one of its first two
    children, returns its branches with the branch of the base node first,
    of the length [trunkLength]. On every branch that is an internal node
    above the depth [maxDepth - 1], the two children are branches of the
    result and each has the length
    [max (min (child.samples / node.samples, maxShorteningFactor) * node.length,
    minBranchLength)]; and every branch but the first is such a child of a
    branch of the result. *)
Theorem layout_child_lengths (Math_sin Math_cos : float -> float) (maxDepth : Z)
        (maxShorteningFactor minBranchLength : float) (tree : Node)
        (totalSamples width height trunkLength : float) :
  lacks_child maxDepth tree 0 = false ->
  exists e root rest,
    TreeView.generateTreeElements Math_sin Math_cos maxDepth maxShorteningFactor
      minBranchLength tree totalSamples width height trunkLength = Ok e /\
    TreeView.branches e = root :: rest /\
    g_length <$> geometry root = Some trunkLength /\
    Forall (child_lengths_ok maxDepth maxShorteningFactor minBranchLength)
           (TreeView.branches e) /\
    Forall (continues_in maxDepth (TreeView.branches e)) (TreeView.branches e) /\
    Forall (fun b => exists p, In p (TreeView.branches e) /\
                               child_branch_of maxDepth maxShorteningFactor
                                               minBranchLength p b)
           rest.
Proof.
  intros Hlacks.
  pose proof (branch_at_lacks_child Math_sin Math_cos maxDepth maxShorteningFactor
                minBranchLength tree (width / 2)%float height 0%float trunkLength 0) as Hb.
  rewrite Hlacks in Hb. destruct Hb as [[n' e'] Hb].
  destruct (branch_at_child_branches _ _ _ _ _ _ _ _ _ _ _ _ _ Hb) as [rest [Hrest Hchildren]].
  destruct (branch_at_head _ _ _ _ _ _ _ _ _ _ _ _ _ Hb) as [_ [_ [Hg _]]].
  eexists _, n', rest. split.
  { unfold TreeView.generateTreeElements. rewrite Hb. reflexivity. }
  cbn [TreeView.branches]. split; [exact Hrest|]. split; [rewrite Hg; reflexivity|].
  split; [eapply branch_at_child_lengths; exact Hb|].
  split; [eapply branch_at_continues; exact Hb|exact Hchildren].
Qed.

(** ** Sorting *)

Lemma insert_sorted_Permutation {A} (after : A -> A -> bool) (a : A) (l : list A) :
  Permutation (insert_sorted after a l) (a :: l).
Proof.
  induction l as [|b l IH]; simpl; [reflexivity|].
  destruct (after a b); [|reflexivity].
  rewrite IH. apply perm_swap.
Qed.

Lemma sort_Permutation {A} (after : A -> A -> bool) (l : list A) :
  Permutation (sort after l) l.
Proof.
  induction l as [|a l IH]; simpl; [reflexivity|].
  rewrite insert_sorted_Permutation. rewrite IH. reflexivity.
Qed.





(** ** The layout as a whole *)

Section LayoutFacts.

Variables Math_sin Math_cos : float -> float.
Variables (maxDepth : Z) (maxShorteningFactor minBranchLength : float).
Variables (tree : Node) (totalSamples width height trunkLength : float).

Local Abbreviation generateTreeElements :=
  (TreeView.generateTreeElements Math_sin Math_cos maxDepth maxShorteningFactor
     minBranchLength tree totalSamples width height trunkLength).

(** [leafs.sort (sortBySamples)] and [bunches.sort (sortBySamples)]. *)
Definition sorted_elements (e : TreeView.Elements) : TreeView.Elements :=
  TreeView.mkElements
    (TreeView.branches e)
    (sort (fun a b => TreeView.samples_after (TreeView.leaf_samples a)
                                             (TreeView.leaf_samples b))
          (TreeView.leafs e))
    (sort (fun a b => TreeView.samples_after (TreeView.bunch_samples a)
                                             (TreeView.bunch_samples b))
          (TreeView.bunches e)).

Lemma generateTreeElements_Ok (e : TreeView.Elements) :
  generateTreeElements = Ok e <->
  exists n' e',
    TreeView.branch_at Math_sin Math_cos maxDepth maxShorteningFactor minBranchLength
      tree (width / 2) height 0 trunkLength 0 = Ok (n', e') /\
    e = sorted_elements e'.
Proof.
  unfold TreeView.generateTreeElements. split.
  - intros H. apply bind_Ok in H. destruct H as [[n' e'] [Hb H]].
    inversion H. subst e. eauto.
  - intros [n' [e' [Hb ->]]]. rewrite Hb. reflexivity.
Qed.

(** The layout throws nothing but a [TypeError], and throws one exactly when
    its recursion comes to an internal node that lacks one of its first two
    children. *)
Lemma generateTreeElements_Throw (err : Error) :
  generateTreeElements = Throw err <->
  err = TypeError /\ lacks_child maxDepth tree 0 = true.
Proof.
  unfold TreeView.generateTreeElements.
  pose proof (branch_at_lacks_child Math_sin Math_cos maxDepth maxShorteningFactor
                minBranchLength tree (width / 2) height 0 trunkLength 0) as H.
  destruct (lacks_child maxDepth tree 0).
  - rewrite H. simpl. split; [intros E; inversion E; auto|intros [-> _]; reflexivity].
  - destruct H as [[n' e'] ->]. simpl. split; [discriminate|intros [_ E]; discriminate].
Qed.



End LayoutFacts.

(** ** The layout on small trees *)

(** A base node of 100 samples with two leaves of 60 and 40 samples; a base
    node with one leaf only; a base node without samples above two leaves
    without samples. *)
Definition two_leaves : Node :=
  sample_node InternalNode 100 [sample_leaf 60; sample_leaf 40].

Definition one_leaf : Node := sample_node InternalNode 100 [sample_leaf 40].

Definition no_samples : Node := sample_node InternalNode 0 [sample_leaf 0; sample_leaf 0].

Lemma layout_child_lengths_witness :
  exists e,
    TreeView.generateTreeElements Model.sin Model.cos 10000
      TreeView.default_maxShorteningFactor TreeView.default_minBranchLength
      two_leaves 100 800 800 100 = Ok e /\
    map (fun b => g_length <$> geometry b) (TreeView.branches e) =
      [Some 100; Some 60; Some 40]%float /\
    Forall (child_lengths_ok 10000 TreeView.default_maxShorteningFactor
                             TreeView.default_minBranchLength)
           (TreeView.branches e).
Proof.
  destruct (layout_child_lengths Model.sin Model.cos 10000
              TreeView.default_maxShorteningFactor TreeView.default_minBranchLength
              two_leaves 100 800 800 100) as [e [root [rest [He [_ [_ [Hlen _]]]]]]];
    [vm_compute; reflexivity|].
  exists e. split; [exact He|]. split; [|exact Hlen].
  vm_compute in He. inversion He. reflexivity.
Defined.

(** The layout of [draw.mjs] on the same tree, with 100 samples in all: the
    branches of the two leaves have the lengths 64 and 44, which are
    [4 + samples / totalSamples * 100], where the decayed lengths are 60
    and 40; [Math.sin] and [Math.cos] play no part in the lengths. *)
Lemma draw_child_lengths :
  ~ (exists Math_sin Math_cos,
       forall e,
         Draw.generateTreeElements Math_sin Math_cos 100 None Draw.strategy_SIMPLE 2
           two_leaves = Some (Ok e) ->
         map (fun b => g_length (Draw.b_geometry b)) (Draw.branches e) =
           [100;
            child_length TreeView.default_maxShorteningFactor
                         TreeView.default_minBranchLength
                         (sample_leaf 60) two_leaves 100;
            child_length TreeView.default_maxShorteningFactor
                         TreeView.default_minBranchLength
                         (sample_leaf 40) two_leaves 100]%float).
Proof.
  intros [s [c H]].
  destruct (Draw.generateTreeElements s c 100 None Draw.strategy_SIMPLE 2 two_leaves)
    as [[e|err]|] eqn:E; [|vm_compute in E; discriminate|vm_compute in E; discriminate].
  specialize (H e eq_refl). vm_compute in E. inversion E. subst e. clear E.
  vm_compute in H. discriminate.
Qed.

Example draw_two_leaves_lengths :
  exists e,
    Draw.generateTreeElements Model.sin Model.cos 100 None Draw.strategy_SIMPLE 2
      two_leaves = Some (Ok e) /\
    map (fun b => g_length (Draw.b_geometry b)) (Draw.branches e) = [100; 64; 44]%float.
Proof. eexists. vm_compute. split; reflexivity. Qed.

(** The lengths of the spec's end-to-end scenario: 100 for the base node,
    60 and 40 for the leaves. *)
Example layout_two_leaves_lengths :
  exists e,
    TreeView.generateTreeElements Model.sin Model.cos 10000
      TreeView.default_maxShorteningFactor TreeView.default_minBranchLength
      two_leaves 100 800 800 100 = Ok e /\
    map (fun b => g_length <$> geometry b) (TreeView.branches e) =
      [Some 100; Some 60; Some 40]%float /\
    map TreeView.leaf_samples (TreeView.leafs e) = [60; 40]%float /\
    TreeView.bunches e = [].
Proof. eexists. vm_compute. repeat split; reflexivity. Qed.




(** No samples on a node and on its children: the ratio is 0/0, and the
    length of the children is [NaN]. *)
Example layout_no_samples :
  exists e,
    TreeView.generateTreeElements Model.sin Model.cos 10000
      TreeView.default_maxShorteningFactor TreeView.default_minBranchLength
      no_samples 0 800 800 100 = Ok e /\
    map (fun b => is_nan <$> (g_length <$> geometry b)) (TreeView.branches e) =
      [Some false; Some true; Some true].
Proof. eexists. vm_compute. split; reflexivity. Qed.


(** ** The path highlighter *)

Definition flag (o : NodeObj) : bool := selectedPathElement (fields o).

(** Two stores that differ in highlight flags only. *)
Definition same_shape (st st' : Store) : Prop :=
  map (set_flag false) st = map (set_flag false) st'.

(** [up st l i]: following [parent] from [l] comes to [i]. *)
Inductive up (st : Store) : nat -> nat -> Prop :=
  | up_here (i : nat) : up st i i
  | up_parent (l p i : nat) (o : NodeObj) :
      st !! l = Some o -> parent_ref o = Some p -> up st p i -> up st l i.

(** The object graph of a tree whose base node is at position 0: children
    come after their parent and point back to it, a parent lists the
    objects that point to it, and every object but the first has a
    parent. *)
Record tree_shaped (st : Store) : Prop := {
  ts_children : forall i o c, st !! i = Some o -> c ∈ child_refs o ->
    (i < c)%nat /\ exists oc, st !! c = Some oc /\ parent_ref oc = Some i;
  ts_parent : forall i o p, st !! i = Some o -> parent_ref o = Some p ->
    (p < i)%nat /\ exists po, st !! p = Some po /\ i ∈ child_refs po;
  ts_rooted : forall i o, st !! i = Some o -> i <> 0%nat -> parent_ref o <> None
}.

(** Every internal node has two children, and a leaf has none. *)
Definition two_children (o : NodeObj) : Prop :=
  match cls o with
  | InternalNode => length (child_refs o) = 2%nat
  | LeafNode => child_refs o = []
  end.

Section HighlighterFacts.

Lemma set_flag_parts (b : bool) (o : NodeObj) :
  cls (set_flag b o) = cls o /\ child_refs (set_flag b o) = child_refs o /\
  parent_ref (set_flag b o) = parent_ref o /\
  leafId (fields (set_flag b o)) = leafId (fields o) /\ flag (set_flag b o) = b.
Proof. destruct o as [k f cs p]. destruct f. simpl. auto. Qed.

Lemma set_flag_set_flag (b b' : bool) (o : NodeObj) :
  set_flag b (set_flag b' o) = set_flag b o.
Proof. destruct o as [k f cs p]. destruct f. reflexivity. Qed.

Lemma set_flag_flag (o : NodeObj) : set_flag (flag o) o = o.
Proof. destruct o as [k f cs p]. destruct f. reflexivity. Qed.

(** An object is its shape and its flag. *)
Lemma same_object (o o' : NodeObj) :
  set_flag false o = set_flag false o' -> flag o = flag o' -> o = o'.
Proof.
  intros Hs Hf. rewrite <- (set_flag_flag o), <- (set_flag_flag o').
  rewrite <- (set_flag_set_flag (flag o) false o).
  rewrite <- (set_flag_set_flag (flag o') false o').
  rewrite Hs, Hf. reflexivity.
Qed.

Lemma same_shape_parts (o o' : NodeObj) :
  set_flag false o = set_flag false o' ->
  cls o = cls o' /\ child_refs o = child_refs o' /\ parent_ref o = parent_ref o' /\
  leafId (fields o) = leafId (fields o').
Proof.
  intros H.
  destruct (set_flag_parts false o) as [H1 [H2 [H3 [H4 _]]]].
  destruct (set_flag_parts false o') as [H1' [H2' [H3' [H4' _]]]].
  rewrite <- H1, <- H2, <- H3, <- H4, <- H1', <- H2', <- H3', <- H4', H. auto.
Qed.

Lemma same_shape_refl (st : Store) : same_shape st st.
Proof. reflexivity. Qed.

Lemma same_shape_trans (st1 st2 st3 : Store) :
  same_shape st1 st2 -> same_shape st2 st3 -> same_shape st1 st3.
Proof. unfold same_shape. congruence. Qed.

Lemma same_shape_sym (st1 st2 : Store) : same_shape st1 st2 -> same_shape st2 st1.
Proof. unfold same_shape. congruence. Qed.

Lemma same_shape_length (st st' : Store) : same_shape st st' -> length st = length st'.
Proof.
  intros H. apply (f_equal length) in H. rewrite !length_map in H. exact H.
Qed.

Lemma same_shape_lookup (st st' : Store) (i : nat) (o : NodeObj) :
  same_shape st st' -> st !! i = Some o ->
  exists o', st' !! i = Some o' /\ set_flag false o = set_flag false o'.
Proof.
  intros H Hi. apply (f_equal (fun l => l !! i)) in H.
  rewrite !list_lookup_fmap, Hi in H. simpl in H.
  destruct (st' !! i) as [o'|]; simpl in H; [|discriminate].
  exists o'. split; [reflexivity|congruence].
Qed.

Lemma same_shape_insert (st : Store) (i : nat) (o : NodeObj) (b : bool) :
  st !! i = Some o -> same_shape st (<[i := set_flag b o]> st).
Proof.
  intros Hi. unfold same_shape. apply list_eq. intros j.
  rewrite !list_lookup_fmap.
  destruct (decide (j = i)) as [->|Hne].
  - rewrite list_lookup_insert_eq by (eapply lookup_lt_Some; eauto).
    rewrite Hi. simpl. rewrite set_flag_set_flag. reflexivity.
  - rewrite list_lookup_insert_ne by congruence. reflexivity.
Qed.

Lemma up_same_shape (st st' : Store) (l i : nat) :
  same_shape st st' -> up st l i -> up st' l i.
Proof.
  intros Hs H. induction H as [i|l p i o Hl Hp _ IH]; [constructor|].
  destruct (same_shape_lookup _ _ _ _ Hs Hl) as [o' [Hl' Ho']].
  apply same_shape_parts in Ho'. destruct Ho' as [_ [_ [Hpar _]]].
  eapply up_parent; [exact Hl'| |exact IH]. congruence.
Qed.

Lemma tree_shaped_same_shape (st st' : Store) :
  same_shape st st' -> tree_shaped st -> tree_shaped st'.
Proof.
  intros Hs [Hc Hp Hr]. apply same_shape_sym in Hs. constructor.
  - intros i o c Hi Hin.
    destruct (same_shape_lookup _ _ _ _ Hs Hi) as [o0 [Hi0 Ho0]].
    apply same_shape_parts in Ho0. destruct Ho0 as [_ [Hcs _]].
    rewrite Hcs in Hin. destruct (Hc _ _ _ Hi0 Hin) as [Hlt [oc [Hoc Hpc]]].
    split; [exact Hlt|].
    destruct (same_shape_lookup _ _ _ _ (same_shape_sym _ _ Hs) Hoc) as [oc' [Hoc' E]].
    apply same_shape_parts in E. destruct E as [_ [_ [E _]]].
    exists oc'. split; [exact Hoc'|]. congruence.
  - intros i o p Hi Hpar.
    destruct (same_shape_lookup _ _ _ _ Hs Hi) as [o0 [Hi0 Ho0]].
    apply same_shape_parts in Ho0. destruct Ho0 as [_ [_ [Hps _]]].
    rewrite Hps in Hpar. destruct (Hp _ _ _ Hi0 Hpar) as [Hlt [po [Hpo Hin]]].
    split; [exact Hlt|].
    destruct (same_shape_lookup _ _ _ _ (same_shape_sym _ _ Hs) Hpo) as [po' [Hpo' E]].
    apply same_shape_parts in E. destruct E as [_ [E _]].
    exists po'. split; [exact Hpo'|]. congruence.
  - intros i o Hi Hne.
    destruct (same_shape_lookup _ _ _ _ Hs Hi) as [o0 [Hi0 Ho0]].
    apply same_shape_parts in Ho0. destruct Ho0 as [_ [_ [Hps _]]].
    rewrite Hps. eapply Hr; eauto.
Qed.

Lemma two_children_same_shape (st st' : Store) :
  same_shape st st' -> Forall two_children st -> Forall two_children st'.
Proof.
  intros Hs H. rewrite Forall_lookup in H. apply Forall_lookup. intros i o' Hi.
  destruct (same_shape_lookup _ _ _ _ (same_shape_sym _ _ Hs) Hi) as [o [Ho E]].
  apply same_shape_parts in E. destruct E as [E1 [E2 _]].
  specialize (H _ _ Ho). unfold two_children in *. rewrite E1, E2. exact H.
Qed.

(** In a tree, the chain of parents goes to lower positions, and from
    below a node it passes through one of its children. *)
Lemma up_le (st : Store) (l i : nat) : tree_shaped st -> up st l i -> (i <= l)%nat.
Proof.
  intros Hts H. induction H as [i|l p i o Hl Hp _ IH]; [lia|].
  destruct (ts_parent _ Hts _ _ _ Hl Hp) as [Hlt _]. lia.
Qed.

Lemma up_through_child (st : Store) (l i : nat) (o : NodeObj) :
  tree_shaped st -> up st l i -> l <> i -> st !! i = Some o ->
  exists c, c ∈ child_refs o /\ up st l c.
Proof.
  intros Hts H. induction H as [i|l p i ol Hl Hp Hup IH]; intros Hne Hi; [congruence|].
  destruct (decide (p = i)) as [->|Hpi].
  - destruct (ts_parent _ Hts _ _ _ Hl Hp) as [_ [po [Hpo Hin]]].
    exists l. split; [congruence|constructor].
  - destruct (IH Hpi Hi) as [c [Hc Hupc]].
    exists c. split; [exact Hc|]. eapply up_parent; eauto.
Qed.

Lemma up_from_child (st : Store) (l c i : nat) (o : NodeObj) :
  tree_shaped st -> st !! i = Some o -> c ∈ child_refs o -> up st l c -> up st l i.
Proof.
  intros Hts Hi Hc H. induction H as [c|l p c ol Hl Hp Hup IH].
  - destruct (ts_children _ Hts _ _ _ Hi Hc) as [_ [oc [Hoc Hpc]]].
    eapply up_parent; [exact Hoc|exact Hpc|constructor].
  - eapply up_parent; [exact Hl|exact Hp|]. apply IH. exact Hc.
Qed.

Lemma up_to_base (st : Store) (l : nat) :
  tree_shaped st -> (l < length st)%nat -> up st l 0.
Proof.
  intros Hts. induction l as [l IH] using lt_wf_ind. intros Hlt.
  destruct (decide (l = 0%nat)) as [->|Hne]; [constructor|].
  destruct (lookup_lt_is_Some_2 st l Hlt) as [o Ho].
  destruct (parent_ref o) as [p|] eqn:Hp.
  - destruct (ts_parent _ Hts _ _ _ Ho Hp) as [Hpl _].
    eapply up_parent; [exact Ho|exact Hp|]. apply IH; lia.
  - exfalso. eapply (ts_rooted _ Hts); eauto.
Qed.


Lemma apply_to_set_flag (b : bool) (st : Store) (i : nat) (o : NodeObj) :
  st !! i = Some o ->
  apply_to (set_flag b) st (Some i) = Ok (<[i := set_flag b o]> st).
Proof. intros H. unfold apply_to. simpl. rewrite H. reflexivity. Qed.

Lemma walkAndApply_undefined (fuel : nat) (fn : NodeObj -> NodeObj) (st : Store) :
  walkAndApply (S fuel) fn st None = Some (Throw TypeError).
Proof. reflexivity. Qed.

(** With fuel for the part of the store behind the node, the walk of a tree
    ends: it throws a [TypeError] or returns the store with other flags. *)
Lemma walkAndApply_ends (b : bool) (fuel : nat) :
  forall (st : Store) (i : nat),
    tree_shaped st -> (length st < i + fuel)%nat -> (i < length st)%nat ->
    walkAndApply fuel (set_flag b) st (Some i) = Some (Throw TypeError) \/
    exists st', walkAndApply fuel (set_flag b) st (Some i) = Some (Ok st') /\
                same_shape st st'.
Proof.
  induction fuel as [|fuel IH]; intros st i Hts Hfuel Hi; [lia|].
  destruct (lookup_lt_is_Some_2 st i Hi) as [o Ho].
  simpl. rewrite (apply_to_set_flag b _ _ _ Ho).
  rewrite list_lookup_insert_eq by exact Hi.
  destruct (set_flag_parts b o) as [Hcls [Hcs _]]. rewrite Hcls, Hcs.
  pose proof (same_shape_insert st i o b Ho) as Hs1.
  destruct (cls o); [|right; eauto].
  pose proof (tree_shaped_same_shape _ _ Hs1 Hts) as Hts1.
  assert (Hchild : forall (st1 : Store) (k : nat),
             same_shape st st1 ->
             walkAndApply fuel (set_flag b) st1 (child_refs o !! k) = Some (Throw TypeError) \/
             exists st', walkAndApply fuel (set_flag b) st1 (child_refs o !! k) = Some (Ok st') /\
                         same_shape st st').
  { intros st1 k Hs. destruct (child_refs o !! k) as [c|] eqn:Hc.
    - destruct (ts_children _ Hts _ _ c Ho) as [Hlt [oc [Hoc _]]].
      { eapply list_elem_of_lookup_2. exact Hc. }
      apply lookup_lt_Some in Hoc.
      pose proof (same_shape_length _ _ Hs) as Hlen.
      destruct (IH st1 c) as [H|[st' [H Hs']]]; try lia.
      + eapply tree_shaped_same_shape; eauto.
      + left. exact H.
      + right. exists st'. split; [exact H|]. eapply same_shape_trans; eauto.
    - left. destruct fuel; [lia|]. reflexivity. }
  destruct (Hchild _ 0%nat Hs1) as [H|[st2 [H Hs2]]]; rewrite H; [left; reflexivity|].
  apply Hchild. exact Hs2.
Qed.

(** The reset walk on a tree whose internal nodes have two children: it
    returns, changes flags only, and leaves no flag set below the node. *)
Lemma walkAndApply_reset (fuel : nat) :
  forall (st : Store) (i : nat),
    tree_shaped st -> Forall two_children st ->
    (length st <= i + fuel)%nat -> (i < length st)%nat ->
    exists st',
      walkAndApply fuel (set_flag false) st (Some i) = Some (Ok st') /\
      same_shape st st' /\
      (forall j o', st' !! j = Some o' -> up st j i -> flag o' = false) /\
      (forall j o o', st !! j = Some o -> st' !! j = Some o' ->
                      flag o = false -> flag o' = false).
Proof.
  induction fuel as [|fuel IH]; intros st i Hts Htwo Hfuel Hi; [lia|].
  destruct (lookup_lt_is_Some_2 st i Hi) as [o Ho].
  simpl. rewrite (apply_to_set_flag false _ _ _ Ho).
  rewrite list_lookup_insert_eq by exact Hi.
  destruct (set_flag_parts false o) as [Hcls [Hcs [_ [_ Hflag]]]]. rewrite Hcls, Hcs.
  pose proof (same_shape_insert st i o false Ho) as Hs1.
  set (st1 := <[i := set_flag false o]> st) in *.
  assert (Hst1 : forall j o1, st1 !! j = Some o1 ->
             (j = i /\ o1 = set_flag false o) \/ (j <> i /\ st !! j = Some o1)).
  { intros j o1 Hj. unfold st1 in Hj. destruct (decide (j = i)) as [->|Hne].
    - rewrite list_lookup_insert_eq in Hj by exact Hi. inversion Hj. auto.
    - rewrite list_lookup_insert_ne in Hj by congruence. auto. }
  pose proof (Forall_lookup_1 _ _ _ _ Htwo Ho) as Ho2. unfold two_children in Ho2.
  destruct (cls o) eqn:Hk.
  - (* an internal node *)
    destruct (child_refs o) as [|c0 [|c1 [|c2 cs]]] eqn:Hcs'; simpl in Ho2; try lia.
    simpl.
    pose proof (tree_shaped_same_shape _ _ Hs1 Hts) as Hts1.
    pose proof (two_children_same_shape _ _ Hs1 Htwo) as Htwo1.
    pose proof (same_shape_length _ _ Hs1) as Hlen1.
    destruct (ts_children _ Hts _ _ c0 Ho) as [Hlt0 [oc0 [Hoc0 _]]].
    { rewrite Hcs'. apply list_elem_of_here. }
    destruct (ts_children _ Hts _ _ c1 Ho) as [Hlt1 [oc1 [Hoc1 _]]].
    { rewrite Hcs'. apply list_elem_of_further, list_elem_of_here. }
    apply lookup_lt_Some in Hoc0, Hoc1.
    destruct (IH st1 c0 Hts1 Htwo1) as [st2 [Hw2 [Hs2 [Hclear2 Hmono2]]]]; try lia.
    rewrite Hw2.
    pose proof (tree_shaped_same_shape _ _ Hs2 Hts1) as Hts2.
    pose proof (two_children_same_shape _ _ Hs2 Htwo1) as Htwo2.
    pose proof (same_shape_length _ _ Hs2) as Hlen2.
    destruct (IH st2 c1 Hts2 Htwo2) as [st3 [Hw3 [Hs3 [Hclear3 Hmono3]]]]; try lia.
    exists st3. split; [exact Hw3|].
    assert (Hs13 : same_shape st st3).
    { eapply same_shape_trans; [exact Hs1|]. eapply same_shape_trans; eauto. }
    split; [exact Hs13|].
    assert (Hmono : forall j o0 o', st !! j = Some o0 -> st3 !! j = Some o' ->
                                    flag o0 = false -> flag o' = false).
    { intros j o0 o3 Hj Hj3 Hf.
      destruct (same_shape_lookup _ _ _ _ Hs1 Hj) as [o1 [Hj1 _]].
      destruct (same_shape_lookup _ _ _ _ Hs2 Hj1) as [o2 [Hj2 _]].
      apply (Hmono3 _ _ _ Hj2 Hj3). apply (Hmono2 _ _ _ Hj1 Hj2).
      destruct (Hst1 _ _ Hj1) as [[_ ->]|[_ Hj']]; [exact Hflag|congruence]. }
    split; [|exact Hmono].
    intros j o3 Hj3 Hup.
    destruct (same_shape_lookup _ _ _ _ (same_shape_sym _ _ Hs3) Hj3) as [o2 [Hj2 _]].
    destruct (same_shape_lookup _ _ _ _ (same_shape_sym _ _ Hs2) Hj2) as [o1 [Hj1 _]].
    destruct (decide (j = i)) as [->|Hne].
    + apply (Hmono3 _ _ _ Hj2 Hj3). apply (Hmono2 _ _ _ Hj1 Hj2).
      destruct (Hst1 _ _ Hj1) as [[_ ->]|[Hne _]]; [exact Hflag|congruence].
    + destruct (up_through_child _ _ _ _ Hts Hup Hne Ho) as [c [Hc Hupc]].
      rewrite Hcs' in Hc.
      apply elem_of_cons in Hc. destruct Hc as [->|Hc].
      * apply (Hmono3 _ _ _ Hj2 Hj3). apply (Hclear2 _ _ Hj2).
        eapply up_same_shape; [exact Hs1|exact Hupc].
      * apply elem_of_cons in Hc. destruct Hc as [->|Hc]; [|inversion Hc].
        apply (Hclear3 _ _ Hj3). eapply up_same_shape; [|exact Hupc].
        eapply same_shape_trans; [exact Hs1|exact Hs2].
  - (* a leaf *)
    exists st1. split; [reflexivity|]. split; [exact Hs1|]. split.
    + intros j o1 Hj Hup. destruct (decide (j = i)) as [->|Hne].
      * destruct (Hst1 _ _ Hj) as [[_ ->]|[Hne _]]; [exact Hflag|congruence].
      * destruct (up_through_child _ _ _ _ Hts Hup Hne Ho) as [c [Hc _]].
        rewrite Ho2 in Hc. inversion Hc.
    + intros j o0 o1 Hj Hj1 Hf.
      destruct (Hst1 _ _ Hj1) as [[_ ->]|[_ Hj']]; [exact Hflag|congruence].
Qed.

(** The walk up from a node of a tree: it returns, changes flags only, sets
    the flag of every node on the way, and of no other node. *)
Lemma walkUpAndApply_mark (fuel : nat) :
  forall (st : Store) (l : nat),
    tree_shaped st -> (l < fuel)%nat -> (l < length st)%nat ->
    exists st',
      walkUpAndApply fuel (set_flag true) st l = Some (Ok st') /\
      same_shape st st' /\
      (forall j o', st' !! j = Some o' -> up st l j -> flag o' = true) /\
      (forall j o o', st !! j = Some o -> st' !! j = Some o' ->
                      o' = o \/ (flag o' = true /\ up st l j)).
Proof.
  induction fuel as [|fuel IH]; intros st l Hts Hfuel Hl; [lia|].
  destruct (lookup_lt_is_Some_2 st l Hl) as [o Ho].
  simpl. rewrite (apply_to_set_flag true _ _ _ Ho).
  rewrite list_lookup_insert_eq by exact Hl. simpl.
  destruct (set_flag_parts true o) as [_ [_ [Hpar [_ Hflag]]]]. try rewrite Hpar.
  pose proof (same_shape_insert st l o true Ho) as Hs1.
  set (st1 := <[l := set_flag true o]> st) in *.
  assert (Hst1 : forall j o1, st1 !! j = Some o1 ->
             (j = l /\ o1 = set_flag true o) \/ (j <> l /\ st !! j = Some o1)).
  { intros j o1 Hj. unfold st1 in Hj. destruct (decide (j = l)) as [->|Hne].
    - rewrite list_lookup_insert_eq in Hj by exact Hl. inversion Hj. auto.
    - rewrite list_lookup_insert_ne in Hj by congruence. auto. }
  destruct (parent_ref o) as [p|] eqn:Hp.
  - destruct (ts_parent _ Hts _ _ _ Ho Hp) as [Hpl _].
    pose proof (tree_shaped_same_shape _ _ Hs1 Hts) as Hts1.
    pose proof (same_shape_length _ _ Hs1) as Hlen1.
    destruct (IH st1 p Hts1) as [st' [Hw [Hs' [Hset Hother]]]]; try lia.
    exists st'. split; [exact Hw|]. split; [eapply same_shape_trans; eauto|].
    split.
    + intros j o' Hj Hup.
      destruct (same_shape_lookup _ _ _ _ (same_shape_sym _ _ Hs') Hj) as [o1 [Hj1 _]].
      inversion Hup as [|? p' ? o0 Hl0 Hp0 Hup0]; subst.
      * destruct (Hother _ _ _ Hj1 Hj) as [->|[Hf _]]; [|exact Hf].
        destruct (Hst1 _ _ Hj1) as [[_ ->]|[Hne _]]; [exact Hflag|congruence].
      * assert (p' = p) by congruence. subst p'.
        apply (Hset _ _ Hj). eapply up_same_shape; eauto.
    + intros j o0 o' Hj Hj'.
      destruct (same_shape_lookup _ _ _ _ Hs1 Hj) as [o1 [Hj1 _]].
      destruct (Hother _ _ _ Hj1 Hj') as [->|[Hf Hup]].
      * destruct (Hst1 _ _ Hj1) as [[-> ->]|[_ Hj0]].
        -- right. split; [exact Hflag|constructor].
        -- left. congruence.
      * right. split; [exact Hf|]. eapply up_parent; [exact Ho|exact Hp|].
        eapply up_same_shape; [apply same_shape_sym; exact Hs1|exact Hup].
  - exists st1. split; [reflexivity|]. split; [exact Hs1|]. split.
    + intros j o' Hj Hup.
      inversion Hup as [|? p' ? o0 Hl0 Hp0 Hup0]; subst; [|congruence].
      destruct (Hst1 _ _ Hj) as [[_ ->]|[Hne _]]; [exact Hflag|congruence].
    + intros j o0 o' Hj Hj'.
      destruct (Hst1 _ _ Hj') as [[-> ->]|[_ Hj0]].
      * right. split; [exact Hflag|constructor].
      * left. congruence.
Qed.

Lemma mark_leafs_mark (fuel : nat) (leafs : list nat) :
  forall (st : Store),
    tree_shaped st ->
    Forall (fun l => (l < fuel)%nat /\ (l < length st)%nat) leafs ->
    exists st',
      mark_leafs fuel st leafs = Some (Ok st') /\
      same_shape st st' /\
      (forall j o', st' !! j = Some o' ->
                    (exists l, In l leafs /\ up st l j) -> flag o' = true) /\
      (forall j o o', st !! j = Some o -> st' !! j = Some o' ->
                      o' = o \/ (flag o' = true /\ exists l, In l leafs /\ up st l j)).
Proof.
  induction leafs as [|l rest IH]; intros st Hts Hall; simpl.
  - exists st. split; [reflexivity|]. split; [apply same_shape_refl|]. split.
    + intros j o' _ [l [[] _]].
    + intros j o o' Hj Hj'. left. congruence.
  - inversion Hall as [|? ? [Hlf Hll] Hrest]. subst.
    destruct (walkUpAndApply_mark fuel st l Hts Hlf Hll) as [st1 [Hw [Hs1 [Hset1 Hother1]]]].
    rewrite Hw.
    pose proof (tree_shaped_same_shape _ _ Hs1 Hts) as Hts1.
    pose proof (same_shape_length _ _ Hs1) as Hlen1.
    destruct (IH st1 Hts1) as [st' [Hm [Hs' [Hset Hother]]]].
    { eapply Forall_impl; [exact Hrest|]. simpl. intros. lia. }
    exists st'. split; [exact Hm|]. split; [eapply same_shape_trans; eauto|].
    split.
    + intros j o' Hj [l0 [[->|Hin] Hup]].
      * destruct (same_shape_lookup _ _ _ _ (same_shape_sym _ _ Hs') Hj) as [o1 [Hj1 _]].
        destruct (Hother _ _ _ Hj1 Hj) as [->|[Hf _]]; [|exact Hf].
        apply (Hset1 _ _ Hj1 Hup).
      * apply (Hset _ _ Hj). exists l0. split; [exact Hin|].
        eapply up_same_shape; eauto.
    + intros j o o' Hj Hj'.
      destruct (same_shape_lookup _ _ _ _ Hs1 Hj) as [o1 [Hj1 _]].
      destruct (Hother _ _ _ Hj1 Hj') as [->|[Hf [l0 [Hin Hup]]]].
      * destruct (Hother1 _ _ _ Hj Hj1) as [->|[Hf Hup]]; [left; reflexivity|].
        right. split; [exact Hf|]. exists l. split; [left; reflexivity|exact Hup].
      * right. split; [exact Hf|]. exists l0. split; [right; exact Hin|].
        eapply up_same_shape; [apply same_shape_sym; exact Hs1|exact Hup].
Qed.

(** C7. [markPathElements] does not return: on every tree it throws a
    [TypeError], whatever the [leafIds] are. On a tree whose internal nodes
    all have two children the reset walk goes through and clears every flag,
    so that the error is the one of the call [this.getLeafNodes (tree)]
    after it, of a method the class does not have; no flag is set. *)
Theorem markPathElements_throws (leafIds : list Z) (st : Store) :
  tree_shaped st -> st <> [] ->
  markPathElements leafIds st 0 = Some (Throw TypeError) /\
  (Forall two_children st ->
   exists st1,
     walkAndApply (S (length st)) (set_flag false) st (Some 0%nat) = Some (Ok st1) /\
     same_shape st st1 /\
     Forall (fun o => flag o = false) st1).
Proof.
  intros Hts Hne.
  assert (Hlen : (0 < length st)%nat) by (destruct st; simpl; [congruence|lia]).
  split.
  - unfold markPathElements, markPathElements_fuel.
    destruct (walkAndApply_ends false (S (length st)) st 0 Hts) as [->|[st1 [-> _]]];
      try lia; reflexivity.
  - intros Htwo.
    destruct (walkAndApply_reset (S (length st)) st 0 Hts Htwo) as
        [st1 [Hw [Hs1 [Hclear _]]]]; try lia.
    exists st1. split; [exact Hw|]. split; [exact Hs1|].
    apply Forall_lookup. intros j o' Hj. apply (Hclear j o' Hj).
    apply up_to_base; [exact Hts|].
    rewrite (same_shape_length _ _ Hs1). eapply lookup_lt_Some. exact Hj.
Qed.

(** A walk on a tree that holds, at or below its start, an internal node
    with fewer than two children throws a [TypeError]. *)
Lemma walkAndApply_TypeError (b : bool) (fuel : nat) :
  forall (st : Store) (i : nat),
    tree_shaped st -> Forall arity_ok st ->
    (length st < i + fuel)%nat -> (i < length st)%nat ->
    (exists j o, st !! j = Some o /\ cls o = InternalNode /\
                 (length (child_refs o) < 2)%nat /\ up st j i) ->
    walkAndApply fuel (set_flag b) st (Some i) = Some (Throw TypeError).
Proof.
  induction fuel as [|fuel IH]; intros st i Hts Har Hfuel Hi Hshort; [lia|].
  destruct (lookup_lt_is_Some_2 st i Hi) as [o Ho].
  simpl. rewrite (apply_to_set_flag b _ _ _ Ho).
  rewrite list_lookup_insert_eq by exact Hi.
  destruct (set_flag_parts b o) as [Hcls [Hcs _]]. rewrite Hcls, Hcs.
  pose proof (same_shape_insert st i o b Ho) as Hs1.
  set (st1 := <[i := set_flag b o]> st) in *.
  pose proof (tree_shaped_same_shape _ _ Hs1 Hts) as Hts1.
  pose proof (same_shape_length _ _ Hs1) as Hlen1.
  pose proof (Forall_lookup_1 _ _ _ _ Har Ho) as Hao. unfold arity_ok in Hao.
  destruct Hshort as [j [oj [Hj [Hkj [Hlj Hup]]]]].
  assert (Hfuel1 : (1 <= fuel)%nat) by lia.
  assert (Hnone : forall st2, walkAndApply fuel (set_flag b) st2 None = Some (Throw TypeError)).
  { intros st2. destruct fuel; [lia|]. reflexivity. }
  assert (Har' : forall st2, same_shape st st2 -> Forall arity_ok st2).
  { intros st2 Hs. apply Forall_lookup. intros k o2 Hk.
    destruct (same_shape_lookup _ _ _ _ (same_shape_sym _ _ Hs) Hk) as [o0 [Hk0 E]].
    apply same_shape_parts in E. destruct E as [E1 [E2 _]].
    pose proof (Forall_lookup_1 _ _ _ _ Har Hk0) as H0. unfold arity_ok in *.
    rewrite E1, E2. exact H0. }
  assert (Hshort' : forall st2 c, same_shape st st2 -> up st j c ->
            exists j' o', st2 !! j' = Some o' /\ cls o' = InternalNode /\
                          (length (child_refs o') < 2)%nat /\ up st2 j' c).
  { intros st2 c Hs Hupc.
    destruct (same_shape_lookup _ _ _ _ Hs Hj) as [oj' [Hj' E]].
    apply same_shape_parts in E. destruct E as [E1 [E2 _]].
    exists j, oj'. split; [exact Hj'|]. split; [congruence|]. split; [congruence|].
    eapply up_same_shape; eauto. }
  destruct (cls o) eqn:Hk.
  - destruct (child_refs o) as [|c0 [|c1 [|c2 cs]]] eqn:Hcs'; simpl in Hao; try lia; simpl.
    + rewrite Hnone. reflexivity.
    + destruct (ts_children _ Hts _ _ c0 Ho) as [Hlt0 [oc0 [Hoc0 _]]].
      { rewrite Hcs'. apply list_elem_of_here. }
      apply lookup_lt_Some in Hoc0.
      destruct (walkAndApply_ends b fuel st1 c0 Hts1) as [H|[st2 [H _]]]; try lia;
        rewrite H; [reflexivity|apply Hnone].
    + destruct (ts_children _ Hts _ _ c0 Ho) as [Hlt0 [oc0 [Hoc0 _]]].
      { rewrite Hcs'. apply list_elem_of_here. }
      destruct (ts_children _ Hts _ _ c1 Ho) as [Hlt1 [oc1 [Hoc1 _]]].
      { rewrite Hcs'. apply list_elem_of_further, list_elem_of_here. }
      apply lookup_lt_Some in Hoc0, Hoc1.
      assert (Hne : j <> i).
      { intros ->. assert (oj = o) by congruence. subst oj. rewrite Hcs' in Hlj.
        simpl in Hlj. lia. }
      destruct (up_through_child _ _ _ _ Hts Hup Hne Ho) as [c [Hc Hupc]].
      rewrite Hcs' in Hc. apply elem_of_cons in Hc. destruct Hc as [->|Hc].
      * rewrite (IH st1 c0 Hts1 (Har' _ Hs1)); try lia; [reflexivity|].
        apply Hshort'; assumption.
      * apply elem_of_cons in Hc. destruct Hc as [->|Hc]; [|inversion Hc].
        destruct (walkAndApply_ends b fuel st1 c0 Hts1) as [H|[st2 [H Hs2]]]; try lia;
          rewrite H; [reflexivity|].
        assert (Hs12 : same_shape st st2) by (eapply same_shape_trans; eauto).
        pose proof (same_shape_length _ _ Hs12) as Hlen2.
        apply IH; try lia.
        -- eapply tree_shaped_same_shape; eauto.
        -- apply Har'. exact Hs12.
        -- apply Hshort'; assumption.
  - exfalso. destruct (decide (j = i)) as [->|Hne]; [congruence|].
    destruct (up_through_child _ _ _ _ Hts Hup Hne Ho) as [c [Hc _]].
    rewrite Hao in Hc. inversion Hc.
Qed.

End HighlighterFacts.

(** ** Parsed trees are trees *)

Section ParsedShape.

Variable T : TreeNodes.

Definition has_parent (o : NodeObj) : Prop := parent_ref o <> None.

(** A round gives the record a parent and takes no parent away. *)
Lemma place_parents (st st' : Store) (stack stack' : list nat) (node : nat) :
  place T (st, stack) node = Ok (st', stack') ->
  (exists o, st' !! node = Some o /\ has_parent o) /\
  (forall i o, st !! i = Some o -> has_parent o ->
               exists o', st' !! i = Some o' /\ has_parent o').
Proof.
  intros H. pose proof H as Hrule. apply place_rule in Hrule.
  destruct Hrule as [d [dl [stack1 [latest [lo Hrule]]]]].
  destruct Hrule as [Hd [_ [_ [_ [Hlo [_ [-> _]]]]]]].
  apply depth_at_Ok in Hd. destruct Hd as [n [Hn Hd]]. inversion Hn. subst n.
  unfold depths in Hd. rewrite list_lookup_fmap in Hd.
  destruct (st !! node) as [on|] eqn:Hon; [|discriminate].
  assert (Hlt : (latest < length st)%nat) by (eapply lookup_lt_Some; eauto).
  split.
  - rewrite list_lookup_alter_eq.
    destruct (decide (latest = node)) as [->|Hne].
    + rewrite list_lookup_insert_eq by exact Hlt. simpl.
      eexists. split; [reflexivity|]. unfold has_parent. simpl. discriminate.
    + rewrite list_lookup_insert_ne by exact Hne. rewrite Hon. simpl.
      eexists. split; [reflexivity|]. unfold has_parent. simpl. discriminate.
  - intros i o Hi Hp. destruct (decide (i = node)) as [->|Hin].
    + rewrite list_lookup_alter_eq.
      destruct (decide (latest = node)) as [->|Hne].
      * rewrite list_lookup_insert_eq by exact Hlt. simpl.
        eexists. split; [reflexivity|]. unfold has_parent. simpl. discriminate.
      * rewrite list_lookup_insert_ne by exact Hne. rewrite Hon. simpl.
        eexists. split; [reflexivity|]. unfold has_parent. simpl. discriminate.
    + rewrite list_lookup_alter_ne by congruence.
      destruct (decide (i = latest)) as [->|Hil].
      * rewrite list_lookup_insert_eq by exact Hlt.
        eexists. split; [reflexivity|]. unfold has_parent in *. simpl.
        assert (lo = o) by congruence. subst lo. exact Hp.
      * rewrite list_lookup_insert_ne by congruence. eauto.
Qed.

Lemma place_all_parents (l : list nat) :
  forall (st st' : Store) (stack stack' : list nat),
    place_all T (st, stack) l = Ok (st', stack') ->
    (forall i, In i l -> exists o, st' !! i = Some o /\ has_parent o) /\
    (forall i o, st !! i = Some o -> has_parent o ->
                 exists o', st' !! i = Some o' /\ has_parent o').
Proof.
  induction l as [|n l IH]; intros st st' stack stack' H; simpl in H.
  - inversion H. subst. split; [intros i []|eauto].
  - apply bind_Ok in H. destruct H as [[st1 stack1] [H1 H]].
    destruct (place_parents _ _ _ _ _ H1) as [[on [Hon Hpn]] Hkeep1].
    destruct (IH _ _ _ _ H) as [Hnew Hkeep].
    split.
    + intros i [<-|Hi]; [eapply Hkeep; eauto|apply Hnew; exact Hi].
    + intros i o Hi Hp. destruct (Hkeep1 _ _ Hi Hp) as [o1 [Hi1 Hp1]]. eauto.
Qed.

(** For a text the parser accepts, whose first record has depth 0 and none
    of whose records has a negative depth, the objects returned form a
    tree: every child comes after its parent and refers back to it, every
    parent lists the objects that refer to it, and every object but the base
    node has a parent. *)
Theorem parser_tree_shaped (text : string) (p : Parsed) :
  parseStatisticsContent T text = Ok p ->
  depths (store p) !! 0%nat = Some 0 ->
  Forall (fun d => 0 <= d) (depths (store p)) ->
  tree_shaped (store p).
Proof.
  intros Hparse H0 Hnn.
  destruct (parse_linked T text p Hparse H0 Hnn)
    as [nodes [stack0 [k [Hnodes [_ [_ [_ [Hlenk Hlinked]]]]]]]].
  pose proof (linked_reference _ _ _ _ Hlinked Hlenk) as Hlinks.
  assert (Hlen : length (depths (store p)) = length (store p)).
  { unfold depths. apply length_map. }
  assert (Href : forall c i, ref_parent (depths (store p)) c = Some i -> (i < c)%nat).
  { intros c i H. unfold ref_parent in H.
    destruct (depths (store p) !! c); [|discriminate].
    apply last_before_Some in H. tauto. }
  constructor.
  - intros i o c Hi Hc. destruct (Hlinks _ _ Hi) as [_ Hcs]. rewrite Hcs in Hc.
    unfold ref_children in Hc. apply list_elem_of_In, filter_In in Hc.
    destruct Hc as [Hin Hrp]. apply bool_decide_eq_true in Hrp.
    split; [apply Href; exact Hrp|].
    apply in_seq in Hin. rewrite Hlen in Hin.
    destruct (lookup_lt_is_Some_2 (store p) c) as [oc Hoc]; [lia|].
    exists oc. split; [exact Hoc|]. destruct (Hlinks _ _ Hoc) as [-> _]. exact Hrp.
  - intros i o q Hi Hq. destruct (Hlinks _ _ Hi) as [Hpar _]. rewrite Hpar in Hq.
    pose proof (Href _ _ Hq) as Hlt. split; [exact Hlt|].
    pose proof (lookup_lt_Some _ _ _ Hi) as Hilt.
    destruct (lookup_lt_is_Some_2 (store p) q) as [po Hpo]; [lia|].
    exists po. split; [exact Hpo|]. destruct (Hlinks _ _ Hpo) as [_ ->].
    unfold ref_children. apply list_elem_of_In, filter_In. split.
    + apply in_seq. rewrite Hlen. lia.
    + apply bool_decide_eq_true. exact Hq.
  - intros i o Hi Hne.
    unfold parseStatisticsContent in Hparse.
    apply bind_Ok in Hparse. destruct Hparse as [nodes' [_ Hparse]].
    destruct nodes' as [|n rest]; [inversion Hparse; subst; discriminate|].
    apply bind_Ok in Hparse. destruct Hparse as [[st stack] [Hloop Hparse]].
    inversion Hparse. subst p. simpl in *.
    destruct (place_all_parents _ _ _ _ _ Hloop) as [Hnew _].
    destruct (Hnew i) as [o' [Hi' Hp']].
    { apply in_seq.
      destruct (place_all_same_records T _ _ _ _ _ Hloop) as [Hc _].
      apply (f_equal length) in Hc. rewrite !length_map in Hc. simpl in Hc.
      apply lookup_lt_Some in Hi. lia. }
    assert (o' = o) by congruence. subst o'. exact Hp'.
Qed.

End ParsedShape.

(** ** Running the highlighter and the layout on parsed trees *)

(** The tree the parser returns for a text, as the layout walks it. *)
Definition parsed_tree (T : TreeNodes) (text : string) : option Node :=
  match parseStatisticsContent T text with
  | Ok p => baseNode p ≫= tree_of (length (store p)) (store p)
  | Throw _ => None
  end.

(** A base node with two leaves, and a base node with one leaf: the depth
    sequences 0, 1, 1 and 0, 1. *)
Definition text_0_1_1 : string :=
  Model.text_of [Model.internal 0; Model.leaf 1; Model.leaf 1].

Definition text_0_1 : string := Model.text_of [Model.internal 0; Model.leaf 1].

Lemma markPathElements_throws_witness :
  exists p st1,
    parseStatisticsContent Model.binary text_0_1_1 = Ok p /\
    markPathElements [0] (store p) 0 = Some (Throw TypeError) /\
    walkAndApply (S (length (store p))) (set_flag false) (store p) (Some 0%nat) =
      Some (Ok st1) /\
    map flag st1 = [false; false; false].
Proof.
  destruct (parseStatisticsContent Model.binary text_0_1_1) as [p|e] eqn:Hp;
    [|vm_compute in Hp; discriminate].
  assert (Hts : tree_shaped (store p)).
  { apply (parser_tree_shaped Model.binary text_0_1_1 p Hp).
    - vm_compute in Hp. inversion Hp. reflexivity.
    - vm_compute in Hp. inversion Hp. vm_compute. repeat constructor; discriminate. }
  assert (Htwo : Forall two_children (store p)).
  { vm_compute in Hp. inversion Hp. repeat constructor. }
  assert (Hne : store p <> []).
  { vm_compute in Hp. inversion Hp. discriminate. }
  destruct (markPathElements_throws [0] (store p) Hts Hne) as [Hm Hreset].
  destruct (Hreset Htwo) as [st1 [Hw _]].
  exists p, st1. split; [reflexivity|]. split; [exact Hm|]. split; [exact Hw|].
  vm_compute in Hp. inversion Hp. subst p. vm_compute in Hw. inversion Hw. reflexivity.
Defined.

(** On the tree of the text 0, 1, whose base node has one child, the
    reset walk of the highlighter throws a [TypeError]. *)
Example markPathElements_one_child :
  exists p,
    parseStatisticsContent Model.binary text_0_1 = Ok p /\
    map child_refs (store p) = [[1%nat]; []] /\
    markPathElements [] (store p) 0 = Some (Throw TypeError).
Proof. eexists. vm_compute. repeat split; reflexivity. Qed.






(** Without a cut-off, the same tree makes both the layout and the
    highlighter throw. *)
Example layout_one_child_TypeError :
  exists tree,
    parsed_tree Model.binary text_0_1 = Some tree /\
    TreeView.generateTreeElements Model.sin Model.cos 10000
      TreeView.default_maxShorteningFactor TreeView.default_minBranchLength
      tree 100 800 800 100 = Throw TypeError /\
    Draw.generateTreeElements Model.sin Model.cos 100 None Draw.strategy_SIMPLE 2 tree =
      Some (Throw TypeError).
Proof. eexists. vm_compute. repeat split; reflexivity. Qed.

(** * Further properties *)

(** ** Depths of a parsed tree *)

(** [hops st i n]: following [parent] from [i] comes to an object without
    parent after [n] steps. *)
Inductive hops (st : Store) : nat -> nat -> Prop :=
  | hops_base (i : nat) (o : NodeObj) :
      st !! i = Some o -> parent_ref o = None -> hops st i 0
  | hops_step (i p n : nat) (o : NodeObj) :
      st !! i = Some o -> parent_ref o = Some p -> hops st p n -> hops st i (S n).

Section ParsedDepths.

Variable T : TreeNodes.

(** X1. For a text the parser accepts, whose first record has depth 0 and
    none of whose records has a negative depth: the base node has no parent;
    every other node has a parent, which is an earlier record, lists the
    node among its children and is one level higher; and the depth of every
    node is the number of [parent] steps from it to the base node. *)
Theorem parser_depth_is_level (text : string) (p : Parsed) :
  parseStatisticsContent T text = Ok p ->
  depths (store p) !! 0%nat = Some 0 ->
  Forall (fun d => 0 <= d) (depths (store p)) ->
  forall i o, store p !! i = Some o ->
    (i = 0%nat -> parent_ref o = None) /\
    (i <> 0%nat ->
     exists q po, parent_ref o = Some q /\ (q < i)%nat /\ store p !! q = Some po /\
                  i ∈ child_refs po /\ depth (fields po) = depth (fields o) - 1) /\
    hops (store p) i (Z.to_nat (depth (fields o))).
Proof.
  intros Hparse H0 Hnn.
  pose proof (parser_tree_shaped T text p Hparse H0 Hnn) as Hts.
  destruct (parse_linked T text p Hparse H0 Hnn)
    as [nodes [stack0 [k [_ [_ [_ [_ [Hlenk Hlinked]]]]]]]].
  pose proof (linked_reference _ _ _ _ Hlinked Hlenk) as Hlinks.
  assert (Hpd : forall i o q po, store p !! i = Some o -> parent_ref o = Some q ->
                                 store p !! q = Some po ->
                                 depth (fields po) = depth (fields o) - 1).
  { intros i o q po Hi Hq Hpo. destruct (Hlinks _ _ Hi) as [Hpar _].
    rewrite Hpar in Hq. unfold ref_parent in Hq.
    rewrite (depths_lookup _ _ _ Hi) in Hq.
    apply last_before_Some in Hq. destruct Hq as [_ [Hq _]].
    apply bool_decide_eq_true in Hq. rewrite (depths_lookup _ _ _ Hpo) in Hq.
    congruence. }
  assert (Hroot : forall o, store p !! 0%nat = Some o -> parent_ref o = None).
  { intros o Ho. destruct (parent_ref o) as [q|] eqn:Hq; [|reflexivity].
    destruct (ts_parent _ Hts _ _ _ Ho Hq) as [Hlt _]. lia. }
  assert (Hdepth0 : forall o, store p !! 0%nat = Some o -> depth (fields o) = 0).
  { intros o Ho. rewrite (depths_lookup _ _ _ Ho) in H0. congruence. }
  assert (Hge : forall i o, store p !! i = Some o -> 0 <= depth (fields o)).
  { intros i o Hi. rewrite Forall_forall in Hnn. apply Hnn.
    eapply list_elem_of_lookup_2. apply depths_lookup. exact Hi. }
  intros i. induction i as [i IH] using lt_wf_ind. intros o Hi.
  split; [intros ->; apply Hroot; exact Hi|].
  destruct (decide (i = 0%nat)) as [->|Hne].
  - split; [congruence|]. rewrite (Hdepth0 _ Hi). simpl.
    eapply hops_base; [exact Hi|apply Hroot; exact Hi].
  - destruct (parent_ref o) as [q|] eqn:Hq;
      [|exfalso; eapply (ts_rooted _ Hts); eauto].
    destruct (ts_parent _ Hts _ _ _ Hi Hq) as [Hlt [po [Hpo Hin]]].
    pose proof (Hpd _ _ _ _ Hi Hq Hpo) as Hd.
    split; [intros _; exists q, po; auto|].
    destruct (IH q Hlt po Hpo) as [_ [_ Hh]].
    pose proof (Hge _ _ Hpo) as Hq0.
    replace (Z.to_nat (depth (fields o))) with (S (Z.to_nat (depth (fields po)))) by lia.
    eapply hops_step; eauto.
Qed.

End ParsedDepths.

Lemma parser_depth_is_level_witness :
  exists p,
    parseStatisticsContent Model.binary
      (Model.text_of (map Model.internal [0; 1; 2; 2; 1]%nat)) = Ok p /\
    forall i o, store p !! i = Some o ->
      hops (store p) i (Z.to_nat (depth (fields o))).
Proof.
  destruct (parseStatisticsContent Model.binary
              (Model.text_of (map Model.internal [0; 1; 2; 2; 1]%nat))) as [p|e] eqn:Hp;
    [|vm_compute in Hp; discriminate].
  exists p. split; [reflexivity|]. intros i o Hi.
  apply (parser_depth_is_level Model.binary _ p Hp); [| |exact Hi].
  - vm_compute in Hp. inversion Hp. reflexivity.
  - vm_compute in Hp. inversion Hp. vm_compute. repeat constructor; discriminate.
Defined.

(** ** The outcome of the parser on a sequence of depths *)

(** The first depth, after a record of depth [prev], that the loop of the
    parser does not get past, with what it throws there: a depth more than
    one above the depth before it, or the depth 0 of a second base node. *)
Fixpoint first_bad_depth (prev : Z) (ds : list Z) : option Error :=
  match ds with
  | [] => None
  | d :: rest =>
      if prev + 1 <? d then Some StructuralError
      else if d =? 0 then Some TypeError
      else first_bad_depth d rest
  end.

Section ParserOutcome.

Variable T : TreeNodes.
Hypothesis Htakes : forall o, takes_child T o = true.

Lemma place_outcome (ds : list Z) (k : nat) (st : Store) (stack : list nat) (dk d : Z) :
  linked_to ds k st stack -> JS.last_item stack = Some k ->
  ds !! k = Some dk -> ds !! S k = Some d -> 0 <= d ->
  (dk + 1 < d -> place T (st, stack) (S k) = Throw StructuralError) /\
  (d = 0 -> place T (st, stack) (S k) = Throw TypeError) /\
  (1 <= d <= dk + 1 ->
   exists st' stack', place T (st, stack) (S k) = Ok (st', stack') /\
                      JS.last_item stack' = Some (S k)).
Proof.
  intros Hlinked Htop Hdk Hd Hd0.
  pose proof Hlinked as [Hds Hstack Hne _ _].
  pose proof (last_item_Some _ _ Htop) as [_ Htop'].
  destruct (Hstack _ _ Htop') as [_ [Htd _]].
  assert (Hlen : dk = Z.of_nat (length stack - 1)) by congruence.
  assert (Hpos : (0 < length stack)%nat) by (destruct stack; simpl; [congruence|lia]).
  assert (Hdk_at : depth_at st (JS.last_item stack) = Ok dk).
  { apply depth_at_Ok. exists k. split; [exact Htop|]. rewrite Hds. exact Hdk. }
  assert (Hd_at : depth_at st (Some (S k)) = Ok d).
  { apply depth_at_Ok. exists (S k). split; [reflexivity|]. rewrite Hds. exact Hd. }
  split; [|split].
  - intros Hgt. apply place_StructuralError. exists d, dk. repeat split; auto. lia.
  - intros ->. unfold place. rewrite Hd_at, Hdk_at. cbv [bind].
    destruct (Z.eqb_spec 0 (dk + 1)) as [E|E]; [lia|].
    destruct (Z.eqb_spec 0 dk) as [E2|E2].
    + assert (length stack = 1%nat) by lia.
      destruct stack as [|s [|s' stack]]; simpl in *; try lia. reflexivity.
    + destruct (Z.ltb_spec 0 dk) as [E3|E3]; [|lia].
      unfold JS.slice0. simpl. rewrite Z.min_l by lia. reflexivity.
  - intros Hrange. unfold place. rewrite Hd_at, Hdk_at. cbv [bind].
    set (D := Z.to_nat d).
    assert (Hadj : exists stack1,
               (if d =? dk + 1 then Ok stack
                else if d =? dk then Ok (JS.pop stack)
                else if d <? dk then Ok (JS.slice0 stack d)
                else Throw StructuralError) = Ok stack1).
    { destruct (Z.eqb_spec d (dk + 1)); [eauto|].
      destruct (Z.eqb_spec d dk); [eauto|].
      destruct (Z.ltb_spec d dk); [eauto|lia]. }
    destruct Hadj as [stack1 Hadj]. rewrite Hadj.
    destruct (adjusted_stack _ _ _ _ Hne Hlen Hd0 Hadj) as [-> HD]. fold D in HD |- *.
    assert (HlenD : length (take D stack) = D) by (apply length_take_le; exact HD).
    assert (HD1 : (1 <= D)%nat) by (unfold D; lia).
    destruct (lookup_lt_is_Some_2 stack (D - 1)) as [q Hq]; [lia|].
    assert (Hlast : JS.last_item (take D stack) = Some q).
    { unfold JS.last_item. rewrite HlenD. rewrite lookup_take_lt by lia. exact Hq. }
    destruct (Hstack _ _ Hq) as [Hqk [Hqd _]].
    assert (Hqlt : (q < length st)%nat).
    { apply lookup_lt_Some in Hqd. rewrite <- Hds in Hqd. unfold depths in Hqd.
      rewrite length_map in Hqd. exact Hqd. }
    destruct (lookup_lt_is_Some_2 st q Hqlt) as [qo Hqo].
    unfold add. rewrite Hlast. cbv [bind defined]. rewrite Hqo. rewrite Htakes.
    eexists _, _. split; [reflexivity|]. apply last_item_snoc.
Qed.

Lemma place_all_outcome (ds : list Z) (r : nat) :
  forall (k : nat) (st : Store) (stack : list nat) (dk : Z),
    linked_to ds k st stack -> JS.last_item stack = Some k ->
    ds !! k = Some dk -> Forall (fun d => 0 <= d) ds ->
    (S k + r)%nat = length ds ->
    match first_bad_depth dk (drop (S k) ds) with
    | Some e => place_all T (st, stack) (seq (S k) r) = Throw e
    | None => exists s', place_all T (st, stack) (seq (S k) r) = Ok s'
    end.
Proof.
  induction r as [|r IH]; intros k st stack dk Hlinked Htop Hdk Hnn Hlen.
  - rewrite drop_ge by lia. simpl. eauto.
  - destruct (lookup_lt_is_Some_2 ds (S k)) as [d Hd]; [lia|].
    rewrite (drop_S _ _ _ Hd).
    change (seq (S k) (S r)) with (S k :: seq (S (S k)) r).
    cbn [first_bad_depth place_all].
    assert (Hd0 : 0 <= d).
    { rewrite Forall_forall in Hnn. apply Hnn. eapply list_elem_of_lookup_2. exact Hd. }
    destruct (place_outcome ds k st stack dk d Hlinked Htop Hdk Hd Hd0)
      as [Hjump [Hzero Hgood]].
    destruct (Z.ltb_spec (dk + 1) d) as [E1|E1].
    { rewrite (Hjump E1). reflexivity. }
    destruct (Z.eqb_spec d 0) as [E2|E2].
    { rewrite (Hzero E2). reflexivity. }
    destruct Hgood as [st' [stack' [Hplace Htop']]]; [lia|].
    rewrite Hplace. cbv [bind].
    apply (IH (S k) st' stack' d); auto; [|lia].
    eapply place_linked; eauto.
Qed.

(** X2. When [add] takes every child, and the records of a text have 11
    or 6 fields, a first depth of 0 and no negative depth, the depths decide
    what the parser does: it returns a tree when every later depth is at
    least 1 and at most one more than the depth before it; it throws
    "Malformed statistics content" at the first depth that is more than one
    above the depth before it; and it throws a [TypeError] at a second
    record of depth 0, whichever comes first. *)
Theorem parser_outcome (text : string) (nodes : Store) (ds : list Z) :
  mapR (parseLine T) (lines_of text) = Ok nodes ->
  depths nodes = 0 :: ds ->
  Forall (fun d => 0 <= d) ds ->
  match first_bad_depth 0 ds with
  | Some e => parseStatisticsContent T text = Throw e
  | None => exists p, parseStatisticsContent T text = Ok p
  end.
Proof.
  intros Hnodes Hds Hnn. unfold parseStatisticsContent. rewrite Hnodes.
  destruct nodes as [|n rest]; [discriminate|].
  assert (Hstart : linked_to (depths (n :: rest)) 0 (n :: rest) [0%nat]).
  { apply linked_to_start; [rewrite Hds; reflexivity|].
    eapply mapR_parseLine_fresh. exact Hnodes. }
  assert (Hlen : (1 + length rest)%nat = length (depths (n :: rest))).
  { unfold depths. rewrite length_map. reflexivity. }
  assert (Hnn' : Forall (fun d => 0 <= d) (depths (n :: rest))).
  { rewrite Hds. constructor; [lia|exact Hnn]. }
  assert (H0 : depths (n :: rest) !! 0%nat = Some 0) by (rewrite Hds; reflexivity).
  pose proof (place_all_outcome (depths (n :: rest)) (length rest) 0 (n :: rest) [0%nat] 0
                Hstart eq_refl H0 Hnn' Hlen) as H.
  rewrite Hds in H. cbn [drop] in H. change (drop 0 ds) with ds in H.
  destruct (first_bad_depth 0 ds) as [e|]; cbv [bind].
  - rewrite H. reflexivity.
  - destruct H as [[st stack] H]. rewrite H. eauto.
Qed.

End ParserOutcome.

Lemma parser_outcome_witness :
  parseStatisticsContent Model.accumulating
    (Model.text_of (map Model.internal [0; 1; 2; 0; 3]%nat)) = Throw TypeError.
Proof.
  apply (parser_outcome Model.accumulating (fun _ => eq_refl)
           (Model.text_of (map Model.internal [0; 1; 2; 0; 3]%nat))
           (map (fun d => mkObj InternalNode (mkFields d 100 0.5 0 0 0 [] 0 false) [] None)
                [0; 1; 2; 0; 3])
           [1; 2; 0; 3]).
  - vm_compute. reflexivity.
  - reflexivity.
  - repeat constructor; discriminate.
Defined.

(** ** More on the layout of [TreeView.js] *)

(** The end point of a branch, from its start, its angle and its length; and,
    on a node the recursion went on from, where the branches of the first
    two children start and which way they turn. *)
Definition end_point (Math_sin Math_cos : float -> float) (g : Geometry) : Prop :=
  g_x2 g = (g_x g + g_length g * Math_sin (g_angle g))%float /\
  g_y2 g = (g_y g - g_length g * Math_cos (g_angle g))%float.

Definition end_point_ok (Math_sin Math_cos : float -> float) (b : Node) : Prop :=
  exists g, geometry b = Some g /\ end_point Math_sin Math_cos g.

Definition children_attached (maxDepth : Z) (b : Node) : Prop :=
  at_cutoff maxDepth b = false -> is_leaf b = false ->
  exists l r others g gl gr,
    children b = l :: r :: others /\
    geometry b = Some g /\ geometry l = Some gl /\ geometry r = Some gr /\
    g_x gl = g_x2 g /\ g_y gl = g_y2 g /\
    g_x gr = g_x2 g /\ g_y gr = g_y2 g /\
    g_angle gl = (g_angle g - JS.Math_abs (node_samples l / node_samples b - 1))%float /\
    g_angle gr = (g_angle g + JS.Math_abs (node_samples r / node_samples b - 1))%float.

Section LayoutMore.

Variables Math_sin Math_cos : float -> float.
Variables (maxDepth : Z) (maxShorteningFactor minBranchLength : float).

Local Abbreviation branch_at :=
  (TreeView.branch_at Math_sin Math_cos maxDepth maxShorteningFactor minBranchLength).

Lemma set_depth_set_depth (d d' : Z) (f : Fields) :
  set_depth d (set_depth d' f) = set_depth d f.
Proof. reflexivity. Qed.

(** A second call of [branch] on a node, with the arguments of the first,
    leaves the node as it is and pushes the same elements. *)
Lemma branch_at_again (n : Node) :
  forall (x y angle len : float) (depth : Z) (n' : Node) (e : TreeView.Elements),
    branch_at n x y angle len depth = Ok (n', e) ->
    branch_at n' x y angle len depth = Ok (n', e).
Proof.
  induction n as [k f g0 cs IH] using Node_induction.
  intros x y angle len depth n' e H.
  pose proof (branch_at_Ok _ _ _ _ _ _ _ _ _ _ _ _ _ H) as Hcases. simpl in Hcases.
  destruct Hcases as [[Hd [-> ->]]|[[Hd [Hk [-> ->]]]|[Hd [Hk Hint]]]].
  - simpl. destruct (Z.eqb_spec depth (maxDepth - 1)); [|contradiction]. reflexivity.
  - simpl in Hk. subst k. simpl.
    destruct (Z.eqb_spec depth (maxDepth - 1)); [contradiction|]. reflexivity.
  - destruct Hint as [l [r [others [l' [r' [el [er [Hcs [Hl [Hr [-> ->]]]]]]]]]]].
    simpl in Hcs, Hk. subst cs k.
    inversion IH as [|? ? IHl IH']. inversion IH' as [|? ? IHr _]. subst.
    destruct (branch_at_head _ _ _ _ _ _ _ _ _ _ _ _ _ Hl) as [_ [Hfl _]].
    destruct (branch_at_head _ _ _ _ _ _ _ _ _ _ _ _ _ Hr) as [_ [Hfr _]].
    apply IHl in Hl. apply IHr in Hr.
    unfold child_length, child_angle_left, child_angle_right, node_samples in Hl, Hr.
    simpl in Hl, Hr.
    simpl. destruct (Z.eqb_spec depth (maxDepth - 1)); [contradiction|].
    unfold node_samples. rewrite Hfl, Hfr. simpl.
    rewrite Hl. simpl. rewrite Hr. simpl. reflexivity.
Qed.

(** Every call of [branch] pushes one node, and one leaf or one bunch unless
    it goes on to two more calls. *)
Lemma branch_at_counts (n : Node) :
  forall (x y angle len : float) (depth : Z) (n' : Node) (e : TreeView.Elements),
    branch_at n x y angle len depth = Ok (n', e) ->
    (length (TreeView.branches e) + 1 =
     2 * (length (TreeView.leafs e) + length (TreeView.bunches e)))%nat.
Proof.
  induction n as [k f g0 cs IH] using Node_induction.
  intros x y angle len depth n' e H.
  pose proof (branch_at_Ok _ _ _ _ _ _ _ _ _ _ _ _ _ H) as Hcases. simpl in Hcases.
  destruct Hcases as [[Hd [-> ->]]|[[Hd [Hk [-> ->]]]|[Hd [Hk Hint]]]];
    [reflexivity|reflexivity|].
  destruct Hint as [l [r [others [l' [r' [el [er [Hcs [Hl [Hr [-> ->]]]]]]]]]]].
  simpl in Hcs. subst cs.
  inversion IH as [|? ? IHl IH']. inversion IH' as [|? ? IHr _]. subst.
  apply IHl in Hl. apply IHr in Hr.
  cbn [TreeView.join TreeView.branches TreeView.leafs TreeView.bunches app length].
  rewrite !length_app. lia.
Qed.

Lemma branch_at_positions (n : Node) :
  forall (x y angle len : float) (depth : Z) (n' : Node) (e : TreeView.Elements),
    branch_at n x y angle len depth = Ok (n', e) ->
    Forall (end_point_ok Math_sin Math_cos) (TreeView.branches e) /\
    Forall (children_attached maxDepth) (TreeView.branches e).
Proof.
  induction n as [k f g0 cs IH] using Node_induction.
  intros x y angle len depth n' e H.
  pose proof (branch_at_Ok _ _ _ _ _ _ _ _ _ _ _ _ _ H) as Hcases. simpl in Hcases.
  destruct Hcases as [[Hd [-> ->]]|[[Hd [Hk [-> ->]]]|[Hd [Hk Hint]]]].
  - simpl. split; (constructor; [|constructor]).
    + eexists. split; [reflexivity|]. split; reflexivity.
    + intros Hcut. exfalso. unfold at_cutoff, node_depth in Hcut. simpl in Hcut.
      apply Z.eqb_neq in Hcut. contradiction.
  - simpl in Hk. subst k. simpl. split; (constructor; [|constructor]).
    + eexists. split; [reflexivity|]. split; reflexivity.
    + intros _ Hleaf. discriminate.
  - destruct Hint as [l [r [others [l' [r' [el [er [Hcs [Hl [Hr [-> ->]]]]]]]]]]].
    simpl in Hcs, Hk. subst cs k.
    inversion IH as [|? ? IHl IH']. inversion IH' as [|? ? IHr _]. subst.
    destruct (branch_at_head _ _ _ _ _ _ _ _ _ _ _ _ _ Hl) as [_ [Hfl [Hgl _]]].
    destruct (branch_at_head _ _ _ _ _ _ _ _ _ _ _ _ _ Hr) as [_ [Hfr [Hgr _]]].
    destruct (IHl _ _ _ _ _ _ _ Hl) as [Hl1 Hl2].
    destruct (IHr _ _ _ _ _ _ _ Hr) as [Hr1 Hr2].
    cbn [TreeView.join TreeView.branches app]. split.
    + constructor.
      * eexists. split; [reflexivity|]. split; reflexivity.
      * apply Forall_app. split; assumption.
    + constructor.
      * intros _ _. eexists l', r', others, _, _, _.
        split; [reflexivity|]. split; [reflexivity|].
        split; [exact Hgl|]. split; [exact Hgr|].
        unfold node_samples. rewrite Hfl, Hfr. simpl.
        repeat split; reflexivity.
      * apply Forall_app. split; assumption.
Qed.

End LayoutMore.

(** X3. Laying a tree out a second time, as every [render] does on the tree
    object the first one wrote to, gives the same result: the node that the
    first layout left first in [branches] is the tree as it is then, and
    the layout of it with the same arguments returns the same elements. *)
Theorem layout_again (Math_sin Math_cos : float -> float) (maxDepth : Z)
        (maxShorteningFactor minBranchLength : float) (tree : Node)
        (totalSamples width height trunkLength : float) (e : TreeView.Elements) :
  TreeView.generateTreeElements Math_sin Math_cos maxDepth maxShorteningFactor
    minBranchLength tree totalSamples width height trunkLength = Ok e ->
  exists root rest,
    TreeView.branches e = root :: rest /\
    TreeView.generateTreeElements Math_sin Math_cos maxDepth maxShorteningFactor
      minBranchLength root totalSamples width height trunkLength = Ok e.
Proof.
  intros H. apply generateTreeElements_Ok in H. destruct H as [n' [e' [H ->]]].
  destruct (branch_at_head _ _ _ _ _ _ _ _ _ _ _ _ _ H) as [_ [_ [_ [rest Hrest]]]].
  exists n', rest. split; [exact Hrest|].
  apply generateTreeElements_Ok. exists n', e'. split; [|reflexivity].
  eapply branch_at_again. exact H.
Qed.

Lemma layout_again_witness :
  exists e root rest,
    TreeView.generateTreeElements Model.sin Model.cos 10000
      TreeView.default_maxShorteningFactor TreeView.default_minBranchLength
      two_leaves 100 800 800 100 = Ok e /\
    TreeView.branches e = root :: rest /\
    root <> two_leaves /\
    TreeView.generateTreeElements Model.sin Model.cos 10000
      TreeView.default_maxShorteningFactor TreeView.default_minBranchLength
      root 100 800 800 100 = Ok e.
Proof.
  destruct (TreeView.generateTreeElements Model.sin Model.cos 10000
              TreeView.default_maxShorteningFactor TreeView.default_minBranchLength
              two_leaves 100 800 800 100) as [e|err] eqn:E;
    [|vm_compute in E; discriminate].
  destruct (layout_again Model.sin Model.cos 10000 TreeView.default_maxShorteningFactor
              TreeView.default_minBranchLength two_leaves 100 800 800 100 e E)
    as [root [rest [Hb Hr]]].
  exists e, root, rest. split; [reflexivity|]. split; [exact Hb|]. split; [|exact Hr].
  vm_compute in E. inversion E. subst e. clear E. simpl in Hb. inversion Hb.
  discriminate.
Defined.

(** X4. The layout of [TreeView.js] returns one branch less than twice the
    number of end points: every leaf and every bunch ends one branch, and
    every other branch goes on to exactly two. *)
Theorem layout_counts (Math_sin Math_cos : float -> float) (maxDepth : Z)
        (maxShorteningFactor minBranchLength : float) (tree : Node)
        (totalSamples width height trunkLength : float) (e : TreeView.Elements) :
  TreeView.generateTreeElements Math_sin Math_cos maxDepth maxShorteningFactor
    minBranchLength tree totalSamples width height trunkLength = Ok e ->
  (length (TreeView.branches e) + 1 =
   2 * (length (TreeView.leafs e) + length (TreeView.bunches e)))%nat.
Proof.
  intros H. apply generateTreeElements_Ok in H. destruct H as [n' [e' [H ->]]].
  apply branch_at_counts in H. unfold sorted_elements. simpl.
  rewrite !(Permutation_length (sort_Permutation _ _)). exact H.
Qed.

Lemma layout_counts_witness :
  exists e,
    TreeView.generateTreeElements Model.sin Model.cos 10000
      TreeView.default_maxShorteningFactor TreeView.default_minBranchLength
      two_leaves 100 800 800 100 = Ok e /\
    (length (TreeView.branches e) + 1 =
     2 * (length (TreeView.leafs e) + length (TreeView.bunches e)))%nat /\
    length (TreeView.branches e) = 3%nat.
Proof.
  eexists. split; [vm_compute; reflexivity|]. split; [|reflexivity].
  apply (layout_counts Model.sin Model.cos 10000 TreeView.default_maxShorteningFactor
           TreeView.default_minBranchLength two_leaves 100 800 800 100).
  vm_compute. reflexivity.
Defined.

(** X5. The branches of the layout of [TreeView.js] hang together: the
    branch of the base node starts at [(width / 2, height)] with the angle 0
    and the depth 0; every branch ends at
    [(x + length * sin (angle), y - length * cos (angle))]; and where the
    recursion went on, the branches of the two children start at that end
    point, the first turned to the left and the second to the right by
    [|child.samples / node.samples - 1|]. *)
Theorem layout_positions (Math_sin Math_cos : float -> float) (maxDepth : Z)
        (maxShorteningFactor minBranchLength : float) (tree : Node)
        (totalSamples width height trunkLength : float) (e : TreeView.Elements) :
  TreeView.generateTreeElements Math_sin Math_cos maxDepth maxShorteningFactor
    minBranchLength tree totalSamples width height trunkLength = Ok e ->
  (exists root rest g,
     TreeView.branches e = root :: rest /\ geometry root = Some g /\
     g_x g = (width / 2)%float /\ g_y g = height /\ g_angle g = 0%float /\
     node_depth root = 0) /\
  Forall (end_point_ok Math_sin Math_cos) (TreeView.branches e) /\
  Forall (children_attached maxDepth) (TreeView.branches e).
Proof.
  intros H. apply generateTreeElements_Ok in H. destruct H as [n' [e' [H ->]]].
  destruct (branch_at_head _ _ _ _ _ _ _ _ _ _ _ _ _ H) as [_ [Hf [Hg [rest Hrest]]]].
  split.
  - exists n', rest. eexists. split; [exact Hrest|]. split; [exact Hg|].
    unfold node_depth. rewrite Hf. repeat split; reflexivity.
  - apply branch_at_positions in H. exact H.
Qed.

Lemma layout_positions_witness :
  exists e,
    TreeView.generateTreeElements Model.sin Model.cos 10000
      TreeView.default_maxShorteningFactor TreeView.default_minBranchLength
      two_leaves 100 800 800 100 = Ok e /\
    Forall (children_attached 10000) (TreeView.branches e) /\
    map (fun b => g_y <$> geometry b) (TreeView.branches e) =
      [Some 800; Some 700; Some 700]%float.
Proof.
  eexists. split; [vm_compute; reflexivity|]. split; [|vm_compute; reflexivity].
  apply (layout_positions Model.sin Model.cos 10000 TreeView.default_maxShorteningFactor
           TreeView.default_minBranchLength two_leaves 100 800 800 100).
  vm_compute. reflexivity.
Defined.

(** ** The layout of [draw.mjs] *)

(** The branch of the base node. *)
Definition base_branch (b : Draw.BranchRecord) : Prop :=
  depth (Draw.b_fields b) = 0 /\
  g_x (Draw.b_geometry b) = 400%float /\ g_y (Draw.b_geometry b) = 800%float /\
  g_angle (Draw.b_geometry b) = 0%float /\ g_length (Draw.b_geometry b) = 100%float.

(** A branch on the branch it hangs on: one level further down, from the end
    point of that branch on, with a length that grows with its share of
    [totalSamples]. *)
Definition hangs_on (totalSamples : float) (parent b : Draw.BranchRecord) : Prop :=
  depth (Draw.b_fields b) = depth (Draw.b_fields parent) + 1 /\
  g_x (Draw.b_geometry b) = g_x2 (Draw.b_geometry parent) /\
  g_y (Draw.b_geometry b) = g_y2 (Draw.b_geometry parent) /\
  g_length (Draw.b_geometry b) =
    (4 + samples (Draw.b_fields b) / totalSamples * 100)%float.

(** What holds of the branch at position [i] of the array [bs]. *)
Definition branch_ok (Math_sin Math_cos : float -> float) (totalSamples : float)
           (bs : list Draw.BranchRecord) (i : nat) (b : Draw.BranchRecord) : Prop :=
  Draw.b_index b = i /\
  end_point Math_sin Math_cos (Draw.b_geometry b) /\
  match Draw.b_parent b with
  | None => i = 0%nat /\ base_branch b
  | Some p => (p < i)%nat /\ exists pb, bs !! p = Some pb /\ hangs_on totalSamples pb b
  end.

(** The height of a tree, over all children. *)
Fixpoint node_height (n : Node) : nat :=
  match n with
  | mkNode _ _ _ cs =>
      S ((fix highest (l : list Node) : nat :=
            match l with
            | [] => 0%nat
            | c :: l' => Nat.max (node_height c) (highest l')
            end) cs)
  end.

Section DrawFacts.

Variables Math_sin Math_cos : float -> float.
Variable totalSamples : float.
Variable maxDepth : option Z.

Local Abbreviation branch := (Draw.branch Math_sin Math_cos totalSamples maxDepth).
Local Abbreviation branch_ok := (branch_ok Math_sin Math_cos totalSamples).

Lemma branch_ok_more (bs more : list Draw.BranchRecord) (i : nat) (b : Draw.BranchRecord) :
  branch_ok bs i b -> branch_ok (bs ++ more) i b.
Proof.
  intros [Hi [He Hp]]. split; [exact Hi|]. split; [exact He|].
  destruct (Draw.b_parent b) as [p|]; [|exact Hp].
  destruct Hp as [Hlt [pb [Hpb Hh]]]. split; [exact Hlt|].
  exists pb. split; [|exact Hh]. apply lookup_app_l_Some. exact Hpb.
Qed.

Definition branches_ok (e : Draw.Elements) : Prop :=
  forall i b, Draw.branches e !! i = Some b -> branch_ok (Draw.branches e) i b.

Lemma branches_ok_push (e : Draw.Elements) (b : Draw.BranchRecord)
      (ls : list Draw.LeafRecord) :
  branches_ok e -> branch_ok (Draw.branches e) (length (Draw.branches e)) b ->
  branches_ok (Draw.mkElements (Draw.branches e ++ [b]) ls).
Proof.
  intros Hinv Hb i b' Hi. simpl in *.
  apply lookup_app_Some in Hi. destruct Hi as [Hi|[Hge Hi]].
  - apply branch_ok_more. apply Hinv. exact Hi.
  - apply list_lookup_singleton_Some in Hi. destruct Hi as [Hi ->].
    replace i with (length (Draw.branches e)) by lia.
    apply branch_ok_more. exact Hb.
Qed.

(** The branch of a child, placed behind the branches pushed so far. *)
Lemma child_branch_ok (node : Draw.Placed) (bs : list Draw.BranchRecord) (c : Node)
      (angle : float) :
  bs !! Draw.p_index node = Some (Draw.removeChildReferences node) ->
  branch_ok bs (length bs)
    (Draw.removeChildReferences
       (Draw.addBranchInformation Math_sin Math_cos c (length bs)
          (g_x2 (Draw.p_geometry node)) (g_y2 (Draw.p_geometry node)) angle
          (4 + node_samples c / totalSamples * 100)%float
          (Draw.p_depth node + 1) (Some (Draw.p_index node)))).
Proof.
  intros Hnode. split; [reflexivity|]. split; [split; reflexivity|]. simpl.
  split; [eapply lookup_lt_Some; exact Hnode|].
  eexists. split; [exact Hnode|]. repeat split; reflexivity.
Qed.

Section AnyStrategy.

Variable strategy : Draw.Strategy.

(** What a call of [branch] that returns adds to the two arrays. *)
Lemma branch_pushes (fuel : nat) :
  forall (node : Draw.Placed) (e e' : Draw.Elements),
    branch strategy fuel node e = Some (Ok e') ->
    branches_ok e ->
    branch_ok (Draw.branches e) (length (Draw.branches e))
              (Draw.removeChildReferences node) ->
    branches_ok e' /\
    (exists more, Draw.branches e' =
                  Draw.branches e ++ Draw.removeChildReferences node :: more) /\
    (length (Draw.branches e') + 1 + 2 * length (Draw.leafs e) =
     length (Draw.branches e) + 2 * length (Draw.leafs e'))%nat.
Proof.
  induction fuel as [|fuel IH]; intros node e e' H Hinv Hnode; [discriminate|].
  cbn [Draw.branch] in H.
  pose proof (branches_ok_push e _ (Draw.leafs e) Hinv Hnode) as Hinv0.
  destruct ((length (children (Draw.p_node node)) =? 0)%nat
            || Draw.at_maxDepth maxDepth (Draw.p_depth node)).
  { inversion H. subst e'. clear H. cbn [Draw.branches Draw.leafs] in *.
    split; [|split].
    - intros i b Hi. apply (Hinv0 i b). exact Hi.
    - exists []. reflexivity.
    - rewrite !length_app. simpl. lia. }
  destruct (strategy node) as [[[l|] [r|]]|err]; try discriminate.
  match type of H with
  | match branch _ _ ?lp ?e0 with _ => _ end = _ =>
      destruct (branch strategy fuel lp e0) as [[e1|err]|] eqn:El; try discriminate
  end.
  assert (Hat : (Draw.branches e ++ [Draw.removeChildReferences node])
                  !! Draw.p_index node = Some (Draw.removeChildReferences node)).
  { destruct Hnode as [Hidx _]. simpl in Hidx. rewrite Hidx.
    rewrite lookup_app_r by lia. rewrite Nat.sub_diag. reflexivity. }
  apply IH in El; [|exact Hinv0|].
  2:{ cbn [Draw.branches]. apply child_branch_ok. exact Hat. }
  destruct El as [Hinv1 [[more1 Hb1] Hc1]]. cbn [Draw.branches Draw.leafs] in Hb1, Hc1.
  apply IH in H; [|exact Hinv1|].
  2:{ apply child_branch_ok. rewrite Hb1. apply lookup_app_l_Some. exact Hat. }
  destruct H as [Hinv2 [[more2 Hb2] Hc2]].
  split; [exact Hinv2|]. split.
  - eexists. rewrite Hb2, Hb1. rewrite <- !app_assoc. simpl. reflexivity.
  - rewrite length_app in Hc1. simpl in Hc1. lia.
Qed.

End AnyStrategy.

End DrawFacts.

(** The two strategies of [branchStrategy] return children of the node, and
    throw nothing but a [TypeError]. *)
Lemma branchStrategy_cases (type : string) (strategy : Draw.Strategy) :
  Draw.branchStrategy type = Ok strategy ->
  strategy = Draw.strategy_SIMPLE \/ strategy = Draw.strategy_UP.
Proof.
  unfold Draw.branchStrategy. intros H.
  destruct (String.eqb type "SIMPLE"); [inversion H; auto|].
  destruct (String.eqb type "UP"); [inversion H; auto|discriminate].
Qed.

Lemma strategy_children (strategy : Draw.Strategy) (node : Draw.Placed) :
  strategy = Draw.strategy_SIMPLE \/ strategy = Draw.strategy_UP ->
  match strategy node with
  | Ok (l, r) =>
      (l = children (Draw.p_node node) !! 0%nat /\
       r = children (Draw.p_node node) !! 1%nat) \/
      (l = children (Draw.p_node node) !! 1%nat /\
       r = children (Draw.p_node node) !! 0%nat)
  | Throw err => err = TypeError /\ children (Draw.p_node node) = []
  end.
Proof.
  intros [->| ->].
  - simpl. auto.
  - unfold Draw.strategy_UP.
    destruct (children (Draw.p_node node)) as [|c cs] eqn:E; [simpl; auto|].
    cbn [lookup list_lookup defined bind].
    destruct (Draw.firstBiggerThanSecond c node), (Draw.leftBound node); simpl; auto.
Qed.

Lemma child_height (n c : Node) (i : nat) :
  children n !! i = Some c -> (node_height c < node_height n)%nat.
Proof.
  destruct n as [k f g cs]. simpl. revert i.
  induction cs as [|c' cs IH]; intros i H; [discriminate|].
  destruct i as [|i]; simpl in H.
  - inversion H. subst c'. lia.
  - apply IH in H. lia.
Qed.

(** Whether the recursion of the layout of [draw.mjs], entering a node at
    some depth, comes to a node with one child only before a node without
    children or the depth [maxDepth - 1] stops it. *)
Fixpoint lone_child (maxDepth : option Z) (n : Node) (depth : Z) : bool :=
  if (length (children n) =? 0)%nat || Draw.at_maxDepth maxDepth depth then false
  else
    match children n with
    | l :: r :: _ => lone_child maxDepth l (depth + 1) || lone_child maxDepth r (depth + 1)
    | _ => true
    end.

Section DrawReturns.

Variables Math_sin Math_cos : float -> float.
Variable totalSamples : float.
Variable maxDepth : option Z.
Variable strategy : Draw.Strategy.
Hypothesis Hstrategy : strategy = Draw.strategy_SIMPLE \/ strategy = Draw.strategy_UP.

Lemma branch_returns (fuel : nat) :
  forall (node : Draw.Placed) (e : Draw.Elements),
    (node_height (Draw.p_node node) <= fuel)%nat ->
    if lone_child maxDepth (Draw.p_node node) (Draw.p_depth node)
    then Draw.branch Math_sin Math_cos totalSamples maxDepth strategy fuel node e =
           Some (Throw TypeError)
    else exists e', Draw.branch Math_sin Math_cos totalSamples maxDepth strategy fuel
                      node e = Some (Ok e').
Proof.
  induction fuel as [|fuel IH]; intros node e Hh.
  { destruct (Draw.p_node node). simpl in Hh. lia. }
  cbn [Draw.branch].
  destruct node as [[k f g cs] idx geo d par]. cbn [Draw.p_node Draw.p_depth children] in *.
  cbn [lone_child children].
  destruct ((length cs =? 0)%nat || Draw.at_maxDepth maxDepth d) eqn:Estop; [eauto|].
  pose proof (strategy_children strategy (Draw.mkPlaced (mkNode k f g cs) idx geo d par)
                Hstrategy) as Hs.
  cbn [Draw.p_node children] in Hs.
  destruct cs as [|c0 [|c1 cs]]; [discriminate| |].
  - destruct (strategy _) as [[l r]|err]; [|destruct Hs as [_ Hs]; discriminate].
    destruct Hs as [[-> ->]|[-> ->]]; reflexivity.
  - destruct (strategy _) as [[l r]|err]; [|destruct Hs as [_ Hs]; discriminate].
    assert (H0 : (node_height c0 <= fuel)%nat).
    { pose proof (child_height (mkNode k f g (c0 :: c1 :: cs)) c0 0 eq_refl). lia. }
    assert (H1 : (node_height c1 <= fuel)%nat).
    { pose proof (child_height (mkNode k f g (c0 :: c1 :: cs)) c1 1 eq_refl). lia. }
    destruct Hs as [[-> ->]|[-> ->]]; cbn [lookup list_lookup].
    + match goal with
      | |- context [Draw.branch _ _ _ _ _ fuel ?lp ?e0] =>
          pose proof (IH lp e0 H0) as IHl
      end.
      cbn [Draw.p_node Draw.p_depth Draw.addBranchInformation] in IHl.
      destruct (lone_child maxDepth c0 (d + 1)).
      { cbn [orb]. rewrite IHl. reflexivity. }
      destruct IHl as [e1 ->]. cbn [orb].
      match goal with
      | |- context [Draw.branch _ _ _ _ _ fuel ?rp ?e0] =>
          pose proof (IH rp e0 H1) as IHr
      end.
      cbn [Draw.p_node Draw.p_depth Draw.addBranchInformation] in IHr.
      exact IHr.
    + match goal with
      | |- context [Draw.branch _ _ _ _ _ fuel ?lp ?e0] =>
          pose proof (IH lp e0 H1) as IHl
      end.
      cbn [Draw.p_node Draw.p_depth Draw.addBranchInformation] in IHl.
      destruct (lone_child maxDepth c1 (d + 1)).
      { rewrite orb_true_r. rewrite IHl. reflexivity. }
      destruct IHl as [e1 ->]. rewrite orb_false_r.
      match goal with
      | |- context [Draw.branch _ _ _ _ _ fuel ?rp ?e0] =>
          pose proof (IH rp e0 H0) as IHr
      end.
      cbn [Draw.p_node Draw.p_depth Draw.addBranchInformation] in IHr.
      exact IHr.
Qed.

End DrawReturns.

(** X6. In the layout of [draw.mjs], whatever the strategy, the [index] of
    a branch is its position in [branches], so no two branches share one;
    the branch of the base node is the one without a parent, from
    [(400, 800)] upwards with the length 100; every other branch names an
    earlier branch as its parent, starts where that one ends, lies one level
    deeper and has the length [4 + samples / totalSamples * 100]; and every
    branch ends at [(x + length * sin (angle), y - length * cos (angle))]. *)
Theorem draw_branches_linked (Math_sin Math_cos : float -> float) (totalSamples : float)
        (maxDepth : option Z) (strategy : Draw.Strategy) (fuel : nat) (tree : Node)
        (e : Draw.Elements) :
  Draw.generateTreeElements Math_sin Math_cos totalSamples maxDepth strategy fuel tree =
    Some (Ok e) ->
  forall i b, Draw.branches e !! i = Some b ->
              branch_ok Math_sin Math_cos totalSamples (Draw.branches e) i b.
Proof.
  unfold Draw.generateTreeElements. intros H.
  apply branch_pushes in H.
  - destruct H as [H _]. exact H.
  - intros i b Hi. discriminate.
  - split; [reflexivity|]. split; [split; reflexivity|].
    simpl. split; [reflexivity|]. repeat split; reflexivity.
Qed.

Lemma draw_branches_linked_witness :
  exists e,
    Draw.generateTreeElements Model.sin Model.cos 100 None Draw.strategy_SIMPLE 2
      two_leaves = Some (Ok e) /\
    map Draw.b_parent (Draw.branches e) = [None; Some 0%nat; Some 0%nat] /\
    forall i b, Draw.branches e !! i = Some b ->
                branch_ok Model.sin Model.cos 100 (Draw.branches e) i b.
Proof.
  eexists. split; [vm_compute; reflexivity|]. split; [reflexivity|].
  apply (draw_branches_linked Model.sin Model.cos 100 None Draw.strategy_SIMPLE 2
           two_leaves).
  vm_compute. reflexivity.
Defined.

(** X7. The layout of [draw.mjs] returns one branch less than twice the
    number of leafs, whatever the strategy: a branch ends in a leaf or goes
    on to exactly two branches. *)
Theorem draw_counts (Math_sin Math_cos : float -> float) (totalSamples : float)
        (maxDepth : option Z) (strategy : Draw.Strategy) (fuel : nat) (tree : Node)
        (e : Draw.Elements) :
  Draw.generateTreeElements Math_sin Math_cos totalSamples maxDepth strategy fuel tree =
    Some (Ok e) ->
  (length (Draw.branches e) + 1 = 2 * length (Draw.leafs e))%nat.
Proof.
  unfold Draw.generateTreeElements. intros H.
  apply branch_pushes in H.
  - destruct H as [_ [_ H]]. simpl in H. lia.
  - intros i b Hi. discriminate.
  - split; [reflexivity|]. split; [split; reflexivity|].
    simpl. split; [reflexivity|]. repeat split; reflexivity.
Qed.

Lemma draw_counts_witness :
  exists e,
    Draw.generateTreeElements Model.sin Model.cos 100 (Some 2) Draw.strategy_UP 2
      two_leaves = Some (Ok e) /\
    (length (Draw.branches e) + 1 = 2 * length (Draw.leafs e))%nat /\
    length (Draw.leafs e) = 2%nat.
Proof.
  eexists. split; [vm_compute; reflexivity|]. split; [|reflexivity].
  apply (draw_counts Model.sin Model.cos 100 (Some 2) Draw.strategy_UP 2 two_leaves).
  vm_compute. reflexivity.
Defined.

(** X8. With a strategy that [branchStrategy] returns, the layout of
    [draw.mjs] comes to an end on every tree, given fuel for the height of
    the tree. It throws a [TypeError] when the recursion comes to a node
    with one child only, and returns elements when it does not; the
    positions, the angles and the order the strategy puts the children in
    play no part in that. *)
Theorem draw_returns (Math_sin Math_cos : float -> float) (totalSamples : float)
        (maxDepth : option Z) (type : string) (strategy : Draw.Strategy) (fuel : nat)
        (tree : Node) :
  Draw.branchStrategy type = Ok strategy ->
  (node_height tree <= fuel)%nat ->
  if lone_child maxDepth tree 0
  then Draw.generateTreeElements Math_sin Math_cos totalSamples maxDepth strategy fuel
         tree = Some (Throw TypeError)
  else exists e, Draw.generateTreeElements Math_sin Math_cos totalSamples maxDepth
                   strategy fuel tree = Some (Ok e).
Proof.
  intros Ht Hh. apply branchStrategy_cases in Ht.
  unfold Draw.generateTreeElements.
  apply (branch_returns Math_sin Math_cos totalSamples maxDepth strategy Ht fuel
           (Draw.addBranchInformation Math_sin Math_cos tree 0 400 800 0 100 0 None)).
  exact Hh.
Qed.

Lemma draw_returns_witness :
  Draw.generateTreeElements Model.sin Model.cos 100 None Draw.strategy_UP 3
    (sample_node InternalNode 100 [two_leaves; one_leaf]) = Some (Throw TypeError).
Proof.
  apply (draw_returns Model.sin Model.cos 100 None "UP" Draw.strategy_UP 3
           (sample_node InternalNode 100 [two_leaves; one_leaf])).
  - reflexivity.
  - vm_compute. lia.
Defined.

(** ** The tree of a parsed text, whatever its depths *)

Lemma mapR_Ok_Forall2 {A B} (f : A -> Result B) (l : list A) (bs : list B) :
  mapR f l = Ok bs -> Forall2 (fun a b => f a = Ok b) l bs.
Proof.
  revert bs. induction l as [|a l IH]; intros bs H; simpl in H.
  - inversion H. constructor.
  - apply bind_Ok in H. destruct H as [b [Hb H]].
    apply bind_Ok in H. destruct H as [bs' [Hbs H]].
    inversion H. subst bs. constructor; [exact Hb|]. apply IH. exact Hbs.
Qed.

(** What the record of a line is: an internal node for 11 fields, a leaf
    for 6, with the data the constructor reads from the fields. *)
Definition record_of (T : TreeNodes) (line : string) (o : NodeObj) : Prop :=
  (field_count line = 11%nat /\ cls o = InternalNode /\
   fields o = new_InternalNode T (JS.split ";" line)) \/
  (field_count line = 6%nat /\ cls o = LeafNode /\
   fields o = new_LeafNode T (JS.split ";" line)).

Lemma parseLine_record_of (T : TreeNodes) (line : string) (o : NodeObj) :
  parseLine T line = Ok o -> record_of T line o.
Proof.
  unfold parseLine, record_of, field_count.
  destruct (Nat.eqb_spec (length (JS.split ";" line)) 11) as [H11|H11].
  { intros H. inversion H. left. auto. }
  destruct (Nat.eqb_spec (length (JS.split ";" line)) 6) as [H6|H6]; [|discriminate].
  intros H. inversion H. right. auto.
Qed.

Lemma Forall2_same_records (T : TreeNodes) (lines : list string) (nodes st : Store) :
  Forall2 (fun line o => parseLine T line = Ok o) lines nodes ->
  map cls st = map cls nodes -> map fields st = map fields nodes ->
  Forall2 (record_of T) lines st.
Proof.
  intros H. revert st. induction H as [|line o lines nodes Ho _ IH]; intros st Hc Hf.
  - destruct st; [constructor|discriminate].
  - destruct st as [|o' st]; [discriminate|].
    inversion Hc as [[Hc1 Hc2]]. inversion Hf as [[Hf1 Hf2]].
    constructor; [|apply IH; assumption].
    apply parseLine_record_of in Ho. unfold record_of in *. rewrite Hc1, Hf1. exact Ho.
Qed.

(** What holds of the objects after the round for record [k], whatever the
    depths are: the stack holds records up to [k]; the records up to [k]
    are linked into a tree, child to parent and parent to child; and the
    records after [k] have no children yet. *)
Record linked_up_to (k : nat) (st : Store) (stack : list nat) : Prop := {
  lu_stack : forall s, s ∈ stack -> (s <= k)%nat;
  lu_children : forall i o c, st !! i = Some o -> c ∈ child_refs o ->
    (i < c <= k)%nat /\ exists oc, st !! c = Some oc /\ parent_ref oc = Some i;
  lu_parent : forall i o q, st !! i = Some o -> parent_ref o = Some q ->
    (q < i <= k)%nat /\ exists po, st !! q = Some po /\ i ∈ child_refs po;
  lu_rooted : forall i o, st !! i = Some o -> (1 <= i <= k)%nat -> parent_ref o <> None;
  lu_fresh : forall i o, st !! i = Some o -> (k < i)%nat -> child_refs o = []
}.

Section ParsedTree.

Variable T : TreeNodes.

(** The objects after [latest.add (node)]. *)
Lemma added_lookup (st : Store) (latest node : nat) (lo on : NodeObj) (i : nat) :
  latest <> node -> st !! latest = Some lo -> st !! node = Some on ->
  alter (set_parent latest) node (<[latest := push_child node lo]> st) !! i =
    if decide (i = node) then Some (set_parent latest on)
    else if decide (i = latest) then Some (push_child node lo)
    else st !! i.
Proof.
  intros Hne Hlo Hon.
  assert (Hlt : (latest < length st)%nat) by (eapply lookup_lt_Some; eauto).
  destruct (decide (i = node)) as [->|Hin].
  - rewrite list_lookup_alter_eq, list_lookup_insert_ne by exact Hne.
    rewrite Hon. reflexivity.
  - rewrite list_lookup_alter_ne by congruence.
    destruct (decide (i = latest)) as [->|Hil].
    + rewrite list_lookup_insert_eq by exact Hlt. reflexivity.
    + rewrite list_lookup_insert_ne by congruence. reflexivity.
Qed.

Lemma place_linked_up_to (k : nat) (st st' : Store) (stack stack' : list nat) :
  linked_up_to k st stack ->
  place T (st, stack) (S k) = Ok (st', stack') ->
  linked_up_to (S k) st' stack'.
Proof.
  intros [Hstack Hchildren Hparent Hrooted Hfresh] H.
  apply place_rule in H.
  destruct H as [d [dl [stack1 [latest [lo [Hd [_ [Hcases [Hlatest [Hlo [_ [-> ->]]]]]]]]]]]].
  apply depth_at_Ok in Hd. destruct Hd as [n [Hn Hd]]. inversion Hn. subst n.
  unfold depths in Hd. rewrite list_lookup_fmap in Hd.
  destruct (st !! S k) as [on|] eqn:Hon; [|discriminate]. clear Hd.
  assert (Hsub : forall s, s ∈ stack1 -> s ∈ stack).
  { intros s Hs.
    destruct Hcases as [[_ ->]|[[_ ->]|[_ ->]]]; [exact Hs| |];
      apply elem_of_take in Hs; destruct Hs as [j [Hj _]];
      eapply list_elem_of_lookup_2; exact Hj. }
  assert (Hlk : (latest <= k)%nat).
  { apply Hstack, Hsub. apply last_item_Some in Hlatest. destruct Hlatest as [_ Hl].
    eapply list_elem_of_lookup_2. exact Hl. }
  assert (Hne : latest <> S k) by lia.
  assert (Hon_fresh : child_refs on = []) by (apply (Hfresh (S k) on Hon); lia).
  pose proof (added_lookup st latest (S k) lo on) as Hlook.
  split.
  - intros s Hs. apply elem_of_app in Hs. destruct Hs as [Hs|Hs].
    + apply Hsub, Hstack in Hs. lia.
    + apply list_elem_of_singleton in Hs. lia.
  - intros i o c Hi Hc. rewrite (Hlook i Hne Hlo Hon) in Hi.
    destruct (decide (i = S k)) as [->|Hik].
    { inversion Hi. subst o. simpl in Hc. rewrite Hon_fresh in Hc. inversion Hc. }
    destruct (decide (i = latest)) as [->|Hil].
    + inversion Hi. subst o. simpl in Hc. apply elem_of_app in Hc.
      destruct Hc as [Hc|Hc].
      * destruct (Hchildren latest lo c Hlo Hc) as [Hlt [oc [Hoc Hpc]]].
        split; [lia|]. exists oc. split; [|exact Hpc].
        rewrite (Hlook c Hne Hlo Hon).
        destruct (decide (c = S k)); [lia|]. destruct (decide (c = latest)); [lia|].
        exact Hoc.
      * apply list_elem_of_singleton in Hc. subst c. split; [lia|].
        exists (set_parent latest on). split; [|reflexivity].
        rewrite (Hlook (S k) Hne Hlo Hon). destruct (decide (S k = S k)); [reflexivity|lia].
    + destruct (Hchildren i o c Hi Hc) as [Hlt [oc [Hoc Hpc]]].
      split; [lia|]. rewrite (Hlook c Hne Hlo Hon).
      destruct (decide (c = S k)); [lia|].
      destruct (decide (c = latest)) as [->|Hcl].
      * exists (push_child (S k) lo). split; [reflexivity|]. simpl. congruence.
      * exists oc. split; [exact Hoc|exact Hpc].
  - intros i o q Hi Hq. rewrite (Hlook i Hne Hlo Hon) in Hi.
    destruct (decide (i = S k)) as [->|Hik].
    { inversion Hi. subst o. simpl in Hq. inversion Hq. subst q. split; [lia|].
      exists (push_child (S k) lo). split.
      - rewrite (Hlook latest Hne Hlo Hon). destruct (decide (latest = S k)); [lia|].
        destruct (decide (latest = latest)); [reflexivity|congruence].
      - simpl. apply elem_of_app. right. apply list_elem_of_singleton. reflexivity. }
    assert (Hold : exists o0, st !! i = Some o0 /\ parent_ref o0 = Some q).
    { destruct (decide (i = latest)) as [->|Hil].
      - inversion Hi. subst o. simpl in Hq. eauto.
      - eauto. }
    destruct Hold as [o0 [Hi0 Hq0]].
    destruct (Hparent i o0 q Hi0 Hq0) as [Hlt [po [Hpo Hin]]].
    split; [lia|]. rewrite (Hlook q Hne Hlo Hon).
    destruct (decide (q = S k)); [lia|].
    destruct (decide (q = latest)) as [->|Hql].
    + exists (push_child (S k) lo). split; [reflexivity|]. simpl.
      apply elem_of_app. left. congruence.
    + exists po. split; [exact Hpo|exact Hin].
  - intros i o Hi Hrange. rewrite (Hlook i Hne Hlo Hon) in Hi.
    destruct (decide (i = S k)) as [->|Hik].
    { inversion Hi. simpl. discriminate. }
    destruct (decide (i = latest)) as [->|Hil].
    + inversion Hi. simpl. apply (Hrooted latest lo Hlo). lia.
    + apply (Hrooted i o Hi). lia.
  - intros i o Hi Hlt. rewrite (Hlook i Hne Hlo Hon) in Hi.
    destruct (decide (i = S k)); [lia|]. destruct (decide (i = latest)); [lia|].
    apply (Hfresh i o Hi). lia.
Qed.

Lemma place_all_linked_up_to (r : nat) :
  forall (k : nat) (st st' : Store) (stack stack' : list nat),
    linked_up_to k st stack ->
    place_all T (st, stack) (seq (S k) r) = Ok (st', stack') ->
    linked_up_to (k + r) st' stack'.
Proof.
  induction r as [|r IH]; intros k st st' stack stack' Hl H.
  - simpl in H. inversion H. subst. rewrite Nat.add_0_r. exact Hl.
  - cbn [seq place_all] in H.
    apply bind_Ok in H. destruct H as [[st1 stack1] [Hplace H]].
    replace (k + S r)%nat with (S k + r)%nat by lia.
    apply (IH (S k) st1 st' stack1 stack'); [|exact H].
    eapply place_linked_up_to; eauto.
Qed.

Lemma fresh_linked_up_to (nodes : Store) :
  Forall (fun o => child_refs o = [] /\ parent_ref o = None) nodes ->
  linked_up_to 0 nodes [0%nat].
Proof.
  intros Hfresh.
  assert (H : forall i o, nodes !! i = Some o -> child_refs o = [] /\ parent_ref o = None).
  { intros i o Hi. apply (proj1 (Forall_lookup _ _) Hfresh i o Hi). }
  split.
  - intros s Hs. apply list_elem_of_singleton in Hs. lia.
  - intros i o c Hi Hc. destruct (H i o Hi) as [E _]. rewrite E in Hc. inversion Hc.
  - intros i o q Hi Hq. destruct (H i o Hi) as [_ E]. congruence.
  - intros i o Hi Hr. lia.
  - intros i o Hi _. apply (H i o Hi).
Qed.

(** X9. Whatever the depths are, when the parser returns, the objects it
    returns are one tree below the base node, which is the first record:
    every record of the text is a node of it, an internal node for a line of
    11 fields and a leaf for a line of 6; every node but the base node has
    one parent, an earlier record that lists it among its children; every
    child listed is a later record that names the node as its parent; and
    following [parent] from any record comes to the base node. *)
Theorem parser_returns_tree (text : string) (p : Parsed) :
  parseStatisticsContent T text = Ok p ->
  tree_shaped (store p) /\
  (store p <> [] -> baseNode p = Some 0%nat) /\
  Forall2 (record_of T) (lines_of text) (store p) /\
  (forall i o, store p !! i = Some o ->
     up (store p) i 0 /\ (i = 0%nat -> parent_ref o = None)).
Proof.
  unfold parseStatisticsContent. intros H.
  apply bind_Ok in H. destruct H as [nodes [Hnodes H]].
  pose proof (mapR_Ok_Forall2 _ _ _ Hnodes) as Hall.
  destruct nodes as [|n rest].
  { inversion H. subst p. simpl. inversion Hall. subst.
    split; [split; intros i o; discriminate|].
    split; [intros Hne; contradiction|]. split; [constructor|].
    intros i o Hi. discriminate. }
  apply bind_Ok in H. destruct H as [[st stack] [Hloop H]].
  inversion H. subst p. clear H. cbn [store baseNode].
  destruct (place_all_same_records T _ _ _ _ _ Hloop) as [Hc Hf].
  pose proof (place_all_linked_up_to (length rest) 0 (n :: rest) st [0%nat] stack
                (fresh_linked_up_to _ (mapR_parseLine_fresh T _ _ Hnodes)) Hloop)
    as [_ Hchildren Hparent Hrooted _].
  assert (Hts : tree_shaped st).
  { split.
    - intros i o c Hi Hc'. destruct (Hchildren i o c Hi Hc') as [Hlt Hoc].
      split; [lia|exact Hoc].
    - intros i o q Hi Hq. destruct (Hparent i o q Hi Hq) as [Hlt Hpo].
      split; [lia|exact Hpo].
    - intros i o Hi Hne. apply (Hrooted i o Hi).
      apply lookup_lt_Some in Hi.
      apply (f_equal length) in Hc. rewrite !length_map in Hc. simpl in Hc. lia. }
  split; [exact Hts|]. split; [reflexivity|].
  split; [eapply Forall2_same_records; eassumption|].
  intros i o Hi. split.
  - apply up_to_base; [exact Hts|]. eapply lookup_lt_Some. exact Hi.
  - intros ->. destruct (parent_ref o) as [q|] eqn:Hq; [|reflexivity].
    destruct (Hparent 0%nat o q Hi Hq) as [Hlt _]. lia.
Qed.

End ParsedTree.

Lemma parser_returns_tree_witness :
  exists p,
    parseStatisticsContent Model.accumulating
      (Model.text_of [Model.internal 3; Model.internal 4; Model.leaf 5; Model.leaf 4]) =
      Ok p /\
    map parent_ref (store p) = [None; Some 0; Some 1; Some 2]%nat /\
    map cls (store p) = [InternalNode; InternalNode; LeafNode; LeafNode] /\
    tree_shaped (store p) /\
    up (store p) 3 0.
Proof.
  destruct (parseStatisticsContent Model.accumulating
              (Model.text_of [Model.internal 3; Model.internal 4; Model.leaf 5;
                              Model.leaf 4])) as [p|e] eqn:Hp;
    [|vm_compute in Hp; discriminate].
  destruct (parser_returns_tree Model.accumulating _ p Hp) as [Hts [_ [_ Hup]]].
  exists p. split; [reflexivity|].
  assert (Hstore : map parent_ref (store p) = [None; Some 0; Some 1; Some 2]%nat /\
                   map cls (store p) = [InternalNode; InternalNode; LeafNode; LeafNode]).
  { vm_compute in Hp. inversion Hp. split; reflexivity. }
  destruct Hstore as [Hparents Hcls].
  split; [exact Hparents|]. split; [exact Hcls|]. split; [exact Hts|].
  destruct (store p !! 3%nat) as [o|] eqn:Ho; [exact (proj1 (Hup 3%nat o Ho))|].
  apply lookup_ge_None in Ho. apply (f_equal length) in Hcls.
  rewrite length_map in Hcls. simpl in Hcls. lia.
Defined.

(** ** The reset walk on a parsed tree *)

Lemma arity_cases (st : Store) :
  Forall arity_ok st ->
  Forall two_children st \/
  exists j o, st !! j = Some o /\ cls o = InternalNode /\ (length (child_refs o) < 2)%nat.
Proof.
  induction st as [|o st IH]; intros H; [left; constructor|].
  inversion H as [|? ? Ho Hst]. subst.
  destruct (IH Hst) as [Htwo|[j [o' [Hj Ho']]]].
  - unfold arity_ok in Ho. destruct (cls o) eqn:Hk.
    + destruct (decide (length (child_refs o) = 2%nat)) as [E|E].
      * left. constructor; [|exact Htwo]. unfold two_children. rewrite Hk. exact E.
      * right. exists 0%nat, o. split; [reflexivity|]. split; [exact Hk|]. lia.
    + left. constructor; [|exact Htwo]. unfold two_children. rewrite Hk. exact Ho.
  - right. exists (S j), o'. split; [exact Hj|exact Ho'].
Qed.

Section HighlightParsed.

Variable T : TreeNodes.
Hypothesis Hadd : add_keeps_arity T.

Lemma parsed_arity (text : string) (p : Parsed) :
  parseStatisticsContent T text = Ok p -> Forall arity_ok (store p).
Proof.
  unfold parseStatisticsContent. intros H.
  apply bind_Ok in H. destruct H as [nodes [Hnodes H]].
  assert (Hfresh : Forall arity_ok nodes).
  { eapply Forall_impl; [eapply mapR_parseLine_fresh; exact Hnodes|].
    intros o [Hc _]. unfold arity_ok. rewrite Hc. destruct (cls o); simpl; auto. }
  destruct nodes as [|n rest]; [inversion H; constructor|].
  apply bind_Ok in H. destruct H as [[st stack] [Hloop H]].
  inversion H. subst p. simpl.
  eapply place_all_arity; [exact Hadd|exact Hfresh|exact Hloop].
Qed.

(** X10. The reset walk of the highlighter, [walkAndApply] with the
    callback that clears the flag, on a tree the parser returned for a text
    whose depths start at 0 and are not negative, with an [add] that keeps
    a node to two children, comes to an end. When every internal node has
    two children it returns, having changed nothing but the flags, which
    are all cleared; when an internal node has fewer, it throws a
    [TypeError]. *)
Theorem reset_parsed (text : string) (p : Parsed) :
  parseStatisticsContent T text = Ok p ->
  depths (store p) !! 0%nat = Some 0 ->
  Forall (fun d => 0 <= d) (depths (store p)) ->
  (Forall two_children (store p) /\
   exists st',
     walkAndApply (S (length (store p))) (set_flag false) (store p) (Some 0%nat) =
       Some (Ok st') /\
     same_shape (store p) st' /\
     Forall (fun o => flag o = false) st')
  \/
  ((exists j o, store p !! j = Some o /\ cls o = InternalNode /\
                (length (child_refs o) < 2)%nat) /\
   walkAndApply (S (length (store p))) (set_flag false) (store p) (Some 0%nat) =
     Some (Throw TypeError)).
Proof.
  intros Hparse H0 Hnn.
  pose proof (parser_tree_shaped T text p Hparse H0 Hnn) as Hts.
  pose proof (parsed_arity text p Hparse) as Har.
  assert (Hlen : (0 < length (store p))%nat).
  { apply lookup_lt_Some in H0. unfold depths in H0. rewrite length_map in H0. exact H0. }
  destruct (arity_cases _ Har) as [Htwo|Hshort].
  - left. split; [exact Htwo|].
    destruct (walkAndApply_reset (S (length (store p))) (store p) 0 Hts Htwo) as
        [st1 [Hw [Hs1 [Hclear _]]]]; try lia.
    exists st1. split; [exact Hw|]. split; [exact Hs1|].
    apply Forall_lookup. intros j o' Hj. apply (Hclear j o' Hj).
    apply up_to_base; [exact Hts|].
    rewrite (same_shape_length _ _ Hs1). eapply lookup_lt_Some. exact Hj.
  - right. split; [exact Hshort|].
    destruct Hshort as [j [o [Hj [Hk Hl]]]].
    apply (walkAndApply_TypeError false (S (length (store p))) (store p) 0 Hts Har);
      try lia.
    exists j, o. repeat split; auto. apply up_to_base; [exact Hts|].
    eapply lookup_lt_Some; eauto.
Qed.

End HighlightParsed.

Lemma reset_parsed_witness :
  exists p st',
    parseStatisticsContent Model.binary
      (Model.text_of [Model.internal 0; Model.internal 1; Model.leaf 2; Model.leaf 2;
                      Model.leaf 1]) = Ok p /\
    walkAndApply (S (length (store p))) (set_flag false) (store p) (Some 0%nat) =
      Some (Ok st') /\
    same_shape (store p) st' /\
    Forall (fun o => flag o = false) st'.
Proof.
  destruct (parseStatisticsContent Model.binary
              (Model.text_of [Model.internal 0; Model.internal 1; Model.leaf 2;
                              Model.leaf 2; Model.leaf 1])) as [p|e] eqn:Hp;
    [|vm_compute in Hp; discriminate].
  destruct (reset_parsed Model.binary binary_keeps_arity _ p Hp)
    as [[_ [st' [Hw [Hs Hf]]]]|[_ Hw]].
  - vm_compute in Hp. inversion Hp. reflexivity.
  - vm_compute in Hp. inversion Hp. vm_compute. repeat constructor; discriminate.
  - exists p, st'. split; [reflexivity|]. split; [exact Hw|]. split; [exact Hs|exact Hf].
  - exfalso. vm_compute in Hp. inversion Hp. subst p. vm_compute in Hw. discriminate.
Defined.

(** ** The order of the leafs and of the bunches *)

Lemma SFcompare_some (x y : spec_float) :
  SFcompare x x = Some Eq -> SFcompare y y = Some Eq ->
  exists c, SFcompare x y = Some c.
Proof.
  destruct x, y; simpl; intros Hx Hy; try discriminate; eauto.
Qed.

Lemma SFleb_trans (x y z : spec_float) :
  SFleb x y = true -> SFleb y z = true -> SFleb x z = true.
Proof.
  unfold SFleb.
  destruct x as [sx|sx| |sx mx ex], y as [sy|sy| |sy my ey], z as [sz|sz| |sz mz ez];
    simpl; try discriminate; try reflexivity;
    try (destruct sx; simpl; try discriminate; try reflexivity);
    try (destruct sy; simpl; try discriminate; try reflexivity);
    try (destruct sz; simpl; try discriminate; try reflexivity).
  all: change (Pos.compare_cont Eq ?a ?b) with (Pos.compare a b).
  all: destruct (Z.compare_spec ex ey), (Z.compare_spec ey ez), (Z.compare_spec ex ez);
    try lia; subst; simpl; try discriminate; try reflexivity.
  all: destruct (Pos.compare_spec mx my), (Pos.compare_spec my mz),
         (Pos.compare_spec mx mz); try lia; subst; simpl;
    try discriminate; try reflexivity.
Qed.

Local Open Scope float_scope.

Lemma leb_trans (a b c : float) :
  (a <=? b) = true -> (b <=? c) = true -> (a <=? c) = true.
Proof. rewrite !FloatAxioms.leb_spec. apply SFleb_trans. Qed.

Lemma ltb_leb (a b : float) : (a <? b) = true -> (a <=? b) = true.
Proof.
  rewrite FloatAxioms.leb_spec, FloatAxioms.ltb_spec. unfold SFleb, SFltb.
  destruct (SFcompare (Prim2SF a) (Prim2SF b)) as [[]|]; try discriminate; reflexivity.
Qed.

Lemma not_ltb_leb (a b : float) :
  is_nan a = false -> is_nan b = false -> (a <? b) = false -> (b <=? a) = true.
Proof.
  intros Ha Hb. apply not_nan_compare in Ha. apply not_nan_compare in Hb.
  rewrite FloatAxioms.leb_spec, FloatAxioms.ltb_spec. unfold SFleb, SFltb.
  rewrite (SFcompare_antisym (Prim2SF a) (Prim2SF b)).
  destruct (SFcompare_some _ _ Ha Hb) as [c ->]. destruct c; simpl; try discriminate;
    reflexivity.
Qed.

Local Close Scope float_scope.

Section Sorted.

Context {A : Type} (key : A -> float).

(** [b] does not come before [a] when it has the smaller key. *)
Definition descending (a b : A) : Prop := (key b <=? key a)%float = true.

Local Abbreviation after := (fun a b => TreeView.samples_after (key a) (key b)).

Lemma insert_sorted_descending (a : A) (l : list A) :
  is_nan (key a) = false -> Forall (fun b => is_nan (key b) = false) l ->
  StronglySorted descending l ->
  StronglySorted descending (insert_sorted after a l).
Proof.
  intros Ha Hl Hs. induction Hs as [|b l Hs IH Hb]; simpl.
  - constructor; constructor.
  - inversion Hl as [|? ? Hnb Hl']. subst.
    unfold TreeView.samples_after at 1.
    destruct (key a <? key b)%float eqn:E.
    + constructor; [apply IH; exact Hl'|].
      eapply Permutation_Forall; [symmetry; apply insert_sorted_Permutation|].
      constructor; [|exact Hb]. apply ltb_leb. exact E.
    + pose proof (not_ltb_leb _ _ Ha Hnb E) as Hba.
      constructor; [constructor; assumption|].
      constructor; [exact Hba|].
      eapply Forall_impl; [exact Hb|]. intros c Hc. unfold descending in *.
      eapply leb_trans; eassumption.
Qed.

Lemma sort_descending (l : list A) :
  Forall (fun b => is_nan (key b) = false) l ->
  StronglySorted descending (sort after l).
Proof.
  induction l as [|a l IH]; intros H; simpl; [constructor|].
  inversion H as [|? ? Ha Hl]. subst.
  apply insert_sorted_descending; [exact Ha| |apply IH; exact Hl].
  eapply Permutation_Forall; [symmetry; apply sort_Permutation|exact Hl].
Qed.

End Sorted.

(** X11. The layout of [TreeView.js] returns the leafs and the bunches in
    the order of their samples, the largest first, when none of the samples
    is [NaN]: no record comes before a record with more samples. The
    records are those the recursion pushed, neither more nor fewer. *)
Theorem layout_sorted (Math_sin Math_cos : float -> float) (maxDepth : Z)
        (maxShorteningFactor minBranchLength : float) (tree : Node)
        (totalSamples width height trunkLength : float) (e : TreeView.Elements) :
  TreeView.generateTreeElements Math_sin Math_cos maxDepth maxShorteningFactor
    minBranchLength tree totalSamples width height trunkLength = Ok e ->
  Forall (fun r => is_nan (TreeView.leaf_samples r) = false) (TreeView.leafs e) ->
  Forall (fun r => is_nan (TreeView.bunch_samples r) = false) (TreeView.bunches e) ->
  StronglySorted (descending TreeView.leaf_samples) (TreeView.leafs e) /\
  StronglySorted (descending TreeView.bunch_samples) (TreeView.bunches e).
Proof.
  intros H Hl Hb. apply generateTreeElements_Ok in H. destruct H as [n' [e' [_ ->]]].
  unfold sorted_elements in *. simpl in *. split.
  - apply sort_descending.
    eapply Permutation_Forall; [apply sort_Permutation|exact Hl].
  - apply sort_descending.
    eapply Permutation_Forall; [apply sort_Permutation|exact Hb].
Qed.

Lemma layout_sorted_witness :
  exists e,
    TreeView.generateTreeElements Model.sin Model.cos 10000
      TreeView.default_maxShorteningFactor TreeView.default_minBranchLength
      (sample_node InternalNode 100 [sample_leaf 30; sample_leaf 70]) 100 800 800 100 =
      Ok e /\
    map TreeView.leaf_samples (TreeView.leafs e) = [70; 30]%float /\
    StronglySorted (descending TreeView.leaf_samples) (TreeView.leafs e).
Proof.
  eexists. split; [vm_compute; reflexivity|]. split; [reflexivity|].
  apply (layout_sorted Model.sin Model.cos 10000 TreeView.default_maxShorteningFactor
           TreeView.default_minBranchLength
           (sample_node InternalNode 100 [sample_leaf 30; sample_leaf 70])
           100 800 800 100).
  - vm_compute. reflexivity.
  - repeat constructor.
  - constructor.
Defined.

(** ** The strategies on nodes with fewer than two children *)

(** X12. The strategy "UP" throws a [TypeError] on a node without children
    and on no other node; on a node with children it returns what "SIMPLE"
    returns, [children[0]] and [children[1]], as they are or the other way
    round, so that with one child one of the two is [undefined]. *)
Theorem strategy_UP_children (node : Draw.Placed) :
  (children (Draw.p_node node) = [] <-> Draw.strategy_UP node = Throw TypeError) /\
  (forall err, Draw.strategy_UP node = Throw err -> err = TypeError) /\
  (forall l r, Draw.strategy_UP node = Ok (l, r) ->
     Draw.strategy_SIMPLE node = Ok (l, r) \/ Draw.strategy_SIMPLE node = Ok (r, l)) /\
  (forall c, children (Draw.p_node node) = [c] ->
     Draw.strategy_UP node = Ok (Some c, None) \/
     Draw.strategy_UP node = Ok (None, Some c)).
Proof.
  unfold Draw.strategy_UP, Draw.strategy_SIMPLE.
  destruct (children (Draw.p_node node)) as [|c cs] eqn:E.
  - simpl. repeat split; auto; try discriminate.
    intros err H. inversion H. reflexivity.
  - cbn [lookup list_lookup defined bind].
    destruct (Draw.firstBiggerThanSecond c node), (Draw.leftBound node); simpl;
      (split; [split; discriminate|]); (split; [discriminate|]);
      (split; [intros l r H; inversion H; auto|]);
      intros c' H; inversion H; subst; auto.
Qed.

(** ** The shape of a correlation matrix *)

Lemma split_not_empty (sep s : string) : JS.split sep s <> [].
Proof. unfold JS.split. destruct (JS.split_aux sep 0 s). discriminate. Qed.

(** X13. [parseCorrelationMatrix] returns a matrix with a row at least, and
    every row of it has an entry at least, whatever the text is: the empty
    text, and the text of two brackets, give the one entry that
    [Number.parseFloat] makes of the empty string. *)
Theorem correlation_matrix_not_empty (Number_parseFloat : string -> float)
        (text : string) :
  parseCorrelationMatrix Number_parseFloat text <> [] /\
  Forall (fun row => row <> []) (parseCorrelationMatrix Number_parseFloat text) /\
  parseCorrelationMatrix Number_parseFloat EmptyString =
    [[Number_parseFloat EmptyString]] /\
  parseCorrelationMatrix Number_parseFloat "[]"%string =
    [[Number_parseFloat EmptyString]].
Proof.
  unfold parseCorrelationMatrix. split; [|split; [|split; reflexivity]].
  - intros H. apply map_eq_nil in H. revert H. apply split_not_empty.
  - apply Forall_forall. intros row Hrow. apply list_elem_of_In, in_map_iff in Hrow.
    destruct Hrow as [line [<- _]]. intros H. apply map_eq_nil in H.
    revert H. apply split_not_empty.
Qed.

Example correlation_matrix_2_by_2 :
  parseCorrelationMatrix Model.parseFloat
    ("[[1,0];" ++ LF ++ "[0,1]]")%string = [[1; 0]; [0; 1]]%float.
Proof. vm_compute. reflexivity. Qed.

(** ** Laying out a parsed tree *)

Lemma tree_of_two_children (st : Store) :
  tree_shaped st -> Forall two_children st ->
  forall (fuel i : nat),
    (i < length st)%nat -> (length st <= i + fuel)%nat ->
    exists n,
      tree_of fuel st i = Some n /\
      (forall maxDepth depth, lacks_child maxDepth n depth = false).
Proof.
  intros Hts Htwo. induction fuel as [|fuel IH]; intros i Hi Hfuel; [lia|].
  destruct (lookup_lt_is_Some_2 st i Hi) as [o Ho].
  pose proof (proj1 (Forall_lookup _ _) Htwo i o Ho) as Ho2.
  assert (Hchild : forall c, c ∈ child_refs o ->
            exists n, tree_of fuel st c = Some n /\
                      (forall maxDepth depth, lacks_child maxDepth n depth = false)).
  { intros c Hc. destruct (ts_children st Hts i o c Ho Hc) as [Hlt [oc [Hoc _]]].
    apply IH; [eapply lookup_lt_Some; exact Hoc|lia]. }
  cbn [tree_of]. rewrite Ho. unfold two_children in Ho2.
  destruct (cls o) eqn:Hk.
  - destruct (child_refs o) as [|c1 [|c2 [|c3 cs]]] eqn:Hcs; try discriminate.
    destruct (Hchild c1) as [l [Hl Hl1]]; [apply elem_of_cons; auto|].
    destruct (Hchild c2) as [r [Hr Hr1]];
      [apply elem_of_cons; right; apply elem_of_cons; auto|].
    cbn [mapM]. rewrite Hl, Hr. cbn.
    eexists. split; [reflexivity|].
    intros maxDepth depth. cbn [lacks_child node_cls children].
    rewrite Hl1, Hr1. destruct (depth =? maxDepth - 1); reflexivity.
  - rewrite Ho2. cbn.
    eexists. split; [reflexivity|].
    intros maxDepth depth. cbn [lacks_child node_cls].
    destruct (depth =? maxDepth - 1); reflexivity.
Qed.

(** X14. A text the parser accepts, with a first depth of 0, no negative
    depth and two children on every internal node, gives a tree that the
    layout of [TreeView.js] lays out whatever its parameters are: it
    returns elements for every [maxDepth], and throws nothing. *)
Theorem parsed_tree_laid_out (T : TreeNodes) (text : string) (p : Parsed) :
  parseStatisticsContent T text = Ok p ->
  depths (store p) !! 0%nat = Some 0 ->
  Forall (fun d => 0 <= d) (depths (store p)) ->
  Forall two_children (store p) ->
  exists tree,
    parsed_tree T text = Some tree /\
    forall Math_sin Math_cos maxDepth maxShorteningFactor minBranchLength
           totalSamples width height trunkLength,
    exists e,
      TreeView.generateTreeElements Math_sin Math_cos maxDepth maxShorteningFactor
        minBranchLength tree totalSamples width height trunkLength = Ok e.
Proof.
  intros Hparse H0 Hnn Htwo.
  pose proof (parser_tree_shaped T text p Hparse H0 Hnn) as Hts.
  assert (Hlen : (0 < length (store p))%nat).
  { apply lookup_lt_Some in H0. unfold depths in H0. rewrite length_map in H0. exact H0. }
  destruct (tree_of_two_children (store p) Hts Htwo (length (store p)) 0 Hlen)
    as [tree [Htree Hlacks]]; [lia|].
  assert (Hbase : baseNode p = Some 0%nat).
  { destruct (parse_linked T text p Hparse H0 Hnn) as [? [? [? [_ [_ [_ [Hb _]]]]]]].
    exact Hb. }
  exists tree. split.
  - unfold parsed_tree. rewrite Hparse, Hbase. exact Htree.
  - intros Math_sin Math_cos maxDepth maxShorteningFactor minBranchLength
           totalSamples width height trunkLength.
    destruct (TreeView.generateTreeElements Math_sin Math_cos maxDepth maxShorteningFactor
                minBranchLength tree totalSamples width height trunkLength)
      as [e|err] eqn:E; [eauto|].
    apply generateTreeElements_Throw in E. destruct E as [_ E].
    rewrite Hlacks in E. discriminate.
Qed.

Lemma parsed_tree_laid_out_witness :
  exists tree e,
    parsed_tree Model.binary text_0_1_1 = Some tree /\
    TreeView.generateTreeElements Model.sin Model.cos 10000
      TreeView.default_maxShorteningFactor TreeView.default_minBranchLength
      tree 100 800 800 100 = Ok e /\
    length (TreeView.branches e) = 3%nat.
Proof.
  destruct (parseStatisticsContent Model.binary text_0_1_1) as [p|err] eqn:Hp;
    [|vm_compute in Hp; discriminate].
  destruct (parsed_tree_laid_out Model.binary text_0_1_1 p Hp)
    as [tree [Htree Hlayout]].
  - vm_compute in Hp. inversion Hp. reflexivity.
  - vm_compute in Hp. inversion Hp. vm_compute. repeat constructor; discriminate.
  - vm_compute in Hp. inversion Hp. repeat constructor.
  - destruct (Hlayout Model.sin Model.cos 10000 TreeView.default_maxShorteningFactor
                TreeView.default_minBranchLength 100%float 800%float 800%float 100%float)
      as [e He].
    exists tree, e. split; [exact Htree|]. split; [exact He|].
    vm_compute in Htree. inversion Htree. subst tree.
    vm_compute in He. inversion He. reflexivity.
Defined.

(** ** The records in the order of a walk through the tree *)

(** The nodes that a walk from a node comes to, depth first and the
    children in their order: the order in which [walkAndApply] calls [fn];
    cut short when [fuel] runs out. *)
Fixpoint preorder (fuel : nat) (st : Store) (node : nat) : list nat :=
  match fuel with
  | O => []
  | S fuel' =>
      match st !! node with
      | None => []
      | Some o => node :: flat_map (preorder fuel' st) (child_refs o)
      end
  end.

(** The number of depths at the head of a list that are above [d]. *)
Fixpoint run (d : Z) (l : list Z) : nat :=
  match l with
  | x :: l' => if d <? x then S (run d l') else 0%nat
  | [] => 0%nat
  end.

Lemma run_above (d : Z) (l : list Z) :
  forall j x, (j < run d l)%nat -> l !! j = Some x -> d < x.
Proof.
  induction l as [|y l IH]; intros j x Hj Hx; simpl in Hj; [lia|].
  destruct (Z.ltb_spec d y) as [Hy|Hy]; [|lia].
  destruct j as [|j]; simpl in Hx.
  - inversion Hx. subst. exact Hy.
  - apply (IH j); [lia|exact Hx].
Qed.

Lemma run_length (d : Z) (l : list Z) : (run d l <= length l)%nat.
Proof.
  induction l as [|y l IH]; simpl; [lia|]. destruct (d <? y); simpl; lia.
Qed.

Lemma run_end (d : Z) (l : list Z) (x : Z) : l !! run d l = Some x -> x <= d.
Proof.
  induction l as [|y l IH]; simpl; [discriminate|].
  destruct (Z.ltb_spec d y) as [Hy|Hy]; simpl.
  - exact IH.
  - intros H. inversion H. subst. exact Hy.
Qed.

Lemma run_all (d : Z) (l : list Z) : Forall (fun x => d < x) l -> run d l = length l.
Proof.
  induction 1 as [|y l Hy _ IH]; simpl; [reflexivity|].
  destruct (Z.ltb_spec d y); [|lia]. rewrite IH. reflexivity.
Qed.

Lemma filter_none {A} (f : A -> bool) (l : list A) :
  (forall a, In a l -> f a = false) -> List.filter f l = [].
Proof.
  induction l as [|a l IH]; intros H; simpl; [reflexivity|].
  rewrite (H a) by (left; reflexivity). apply IH. intros b Hb. apply H. right. exact Hb.
Qed.

Lemma ref_parent_Some (ds : list Z) (j i : nat) :
  ref_parent ds j = Some i <->
  exists dj, ds !! j = Some dj /\ (i < j)%nat /\ ds !! i = Some (dj - 1) /\
             forall k, (i < k < j)%nat -> ds !! k <> Some (dj - 1).
Proof.
  unfold ref_parent. destruct (ds !! j) as [dj|].
  - rewrite last_before_Some. split.
    + intros [Hlt [Hi Hk]]. exists dj. split; [reflexivity|]. split; [exact Hlt|].
      apply bool_decide_eq_true in Hi. split; [exact Hi|].
      intros k Hk'. specialize (Hk k Hk'). apply bool_decide_eq_false in Hk. exact Hk.
    + intros [dj' [E [Hlt [Hi Hk]]]]. inversion E. subst dj'.
      split; [exact Hlt|]. split; [apply bool_decide_eq_true; exact Hi|].
      intros k Hk'. apply bool_decide_eq_false. apply Hk. exact Hk'.
  - split; [discriminate|]. intros [dj [E _]]. discriminate.
Qed.

Section Preorder.

Variable ds : list Z.
(** A depth is at least 1 and at most one more than the depth before it. *)
Hypothesis Hstep : forall k a b, ds !! k = Some a -> ds !! S k = Some b -> 1 <= b <= a + 1.

(** From a depth of [d] at most to a depth above [d], the depths pass [d]. *)
Lemma climb (d : Z) (m : nat) :
  forall e x y, ds !! e = Some x -> x <= d -> ds !! (e + m)%nat = Some y -> d < y ->
                exists k, (e <= k < e + m)%nat /\ ds !! k = Some d.
Proof.
  induction m as [|m IH]; intros e x y Hx Hxd Hy Hdy.
  - rewrite Nat.add_0_r in Hy. assert (x = y) by congruence. lia.
  - destruct (lookup_lt_is_Some_2 ds (e + m)) as [z Hz].
    { apply lookup_lt_Some in Hy. lia. }
    replace (e + S m)%nat with (S (e + m)) in Hy by lia.
    pose proof (Hstep _ _ _ Hz Hy) as Hzy.
    destruct (Z_le_gt_dec z d) as [Hle|Hgt].
    + assert (z = d) by lia. subst z. exists (e + m)%nat. split; [lia|exact Hz].
    + destruct (IH e x z Hx Hxd Hz) as [k [Hk Hdk]]; [lia|].
      exists k. split; [lia|exact Hdk].
Qed.

(** The children of a record of depth [d] are the records of depth [d + 1]
    among the records above [d] that follow it. *)
Lemma children_of (i : nat) (d : Z) :
  ds !! i = Some d ->
  ref_children ds i =
    List.filter (fun j => bool_decide (ds !! j = Some (d + 1)))
                (seq (S i) (run d (drop (S i) ds))).
Proof.
  intros Hi. unfold ref_children.
  pose proof (lookup_lt_Some _ _ _ Hi) as Hlt.
  pose proof (run_length d (drop (S i) ds)) as Hrun. rewrite length_drop in Hrun.
  set (r := run d (drop (S i) ds)) in *.
  replace (length ds) with (S i + (r + (length ds - S i - r)))%nat by lia.
  rewrite seq_app, List.filter_app. rewrite filter_none.
  2:{ intros j Hj. apply in_seq in Hj. apply bool_decide_eq_false.
      intros H. apply ref_parent_Some in H. destruct H as [? [_ [H _]]]. lia. }
  rewrite seq_app, List.filter_app. rewrite (filter_none _ (seq (0 + S i + r) _)).
  2:{ intros j Hj. apply in_seq in Hj. apply bool_decide_eq_false.
      intros H. apply ref_parent_Some in H. destruct H as [dj [Hdj [_ [Hdi Hk]]]].
      assert (dj = d + 1) by (rewrite Hi in Hdi; inversion Hdi; lia). subst dj.
      destruct (lookup_lt_is_Some_2 ds (S i + r)) as [x Hx]; [lia|].
      assert (Hxd : x <= d).
      { apply (run_end d (drop (S i) ds)). rewrite lookup_drop. exact Hx. }
      destruct (climb d (j - (S i + r)) (S i + r)%nat x (d + 1)) as [k [Hk1 Hk2]].
      - exact Hx.
      - exact Hxd.
      - replace (S i + r + (j - (S i + r)))%nat with j by lia. exact Hdj.
      - lia.
      - apply (Hk k); [lia|]. replace (d + 1 - 1) with d by lia. exact Hk2. }
  simpl. rewrite app_nil_r. apply List.filter_ext_in.
  intros j Hj. apply in_seq in Hj.
  destruct (lookup_lt_is_Some_2 ds j) as [dj Hdj]; [lia|].
  apply bool_decide_ext. rewrite ref_parent_Some. split.
  - intros [dj' [E [_ [Hdi _]]]]. rewrite Hi in Hdi. inversion Hdi. rewrite E. f_equal. lia.
  - intros E. exists (d + 1). split; [exact E|]. split; [lia|].
    replace (d + 1 - 1) with d by lia. split; [exact Hi|].
    intros k Hk Hdk.
    assert (d < d); [|lia].
    apply (run_above d (drop (S i) ds) (k - S i)); [fold r; lia|].
    rewrite lookup_drop. replace (S i + (k - S i))%nat with k by lia. exact Hdk.
Qed.

End Preorder.

Section PreorderStore.

Variable ds : list Z.
Hypothesis Hstep : forall k a b, ds !! k = Some a -> ds !! S k = Some b -> 1 <= b <= a + 1.
Variable st : Store.
Hypothesis Hlen : length st = length ds.
Hypothesis Hchildren : forall i o, st !! i = Some o -> child_refs o = ref_children ds i.

(** The walks from the records of depth [d + 1] in a stretch of records
    above [d], one after the other, come to the records of the stretch in
    their order, when each of these walks comes to the records below its
    own. *)
Lemma preorder_stretch (fuel : nat) (d : Z) :
  (forall i, ds !! i = Some (d + 1) ->
             (run (d + 1) (drop (S i) ds) < fuel)%nat ->
             preorder fuel st i = seq i (S (run (d + 1) (drop (S i) ds)))) ->
  forall m a,
    (forall j x, (a <= j < a + m)%nat -> ds !! j = Some x -> d < x) ->
    (a + m <= length ds)%nat ->
    (forall x, ds !! (a + m)%nat = Some x -> x <= d + 1) ->
    (m = 0%nat \/ ds !! a = Some (d + 1)) ->
    (m <= fuel)%nat ->
    flat_map (preorder fuel st)
             (List.filter (fun j => bool_decide (ds !! j = Some (d + 1))) (seq a m)) =
      seq a m.
Proof.
  intros Hwalk m. induction m as [m IH] using lt_wf_ind.
  intros a Habove Hend Hafter Hfirst Hfuel.
  destruct m as [|m]; [reflexivity|].
  destruct Hfirst as [Hfirst|Hfirst]; [discriminate|].
  set (ra := run (d + 1) (drop (S a) ds)).
  assert (Hra : (ra <= m)%nat).
  { destruct (le_gt_dec ra m) as [Hle|Hgt]; [exact Hle|]. exfalso.
    pose proof (run_length (d + 1) (drop (S a) ds)) as Hrl. fold ra in Hrl.
    rewrite length_drop in Hrl.
    destruct (lookup_lt_is_Some_2 ds (a + S m)) as [x Hx]; [lia|].
    pose proof (Hafter x Hx) as Hle.
    assert (d + 1 < x); [|lia].
    apply (run_above (d + 1) (drop (S a) ds) m); [fold ra; lia|].
    rewrite lookup_drop. replace (S a + m)%nat with (a + S m)%nat by lia. exact Hx. }
  cbn [seq List.filter]. rewrite bool_decide_eq_true_2 by exact Hfirst.
  cbn [flat_map]. rewrite (Hwalk a Hfirst) by (fold ra; lia). fold ra.
  assert (Hsplit : seq (S a) m = seq (S a) ra ++ seq (S a + ra) (m - ra)).
  { rewrite <- seq_app. f_equal. lia. }
  rewrite Hsplit. rewrite List.filter_app. rewrite filter_none.
  2:{ intros j Hj. apply in_seq in Hj. apply bool_decide_eq_false. intros Hdj.
      assert (d + 1 < d + 1); [|lia].
      apply (run_above (d + 1) (drop (S a) ds) (j - S a)); [fold ra; lia|].
      rewrite lookup_drop. replace (S a + (j - S a))%nat with j by lia. exact Hdj. }
  cbn [app]. rewrite (IH (m - ra)%nat); try lia.
  - reflexivity.
  - intros j x Hj. apply Habove. lia.
  - intros x. replace (S a + ra + (m - ra))%nat with (a + S m)%nat by lia. apply Hafter.
  - destruct (decide (m - ra = 0)%nat) as [E|E]; [left; exact E|right].
    destruct (lookup_lt_is_Some_2 ds (S a + ra)) as [x Hx]; [lia|].
    assert (Hlow : d < x) by (apply (Habove (S a + ra)%nat); [lia|exact Hx]).
    assert (Hhigh : x <= d + 1).
    { apply (run_end (d + 1) (drop (S a) ds)). fold ra. rewrite lookup_drop. exact Hx. }
    rewrite Hx. f_equal. lia.
Qed.

(** A walk from a record comes to the record and to the records above its
    depth that follow it, in their order. *)
Lemma preorder_run (fuel : nat) :
  forall i d, ds !! i = Some d ->
              (run d (drop (S i) ds) < fuel)%nat ->
              preorder fuel st i = seq i (S (run d (drop (S i) ds))).
Proof.
  induction fuel as [|fuel IH]; intros i d Hi Hfuel; [lia|].
  pose proof (lookup_lt_Some _ _ _ Hi) as Hlt.
  destruct (lookup_lt_is_Some_2 st i) as [o Ho]; [lia|].
  cbn [preorder]. rewrite Ho. rewrite (Hchildren i o Ho), (children_of ds Hstep i d Hi).
  cbn [seq]. f_equal.
  pose proof (run_length d (drop (S i) ds)) as Hrl. rewrite length_drop in Hrl.
  apply (preorder_stretch fuel d).
  - intros j Hj Hfj. apply IH; assumption.
  - intros j x Hj Hx. apply (run_above d (drop (S i) ds) (j - S i)); [lia|].
    rewrite lookup_drop. replace (S i + (j - S i))%nat with j by lia. exact Hx.
  - lia.
  - intros x Hx. assert (x <= d); [|lia].
    apply (run_end d (drop (S i) ds)). rewrite lookup_drop. exact Hx.
  - destruct (decide (run d (drop (S i) ds) = 0)%nat) as [E|E]; [left; exact E|right].
    destruct (lookup_lt_is_Some_2 ds (S i)) as [x Hx]; [lia|].
    pose proof (Hstep _ _ _ Hi Hx) as Hxd.
    assert (d < x).
    { apply (run_above d (drop (S i) ds) 0); [lia|].
      rewrite lookup_drop. replace (S i + 0)%nat with (S i) by lia. exact Hx. }
    rewrite Hx. f_equal. lia.
  - lia.
Qed.

End PreorderStore.

Lemma depths_same_fields (st st' : Store) :
  map fields st = map fields st' -> depths st = depths st'.
Proof.
  intros H. unfold depths.
  rewrite <- (map_map fields depth st), <- (map_map fields depth st'), H. reflexivity.
Qed.

Section ParsedSteps.

Variable T : TreeNodes.

(** A round that goes through took a record of a depth of 1 at least and of
    one more than the depth of the record before it at most. *)
Lemma place_step (ds : list Z) (k : nat) (st st' : Store) (stack stack' : list nat)
      (a b : Z) :
  linked_to ds k st stack -> JS.last_item stack = Some k ->
  Forall (fun d => 0 <= d) ds ->
  place T (st, stack) (S k) = Ok (st', stack') ->
  ds !! k = Some a -> ds !! S k = Some b ->
  1 <= b <= a + 1 /\ JS.last_item stack' = Some (S k).
Proof.
  intros Hlinked Htop Hnn Hplace Ha Hb.
  pose proof Hlinked as [Hds Hstack Hne _ _].
  pose proof (last_item_Some _ _ Htop) as [_ Htop'].
  destruct (Hstack _ _ Htop') as [_ [Htd _]].
  assert (Hlen : a = Z.of_nat (length stack - 1)) by congruence.
  assert (Hpos : (0 < length stack)%nat) by (destruct stack; simpl; [congruence|lia]).
  assert (Ha0 : 0 <= a) by (apply (proj1 (Forall_lookup _ _) Hnn k a Ha)).
  assert (Hb0 : 0 <= b) by (apply (proj1 (Forall_lookup _ _) Hnn (S k) b Hb)).
  apply place_rule in Hplace.
  destruct Hplace as [d [dl [stack1 [latest [lo [Hd [Hdl [Hcases [Hlatest [_ [_ [_ ->]]]]]]]]]]]].
  apply depth_at_Ok in Hd. destruct Hd as [i [Ei Hd]]. inversion Ei. subst i.
  apply depth_at_Ok in Hdl. destruct Hdl as [i [Ei' Hdl]].
  rewrite Htop in Ei'. inversion Ei'. subst i.
  rewrite Hds in Hd, Hdl.
  assert (d = b) by congruence. assert (dl = a) by congruence. subst d dl.
  split; [|apply last_item_snoc].
  apply last_item_Some in Hlatest. destruct Hlatest as [Hne1 _].
  split; [|destruct Hcases as [[? _]|[[? _]|[? _]]]; lia].
  destruct (Z.eq_dec b 0) as [E|E]; [|lia]. exfalso. apply Hne1. subst b.
  destruct Hcases as [[E _]|[[E ->]|[E ->]]].
  - lia.
  - unfold JS.pop. replace (length stack - 1)%nat with 0%nat by lia. reflexivity.
  - unfold JS.slice0. simpl. rewrite Z.min_l by lia. reflexivity.
Qed.

Lemma place_all_steps (ds : list Z) (r : nat) :
  forall (k : nat) (st st' : Store) (stack stack' : list nat),
    linked_to ds k st stack -> JS.last_item stack = Some k ->
    Forall (fun d => 0 <= d) ds ->
    place_all T (st, stack) (seq (S k) r) = Ok (st', stack') ->
    forall j a b, (k <= j < k + r)%nat -> ds !! j = Some a -> ds !! S j = Some b ->
                  1 <= b <= a + 1.
Proof.
  induction r as [|r IH]; intros k st st' stack stack' Hlinked Htop Hnn Hall j a b Hj Ha Hb;
    [lia|].
  cbn [seq place_all] in Hall.
  apply bind_Ok in Hall. destruct Hall as [[st1 stack1] [Hplace Hall]].
  destruct (lookup_lt_is_Some_2 ds k) as [ak Hak].
  { apply lookup_lt_Some in Ha. lia. }
  destruct (lookup_lt_is_Some_2 ds (S k)) as [bk Hbk].
  { apply lookup_lt_Some in Hb. lia. }
  destruct (place_step ds k st st1 stack stack1 ak bk Hlinked Htop Hnn Hplace Hak Hbk)
    as [Hbounds Htop1].
  destruct (decide (j = k)) as [->|Hne].
  - assert (a = ak) by congruence. assert (b = bk) by congruence. subst. exact Hbounds.
  - assert (Hlinked1 : linked_to ds (S k) st1 stack1) by (eapply place_linked; eauto).
    apply (IH (S k) st1 st' stack1 stack' Hlinked1 Htop1 Hnn Hall j a b);
      [lia|exact Ha|exact Hb].
Qed.

(** X15. For a text the parser accepts, whose first record has depth 0 and
    none of whose records has a negative depth, a walk through the returned
    tree from the base node, depth first and the children in their order,
    comes to every record once, in the order of the lines of the text: the
    text is the tree written down in the order of the walk. *)
Theorem parser_preorder (text : string) (p : Parsed) :
  parseStatisticsContent T text = Ok p ->
  depths (store p) !! 0%nat = Some 0 ->
  Forall (fun d => 0 <= d) (depths (store p)) ->
  preorder (length (store p)) (store p) 0 = seq 0 (length (store p)).
Proof.
  intros Hparse H0 Hnn.
  destruct (parse_linked T text p Hparse H0 Hnn)
    as [nodes0 [stack0 [k0 [_ [_ [_ [_ [Hlenk Hlinked]]]]]]]].
  pose proof (linked_reference _ _ _ _ Hlinked Hlenk) as Hlinks.
  assert (Hstep : forall k a b, depths (store p) !! k = Some a ->
                                depths (store p) !! S k = Some b -> 1 <= b <= a + 1).
  { unfold parseStatisticsContent in Hparse.
    apply bind_Ok in Hparse. destruct Hparse as [nodes [Hnodes Hparse]].
    destruct nodes as [|n rest]; [inversion Hparse; subst; discriminate|].
    apply bind_Ok in Hparse. destruct Hparse as [[st stack] [Hloop Hparse]].
    inversion Hparse. subst p. cbn [store] in *.
    destruct (place_all_same_records T _ _ _ _ _ Hloop) as [_ Hf].
    apply depths_same_fields in Hf.
    intros k a b Ha Hb.
    assert (Hstart : linked_to (depths st) 0 (n :: rest) [0%nat]).
    { rewrite Hf. apply linked_to_start; [rewrite <- Hf; exact H0|].
      eapply mapR_parseLine_fresh. exact Hnodes. }
    apply (place_all_steps (depths st) (length rest) 0 (n :: rest) st [0%nat] stack
             Hstart eq_refl Hnn Hloop k a b); [|exact Ha|exact Hb].
    apply lookup_lt_Some in Hb. rewrite Hf in Hb. unfold depths in Hb.
    rewrite length_map in Hb. simpl in Hb. lia. }
  assert (Hlen : length (store p) = length (depths (store p))).
  { unfold depths. rewrite length_map. reflexivity. }
  assert (Hpos : (0 < length (store p))%nat).
  { apply lookup_lt_Some in H0. lia. }
  rewrite (preorder_run (depths (store p)) Hstep (store p) Hlen
             (fun i o Ho => proj2 (Hlinks i o Ho)) (length (store p)) 0 0 H0).
  - rewrite run_all.
    + rewrite length_drop. f_equal. lia.
    + apply Forall_lookup. intros j x Hx. rewrite lookup_drop in Hx.
      destruct (lookup_lt_is_Some_2 (depths (store p)) j) as [y Hy].
      { apply lookup_lt_Some in Hx. lia. }
      pose proof (Hstep j y x Hy Hx). lia.
  - pose proof (run_length 0 (drop 1 (depths (store p)))) as Hrl.
    rewrite length_drop in Hrl. lia.
Qed.

End ParsedSteps.

Lemma parser_preorder_witness :
  exists p,
    parseStatisticsContent Model.accumulating
      (Model.text_of (map Model.internal [0; 1; 2; 2; 1; 2; 3; 3]%nat)) = Ok p /\
    map child_refs (store p) = [[1; 4]; [2; 3]; []; []; [5]; [6; 7]; []; []]%nat /\
    preorder (length (store p)) (store p) 0 = seq 0 (length (store p)).
Proof.
  eexists. split; [vm_compute; reflexivity|]. split; [reflexivity|].
  apply (parser_preorder Model.accumulating
           (Model.text_of (map Model.internal [0; 1; 2; 2; 1; 2; 3; 3]%nat))).
  - vm_compute. reflexivity.
  - reflexivity.
  - vm_compute. repeat constructor; discriminate.
Defined.
